(** * Spike-and-slab RBM policy (mlpack, methods/rbm/spike_slab_rbm_policy_impl.hpp)

    A shallow embedding of [SpikeSlabRBMPolicy] and the properties of its
    energy, inference, sampling and gradient operations.

    Numbers.  The C++ [double] is idealised as a real number ([R]); rounding,
    infinities and NaN are outside the model.

    Memory.  Armadillo objects are headers (shape and position of the first
    element) over raw storage.  Storage is modelled as one unbounded array of
    reals per allocation ([heap]); several headers may point into the same
    allocation, exactly as [parameter], [weight], [spikeBias] and
    [visiblePenalty] do after [Reset].

    Effects.  Every operation runs in the monad [M]: it threads the heap and the
    state of the random generator, and fails ([None]) where the C++ code stops
    on an [assert] or where Armadillo refuses to invert a singular matrix.
    Armadillo's own checks of shapes and indices are not modelled: the
    asserts at the head of each operation establish the shapes, and every
    index comes from a loop over those shapes. *)

From Stdlib Require Import Reals List Arith Lia Lra Bool.
Import ListNotations.
Open Scope R_scope.

(* ================================================================== *)
(** * Armadillo: storage, headers, expression values                   *)
(* ================================================================== *)

Module Arma.

(** The allocations the policy works with: the five owned by the instance,
    and the matrices handed in by the caller. *)
Inductive buf : Type :=
| ParameterMem
| SlabPenaltyMem
| SpikeMeanMem
| SpikeSamplesMem
| SlabMeanMem
| CallerMem (k : nat).

Definition buf_eqb (a b : buf) : bool :=
  match a, b with
  | ParameterMem, ParameterMem => true
  | SlabPenaltyMem, SlabPenaltyMem => true
  | SpikeMeanMem, SpikeMeanMem => true
  | SpikeSamplesMem, SpikeSamplesMem => true
  | SlabMeanMem, SlabMeanMem => true
  | CallerMem j, CallerMem k => Nat.eqb j k
  | _, _ => false
  end.

Definition heap := buf -> nat -> R.

(** [arma::mat]: shape, and where its first element lives ([memptr()]).
    Elements are stored column by column. *)
Record mat := Mat { n_rows : nat; n_cols : nat; base : buf; off : nat }.

Definition n_elem (m : mat) : nat := (n_rows m * n_cols m)%nat.

(** [arma::cube]: [c_slices] matrices of shape [c_rows] x [c_cols], one after
    the other. *)
Record cube :=
  Cube { c_rows : nat; c_cols : nat; c_slices : nat; c_base : buf; c_off : nat }.

Definition cube_n_elem (q : cube) : nat := (c_rows q * c_cols q * c_slices q)%nat.

(** [arma::mat(ptr, r, c, false, false)] and the cube analogue: a header over
    existing storage, [d] elements past the first element of [m]. *)
Definition alias (m : mat) (d r c : nat) : mat := Mat r c (base m) (off m + d).
Definition alias_cube (m : mat) (d r c s : nat) : cube :=
  Cube r c s (base m) (off m + d).

(** The value of a matrix expression (what Armadillo's expression templates
    evaluate to before anything is stored). *)
Record val := Val { rows : nat; cols : nat; get : nat -> nat -> R }.

(** The [k]-th element of a value in storage order. *)
Definition linear (v : val) (k : nat) : R :=
  get v (k mod rows v) (k / rows v).

Fixpoint sum (n : nat) (f : nat -> R) : R :=
  match n with
  | O => 0
  | S k => sum k f + f k
  end.

(** [m(k)] / [m[k]] and [m(r, c)]. *)
Definition el (h : heap) (m : mat) (k : nat) : R := h (base m) (off m + k)%nat.
Definition at_ (h : heap) (m : mat) (r c : nat) : R :=
  h (base m) (off m + (r + c * n_rows m))%nat.

Definition load (h : heap) (m : mat) : val :=
  Val (n_rows m) (n_cols m) (fun r c => at_ h m r c).

(** [q.slice(i)] *)
Definition slice (h : heap) (q : cube) (i : nat) : val :=
  Val (c_rows q) (c_cols q)
      (fun r c => h (c_base q) (c_off q + (r + c * c_rows q + i * (c_rows q * c_cols q)))%nat).

(** [v.col(j)] *)
Definition col (v : val) (j : nat) : val :=
  Val (rows v) 1 (fun r c => get v r (j + c)).

(** [v.t()] *)
Definition trans (v : val) : val :=
  Val (cols v) (rows v) (fun r c => get v c r).

(** [a * b] for matrices. *)
Definition mul (a b : val) : val :=
  Val (rows a) (cols b) (fun r c => sum (cols a) (fun k => get a r k * get b k c)).

(** [s * v] and [v * s] for a scalar [s]. *)
Definition scale (s : R) (v : val) : val :=
  Val (rows v) (cols v) (fun r c => s * get v r c).
Definition vscale (v : val) (s : R) : val :=
  Val (rows v) (cols v) (fun r c => get v r c * s).

(** [arma::diagmat(v)] for a column vector [v]. *)
Definition diagmat (v : val) : val :=
  Val (rows v) (rows v) (fun r c => if Nat.eqb r c then get v r 0%nat else 0).

Definition Rnonzero (x : R) : bool := if Req_dec_T x 0 then false else true.
Definition Rltb (x y : R) : bool := if Rlt_dec x y then true else false.

(** [d.i()] for a diagonal matrix [d] (every use in the policy is
    [diagmat(..).i()]): the reciprocals on the diagonal; Armadillo reports
    a singular matrix when a diagonal entry is zero. *)
Definition inv (d : val) : option val :=
  if forallb (fun k => Rnonzero (get d k k)) (seq 0 (rows d))
  then Some (Val (rows d) (cols d) (fun r c => if Nat.eqb r c then / get d r r else 0))
  else None.

(** [arma::as_scalar(v)] *)
Definition as_scalar (v : val) : R := get v 0%nat 0%nat.

(** [arma::norm(v)] for a vector: the Euclidean norm. *)
Definition norm (v : val) : R :=
  sqrt (sum (rows v * cols v) (fun k => linear v k * linear v k)).

(** Storing [n] reals [f 0 .. f (n-1)] from position [start] of allocation [b]. *)
Definition store_block (h : heap) (b : buf) (start n : nat) (f : nat -> R) : heap :=
  fun b' k =>
    if buf_eqb b' b && Nat.leb start k && Nat.ltb k (start + n)
    then f (k - start)%nat
    else h b' k.

Definition store_el (h : heap) (b : buf) (k : nat) (x : R) : heap :=
  fun b' k' => if buf_eqb b' b && Nat.eqb k' k then x else h b' k'.

End Arma.
Export Arma.

Infix "**" := mul (at level 40, left associativity).

(* ================================================================== *)
(** * The functions the policy takes from the rest of mlpack            *)
(* ================================================================== *)

(** [LogisticFunction::Fn], [SoftplusFunction::Fn], [math::RandBernoulli] and
    [math::RandNormal] live outside the policy's sources, so the policy is
    stated over any implementation of them.  [Rng] is the state of the random
    generator; [uninit] is what freshly acquired storage happens to hold. *)
Class Env := {
  Rng : Type;
  RandBernoulli : R -> Rng -> R * Rng;
  RandNormal : R -> R -> Rng -> R * Rng;
  LogisticFn : R -> R;
  SoftplusFn : R -> R;
  uninit : buf -> nat -> R
}.

(** Modelled from the spec: an implementation of the four functions, which
    are not part of the sources, to run the model on concrete inputs.  The
    generator replays a tape of raw draws.  [RandBernoulli p] succeeds (1)
    when the uniform raw draw is below [p] and fails (0) otherwise;
    [RandNormal mean variance] is the Gaussian draw
    [mean + sqrt variance * z] for the standard normal raw draw [z];
    [LogisticFn] and [SoftplusFn] are the logistic and softplus functions;
    fresh storage holds the given garbage. *)
Definition tape_env (garbage : R) : Env := {|
  Rng := list R;
  RandBernoulli := fun p t => (if Rlt_dec (hd 0 t) p then 1 else 0, tl t);
  RandNormal := fun mean variance t => (mean + sqrt variance * hd 0 t, tl t);
  LogisticFn := fun x => 1 / (1 + exp (- x));
  SoftplusFn := fun x => ln (1 + exp x);
  uninit := fun _ _ => garbage
|}.

(* ================================================================== *)
(** * The monad of the policy's operations                              *)
(* ================================================================== *)

Section Monad.
Context {E : Env}.

Record state := State { heap_of : heap; rng_of : Rng }.

Definition M (A : Type) : Type := state -> option (A * state).

Definition ret {A} (a : A) : M A := fun s => Some (a, s).

Definition bind {A B} (c : M A) (k : A -> M B) : M B :=
  fun s => match c s with
           | Some (a, s') => k a s'
           | None => None
           end.

Definition fail {A} : M A := fun _ => None.

(** C's [assert]. *)
Definition assert (b : bool) : M unit := if b then ret tt else fail.

(** Evaluating an expression over the current storage. *)
Definition eval {A} (f : heap -> A) : M A := fun s => Some (f (heap_of s), s).

Definition eval_opt {A} (f : heap -> option A) : M A :=
  fun s => match f (heap_of s) with
           | Some a => Some (a, s)
           | None => None
           end.

Definition modify (f : heap -> heap) : M unit :=
  fun s => Some (tt, State (f (heap_of s)) (rng_of s)).

Definition rand_bernoulli (p : R) : M R :=
  fun s => let (x, g) := RandBernoulli p (rng_of s) in Some (x, State (heap_of s) g).

Definition rand_normal (mean variance : R) : M R :=
  fun s => let (x, g) := RandNormal mean variance (rng_of s) in
           Some (x, State (heap_of s) g).

(** [for (size_t i = 0; i < n; i++) body(i)], started at [i]; [a] stands
    for the local variables the body updates. *)
Fixpoint for_from {A} (i n : nat) (body : nat -> A -> M A) (a : A) : M A :=
  match n with
  | O => ret a
  | S n' => bind (body i a) (fun a' => for_from (S i) n' body a')
  end.

Definition for_acc {A} (n : nat) (body : nat -> A -> M A) (a : A) : M A :=
  for_from 0 n body a.

Definition for_ (n : nat) (body : nat -> M unit) : M unit :=
  for_acc n (fun i _ => body i) tt.

(** [m(k) = x] *)
Definition write (m : mat) (k : nat) (x : R) : M unit :=
  modify (fun h => store_el h (base m) (off m + k) x).

(** [m(k)] *)
Definition read (m : mat) (k : nat) : M R := eval (fun h => el h m k).

(** [m(r, c) = x] and [m(r, c)] *)
Definition write_at (m : mat) (r c : nat) (x : R) : M unit :=
  modify (fun h => store_el h (base m) (off m + (r + c * n_rows m)) x).
Definition read_at (m : mat) (r c : nat) : M R := eval (fun h => at_ h m r c).

(** [m = e] for an expression of the shape of [m]. *)
Definition assign (m : mat) (e : val) : M unit :=
  modify (fun h => store_block h (base m) (off m) (n_elem m) (linear e)).

(** [m += e] *)
Definition plus_assign (m : mat) (e : val) : M unit :=
  modify (fun h => store_block h (base m) (off m) (n_elem m)
                     (fun k => el h m k + linear e k)).

(** [m.col(j) = e] *)
Definition assign_col (m : mat) (j : nat) (e : val) : M unit :=
  modify (fun h => store_block h (base m) (off m + j * n_rows m) (n_rows m) (linear e)).

(** [q.slice(i) = e] *)
Definition assign_slice (q : cube) (i : nat) (e : val) : M unit :=
  modify (fun h => store_block h (c_base q) (c_off q + i * (c_rows q * c_cols q))
                     (c_rows q * c_cols q) (linear e)).

(** [m.set_size(r, c)]: the storage is kept when the number of elements does
    not change; otherwise the matrix gets fresh storage, which is not
    initialised. *)
Definition set_size (m : mat) (r c : nat) : M mat :=
  if Nat.eqb (n_elem m) (r * c)
  then ret (Mat r c (base m) (off m))
  else bind (modify (fun h b k => if buf_eqb b (base m) then uninit b k else h b k))
            (fun _ => ret (Mat r c (base m) 0)).

End Monad.

Notation "x <- c ;; k" := (bind c (fun x => k))
  (at level 61, c at next level, right associativity).
Notation "c ;;; k" := (bind c (fun _ => k))
  (at level 61, right associativity).

(* ================================================================== *)
(** * The policy                                                        *)
(* ================================================================== *)

(** The data members of [SpikeSlabRBMPolicy].  The sizes, [radius] and the
    headers live in the object; the elements of the matrices live in the
    heap. *)
Record SpikeSlabRBMPolicy := Policy {
  visibleSize : nat;
  hiddenSize : nat;
  poolSize : nat;
  slabPenalty : mat;
  radius : R;
  parameter : mat;
  weight : cube;
  spikeBias : mat;
  visiblePenalty : mat;
  spikeMean : mat;
  spikeSamples : mat;
  slabMean : mat
}.

Definition numMaxTrials : nat := 10.

Section Policy.
Context {E : Env}.

(** The constructor.  [slabPenaltyArg] is the caller's matrix, copied into
    the member; the three views start out empty. *)
Definition Construct (visibleSize hiddenSize poolSize : nat)
    (slabPenaltyArg : mat) (radius : R) : M SpikeSlabRBMPolicy :=
  modify (fun h => store_block h SlabPenaltyMem 0 (n_elem slabPenaltyArg)
                     (fun k => el h slabPenaltyArg k)) ;;;
  let slabPenalty :=
    Mat (n_rows slabPenaltyArg) (n_cols slabPenaltyArg) SlabPenaltyMem 0 in
  parameter <- set_size (Mat 0 0 ParameterMem 0)
                 (visibleSize * hiddenSize * poolSize + visibleSize + hiddenSize) 1 ;;
  assert (Nat.eqb (n_rows slabPenalty) poolSize) ;;;
  assert (Nat.eqb (n_cols slabPenalty) hiddenSize) ;;;
  spikeMean <- set_size (Mat 0 0 SpikeMeanMem 0) hiddenSize 1 ;;
  spikeSamples <- set_size (Mat 0 0 SpikeSamplesMem 0) hiddenSize 1 ;;
  slabMean <- set_size (Mat 0 0 SlabMeanMem 0) poolSize hiddenSize ;;
  ret (Policy visibleSize hiddenSize poolSize slabPenalty radius parameter
         (Cube 0 0 0 ParameterMem 0) (Mat 0 0 ParameterMem 0)
         (Mat 0 0 ParameterMem 0) spikeMean spikeSamples slabMean).

Definition Reset (p : SpikeSlabRBMPolicy) : SpikeSlabRBMPolicy :=
  let weight :=
    alias_cube (parameter p) 0 (visibleSize p) (poolSize p) (hiddenSize p) in
  let spikeBias := alias (parameter p) (cube_n_elem weight) (hiddenSize p) 1 in
  let visiblePenalty :=
    alias (parameter p) (cube_n_elem weight + n_elem spikeBias) (visibleSize p) 1 in
  Policy (visibleSize p) (hiddenSize p) (poolSize p) (slabPenalty p) (radius p)
    (parameter p) weight spikeBias visiblePenalty
    (spikeMean p) (spikeSamples p) (slabMean p).

Definition FreeEnergy (p : SpikeSlabRBMPolicy) (input : mat) : M R :=
  assert (Nat.eqb (n_rows input) (visibleSize p)) ;;;
  assert (Nat.eqb (n_cols input) 1) ;;;
  q <- eval (fun h => as_scalar (trans (load h input) **
                       diagmat (load h (visiblePenalty p)) ** load h input)) ;;
  let freeEnergy := 0.5 * q in
  freeEnergy <- for_acc (hiddenSize p) (fun i freeEnergy =>
      for_acc (poolSize p) (fun k freeEnergy =>
          sp <- eval (fun h => at_ h (slabPenalty p) k i) ;;
          ret (freeEnergy - 0.5 * ln (2 * PI / sp)))
        freeEnergy)
    freeEnergy ;;
  for_acc (hiddenSize p) (fun i freeEnergy =>
      sum <- for_acc (poolSize p) (fun k sum =>
          t <- eval (fun h =>
                 as_scalar (trans (load h input) ** col (slice h (weight p) i) k) *
                 as_scalar (trans (load h input) ** col (slice h (weight p) i) k) /
                 (2 * at_ h (slabPenalty p) k i)) ;;
          ret (sum + t))
        0 ;;
      b <- read (spikeBias p) i ;;
      ret (freeEnergy - SoftplusFn (b + sum)))
    freeEnergy.

Definition Evaluate (p : SpikeSlabRBMPolicy) (predictors : mat) (i : nat) : M R :=
  ret 0.

(** The right-hand side of the assignment in the loop of [SpikeMean]. *)
Definition SpikeMean_rhs (p : SpikeSlabRBMPolicy) (visible : mat) (i : nat)
    (h : heap) : option R :=
  match inv (diagmat (col (load h (slabPenalty p)) i)) with
  | Some d =>
      Some (LogisticFn (0.5 * as_scalar (trans (load h visible) **
              slice h (weight p) i ** d **
              trans (slice h (weight p) i) ** load h visible)
            + el h (spikeBias p) i))
  | None => None
  end.

Definition SpikeMean (p : SpikeSlabRBMPolicy) (visible spikeMean : mat) : M unit :=
  assert (Nat.eqb (n_rows visible) (visibleSize p)) ;;;
  assert (Nat.eqb (n_cols visible) 1) ;;;
  assert (Nat.eqb (n_rows spikeMean) (hiddenSize p)) ;;;
  assert (Nat.eqb (n_cols spikeMean) 1) ;;;
  for_ (hiddenSize p) (fun i =>
    x <- eval_opt (SpikeMean_rhs p visible i) ;;
    write spikeMean i x).

Definition SampleSpike (p : SpikeSlabRBMPolicy) (spikeMean spike : mat) : M unit :=
  assert (Nat.eqb (n_rows spikeMean) (hiddenSize p)) ;;;
  assert (Nat.eqb (n_cols spikeMean) 1) ;;;
  assert (Nat.eqb (n_rows spike) (hiddenSize p)) ;;;
  assert (Nat.eqb (n_cols spike) 1) ;;;
  for_ (hiddenSize p) (fun i =>
    m <- read spikeMean i ;;
    x <- rand_bernoulli m ;;
    write spike i x).

(** The right-hand side of the assignment in the loop of [SlabMean]. *)
Definition SlabMean_rhs (p : SpikeSlabRBMPolicy) (visible spike : mat) (i : nat)
    (h : heap) : option val :=
  match inv (diagmat (col (load h (slabPenalty p)) i)) with
  | Some d =>
      Some (scale (el h spike i) d ** trans (slice h (weight p) i) **
            load h visible)
  | None => None
  end.

Definition SlabMean (p : SpikeSlabRBMPolicy) (visible spike slabMean : mat)
    : M unit :=
  assert (Nat.eqb (n_rows visible) (visibleSize p)) ;;;
  assert (Nat.eqb (n_cols visible) 1) ;;;
  assert (Nat.eqb (n_rows spike) (hiddenSize p)) ;;;
  assert (Nat.eqb (n_cols spike) 1) ;;;
  assert (Nat.eqb (n_rows slabMean) (poolSize p)) ;;;
  assert (Nat.eqb (n_cols slabMean) (hiddenSize p)) ;;;
  assert (Nat.eqb (c_rows (weight p)) (visibleSize p)) ;;;
  assert (Nat.eqb (c_cols (weight p)) (poolSize p)) ;;;
  assert (Nat.eqb (n_rows (slabPenalty p)) (poolSize p)) ;;;
  assert (Nat.eqb (n_cols (slabPenalty p)) (hiddenSize p)) ;;;
  for_ (hiddenSize p) (fun i =>
    e <- eval_opt (SlabMean_rhs p visible spike i) ;;
    assign_col slabMean i e).

(** The three gradient views of [PositivePhase] (its first three statements). *)
Definition PositivePhase_views (p : SpikeSlabRBMPolicy) (gradient : mat)
    : cube * mat * mat :=
  let weightGrad :=
    alias_cube gradient 0 (visibleSize p) (poolSize p) (hiddenSize p) in
  let spikeBiasGrad := alias gradient (cube_n_elem weightGrad) (hiddenSize p) 1 in
  let visiblePenaltyGrad :=
    alias gradient (cube_n_elem weightGrad + n_elem spikeBiasGrad) (visibleSize p) 1 in
  (weightGrad, spikeBiasGrad, visiblePenaltyGrad).

Definition PositivePhase (p : SpikeSlabRBMPolicy) (input gradient : mat) : M unit :=
  let '(weightGrad, spikeBiasGrad, visiblePenaltyGrad) :=
    PositivePhase_views p gradient in
  SpikeMean p input (spikeMean p) ;;;
  SampleSpike p (spikeMean p) (spikeSamples p) ;;;
  SlabMean p input (spikeSamples p) (slabMean p) ;;;
  for_ (hiddenSize p) (fun i =>
    e <- eval (fun h => vscale (load h input ** trans (col (load h (slabMean p)) i))
                          (el h (spikeMean p) i)) ;;
    assign_slice weightGrad i e) ;;;
  for_ (hiddenSize p) (fun i =>
    m <- read (spikeMean p) i ;;
    write spikeBiasGrad i m) ;;;
  for_ (visibleSize p) (fun i =>
    x <- read input i ;;
    write visiblePenaltyGrad i (- 0.5 * x * x)).

(** The three gradient views of [NegativePhase]. *)
Definition NegativePhase_views (p : SpikeSlabRBMPolicy) (gradient : mat)
    : cube * mat * mat :=
  let weightGrad :=
    alias_cube gradient 0 (visibleSize p) (poolSize p) (hiddenSize p) in
  let spikeBiasGrad := alias gradient (cube_n_elem weightGrad) (hiddenSize p) 1 in
  let visiblePenaltyGrad :=
    alias gradient (cube_n_elem weightGrad + n_elem spikeBiasGrad) (visibleSize p) 1 in
  (weightGrad, spikeBiasGrad, visiblePenaltyGrad).

Definition NegativePhase (p : SpikeSlabRBMPolicy) (negativeSamples gradient : mat)
    : M unit :=
  let '(weightGrad, spikeBiasGrad, visiblePenaltyGrad) :=
    NegativePhase_views p gradient in
  SpikeMean p negativeSamples (spikeMean p) ;;;
  SampleSpike p (spikeMean p) (spikeSamples p) ;;;
  SlabMean p negativeSamples (spikeSamples p) (slabMean p) ;;;
  for_ (hiddenSize p) (fun i =>
    e <- eval (fun h => vscale (load h negativeSamples **
                                trans (col (load h (slabMean p)) i))
                          (el h (spikeMean p) i)) ;;
    assign_slice weightGrad i e) ;;;
  for_ (hiddenSize p) (fun i =>
    m <- read (spikeMean p) i ;;
    write spikeBiasGrad i m) ;;;
  for_ (visibleSize p) (fun i =>
    x <- read negativeSamples i ;;
    write visiblePenaltyGrad i (- 0.5 * x * x)).

Definition SampleSlab (p : SpikeSlabRBMPolicy) (slabMean slab : mat) : M unit :=
  assert (Nat.eqb (n_rows slabMean) (poolSize p)) ;;;
  assert (Nat.eqb (n_cols slabMean) (hiddenSize p)) ;;;
  assert (Nat.eqb (n_rows slab) (poolSize p)) ;;;
  assert (Nat.eqb (n_cols slab) (hiddenSize p)) ;;;
  assert (Nat.eqb (n_rows (slabPenalty p)) (poolSize p)) ;;;
  assert (Nat.eqb (n_cols (slabPenalty p)) (hiddenSize p)) ;;;
  for_ (hiddenSize p) (fun i =>
    for_ (poolSize p) (fun j =>
      sp <- read_at (slabPenalty p) j i ;;
      assert (Rltb 0 sp) ;;;
      m <- read_at slabMean j i ;;
      x <- rand_normal m (1 / sp) ;;
      write_at slab j i x)).

(** [VisibleMean] resizes the caller's [output]; the header it ends with is
    returned. *)
Definition VisibleMean (p : SpikeSlabRBMPolicy) (input output : mat) : M mat :=
  assert (Nat.eqb (n_elem input) (hiddenSize p + poolSize p * hiddenSize p)) ;;;
  output <- set_size output (visibleSize p) 1 ;;
  let spike := alias input 0 (hiddenSize p) 1 in
  let slab := alias input (hiddenSize p) (poolSize p) (hiddenSize p) in
  for_ (hiddenSize p) (fun i =>
    e <- eval (fun h => vscale (slice h (weight p) i ** col (load h slab) i)
                          (el h spike i)) ;;
    plus_assign output e) ;;;
  e <- eval_opt (fun h =>
         match inv (diagmat (load h (visiblePenalty p))) with
         | Some d => Some (d ** load h output)
         | None => None
         end) ;;
  assign output e ;;;
  ret output.

Definition HiddenMean (p : SpikeSlabRBMPolicy) (input output : mat) : M mat :=
  assert (Nat.eqb (n_elem input) (visibleSize p)) ;;;
  output <- set_size output (hiddenSize p + poolSize p * hiddenSize p) 1 ;;
  let spike := alias output 0 (hiddenSize p) 1 in
  let slab := alias output (hiddenSize p) (poolSize p) (hiddenSize p) in
  SpikeMean p input spike ;;;
  SampleSpike p spike (spikeSamples p) ;;;
  SlabMean p input (spikeSamples p) slab ;;;
  ret output.

(** One pass of the inner loop of [SampleVisible]: every visible unit is
    drawn once. *)
Definition SampleVisible_draw (p : SpikeSlabRBMPolicy) (output : mat) : M unit :=
  for_ (visibleSize p) (fun i =>
    vp <- read (visiblePenalty p) i ;;
    assert (Rltb 0 vp) ;;;
    m <- read output i ;;
    x <- rand_normal m (1 / vp) ;;
    write output i x).

(** The outer loop of [SampleVisible] with [n] trials left; leaving the
    recursion is the [break]. *)
Fixpoint SampleVisible_trials (p : SpikeSlabRBMPolicy) (output : mat) (n : nat)
    : M unit :=
  match n with
  | O => ret tt
  | S n' =>
      SampleVisible_draw p output ;;;
      nrm <- eval (fun h => norm (load h output)) ;;
      if Rltb nrm (radius p) then ret tt
      else SampleVisible_trials p output n'
  end.

Definition SampleVisible (p : SpikeSlabRBMPolicy) (input output : mat) : M mat :=
  output <- VisibleMean p input output ;;
  SampleVisible_trials p output numMaxTrials ;;;
  ret output.

Definition SampleHidden (p : SpikeSlabRBMPolicy) (input output : mat) : M mat :=
  assert (Nat.eqb (n_elem input) (visibleSize p)) ;;;
  output <- set_size output (hiddenSize p + poolSize p * hiddenSize p) 1 ;;
  let spike := alias output 0 (hiddenSize p) 1 in
  let slab := alias output (hiddenSize p) (poolSize p) (hiddenSize p) in
  SpikeMean p input spike ;;;
  SampleSpike p spike spike ;;;
  SlabMean p input spike slab ;;;
  SampleSlab p slab slab ;;;
  ret output.

End Policy.

(* ================================================================== *)
(** * Vocabulary of the specifications                                  *)
(* ================================================================== *)

(** The headers of an instance that went through the constructor and
    [Reset]. *)
Record well_formed (p : SpikeSlabRBMPolicy) : Prop := WellFormed {
  wf_slabPenalty :
    slabPenalty p = Mat (poolSize p) (hiddenSize p) SlabPenaltyMem 0;
  wf_weight :
    weight p = Cube (visibleSize p) (poolSize p) (hiddenSize p) ParameterMem 0;
  wf_spikeBias :
    spikeBias p = Mat (hiddenSize p) 1 ParameterMem
                    (visibleSize p * poolSize p * hiddenSize p);
  wf_visiblePenalty :
    visiblePenalty p = Mat (visibleSize p) 1 ParameterMem
                         (visibleSize p * poolSize p * hiddenSize p + hiddenSize p);
  wf_spikeMean : spikeMean p = Mat (hiddenSize p) 1 SpikeMeanMem 0;
  wf_spikeSamples : spikeSamples p = Mat (hiddenSize p) 1 SpikeSamplesMem 0;
  wf_slabMean : slabMean p = Mat (poolSize p) (hiddenSize p) SlabMeanMem 0
}.

(** No slab precision is zero. *)
Definition slab_nonzero (p : SpikeSlabRBMPolicy) (h : heap) : Prop :=
  forall k i, (k < poolSize p)%nat -> (i < hiddenSize p)%nat ->
    at_ h (slabPenalty p) k i <> 0.

(** Every visible precision is positive. *)
Definition visible_positive (p : SpikeSlabRBMPolicy) (h : heap) : Prop :=
  forall i, (i < visibleSize p)%nat -> 0 < el h (visiblePenalty p) i.

(** The closed form of the slab mean that [SlabMean] computes for pool
    member [c] of hidden unit [i]. *)
Definition SlabMean_value (p : SpikeSlabRBMPolicy) (h : heap)
    (visible spike : mat) (c i : nat) : R :=
  el h spike i * / at_ h (slabPenalty p) c i *
  sum (visibleSize p) (fun r => get (slice h (weight p) i) r c * at_ h visible r 0).

(** Every slab precision is positive. *)
Definition slab_positive (p : SpikeSlabRBMPolicy) (h : heap) : Prop :=
  forall k i, (k < poolSize p)%nat -> (i < hiddenSize p)%nat ->
    0 < at_ h (slabPenalty p) k i.

(** [visible^T * weight[i][:,k]], the projection of the visible vector on
    the weights of pool member [k] of hidden unit [i]. *)
Definition projection (p : SpikeSlabRBMPolicy) (h : heap) (visible : mat)
    (i k : nat) : R :=
  sum (visibleSize p) (fun r => at_ h visible r 0 * get (slice h (weight p) i) r k).

(** The activation of hidden unit [i]:
    [spikeBias(i) + sum_k (visible^T * weight[i][:,k])^2 / (2 * slabPenalty(k,i))]. *)
Definition activation (p : SpikeSlabRBMPolicy) (h : heap) (visible : mat)
    (i : nat) : R :=
  el h (spikeBias p) i +
  sum (poolSize p) (fun k =>
    projection p h visible i k * projection p h visible i k /
    (2 * at_ h (slabPenalty p) k i)).

(** Two headers never clobber each other's unread cells in an element-wise
    loop: they live in different allocations, or start at the same cell. *)
Definition elementwise_safe (src dst : mat) : Prop :=
  base dst <> base src \/ off dst = off src.

(** No visible precision is zero. *)
Definition visible_nonzero (p : SpikeSlabRBMPolicy) (h : heap) : Prop :=
  forall i, (i < visibleSize p)%nat -> el h (visiblePenalty p) i <> 0.

(** The closed form of [FreeEnergy]: half the precision-weighted square of
    the visible vector, minus the slab normalisation terms, minus the
    softplus of every hidden unit's activation. *)
Definition FreeEnergy_value {E : Env} (p : SpikeSlabRBMPolicy) (h : heap)
    (visible : mat) : R :=
  0.5 * sum (visibleSize p) (fun r =>
          at_ h visible r 0 * el h (visiblePenalty p) r * at_ h visible r 0)
  - sum (hiddenSize p) (fun i =>
      sum (poolSize p) (fun k => 0.5 * ln (2 * PI / at_ h (slabPenalty p) k i)))
  - sum (hiddenSize p) (fun i => SoftplusFn (activation p h visible i)).

(** The hidden vector [input] of [VisibleMean] seen as its two parts. *)
Definition spike_part (p : SpikeSlabRBMPolicy) (input : mat) : mat :=
  alias input 0 (hiddenSize p) 1.
Definition slab_part (p : SpikeSlabRBMPolicy) (input : mat) : mat :=
  alias input (hiddenSize p) (poolSize p) (hiddenSize p).

(** Entry [k] of [weight[i] * slab[:,i] * spike[i]]. *)
Definition VisibleMean_term (p : SpikeSlabRBMPolicy) (h : heap) (input : mat)
    (k i : nat) : R :=
  sum (poolSize p) (fun c =>
    get (slice h (weight p) i) k c * at_ h (slab_part p input) c i)
  * el h (spike_part p input) i.

(** Entry [k] of [diag(visiblePenalty)^-1 * sum_i weight[i] * slab[:,i] * spike[i]]. *)
Definition VisibleMean_value (p : SpikeSlabRBMPolicy) (h : heap) (input : mat)
    (k : nat) : R :=
  / el h (visiblePenalty p) k *
  sum (hiddenSize p) (fun i => VisibleMean_term p h input k i).

(** [j] passes of the inner loop of [SampleVisible] in a row, with no test
    in between. *)
Fixpoint SampleVisible_draws {E : Env} (p : SpikeSlabRBMPolicy) (output : mat)
    (j : nat) : M unit :=
  match j with
  | O => ret tt
  | S k => SampleVisible_draw p output ;;; SampleVisible_draws p output k
  end.

(** A matrix handed in by the caller, stored in the caller's allocation [k]. *)
Definition caller_mat (m : mat) (k : nat) : Prop := base m = CallerMem k.

(** [h'] differs from [h] at most in the cells [lo .. hi-1] of allocation [b]. *)
Definition same_except (b : buf) (lo hi : nat) (h h' : heap) : Prop :=
  (forall b', b' <> b -> h' b' = h b') /\
  (forall k, (k < lo \/ hi <= k)%nat -> h' b k = h b k).

(** The state of the generator after the first [n] draws of a loop whose
    [i]-th draw is [draw i]. *)
Fixpoint rng_after {G : Type} (draw : nat -> G -> R * G) (n : nat) (g : G) : G :=
  match n with
  | O => g
  | S k => snd (draw k (rng_after draw k g))
  end.

(** The value of the [i]-th draw of such a loop. *)
Definition drawn {G : Type} (draw : nat -> G -> R * G) (i : nat) (g : G) : R :=
  fst (draw i (rng_after draw i g)).

(** A view [first .. first+count-1] of allocation [b] covers the offsets
    [lo .. hi-1] of the matrix [m]. *)
Definition occupies (b : buf) (first count : nat) (m : mat) (lo hi : nat) : Prop :=
  b = base m /\ first = (off m + lo)%nat /\ (first + count)%nat = (off m + hi)%nat.

(** ** Concrete instances, to run the operations on *)

(** The instance the constructor and [Reset] build for the given sizes. *)
Definition demo_policy (V H P : nat) (radius : R) : SpikeSlabRBMPolicy :=
  Reset (Policy V H P (Mat P H SlabPenaltyMem 0) radius
           (Mat (V * H * P + V + H) 1 ParameterMem 0)
           (Cube 0 0 0 ParameterMem 0) (Mat 0 0 ParameterMem 0)
           (Mat 0 0 ParameterMem 0)
           (Mat H 1 SpikeMeanMem 0) (Mat H 1 SpikeSamplesMem 0)
           (Mat P H SlabMeanMem 0)).

(** The instance the constructor builds, before [Reset]: the three views
    are still empty. *)
Definition fresh_policy (V H P : nat) (radius : R) : SpikeSlabRBMPolicy :=
  Policy V H P (Mat P H SlabPenaltyMem 0) radius
    (Mat (V * H * P + V + H) 1 ParameterMem 0)
    (Cube 0 0 0 ParameterMem 0) (Mat 0 0 ParameterMem 0)
    (Mat 0 0 ParameterMem 0)
    (Mat H 1 SpikeMeanMem 0) (Mat H 1 SpikeSamplesMem 0)
    (Mat P H SlabMeanMem 0).

(** Storage holding the given parameter buffer, slab precisions and two
    caller matrices (allocations 0 and 1); everything else holds zeros. *)
Definition demo_heap (parameter slabPenalty arg0 arg1 : list R) : heap :=
  fun b k =>
    match b with
    | ParameterMem => nth k parameter 0
    | SlabPenaltyMem => nth k slabPenalty 0
    | CallerMem 0 => nth k arg0 0
    | CallerMem 1 => nth k arg1 0
    | _ => 0
    end.

(* ================================================================== *)
(** * Storage and loop lemmas                                           *)
(* ================================================================== *)

Lemma buf_eqb_refl (b : buf) : buf_eqb b b = true.
Proof. destruct b; simpl; auto using Nat.eqb_refl. Qed.

Lemma buf_eqb_eq (a b : buf) : buf_eqb a b = true <-> a = b.
Proof.
  split.
  - destruct a, b; simpl; intros H; try discriminate; try reflexivity.
    apply Nat.eqb_eq in H. now subst.
  - intros ->. apply buf_eqb_refl.
Qed.

Lemma buf_eqb_neq (a b : buf) : a <> b -> buf_eqb a b = false.
Proof.
  intros H. destruct (buf_eqb a b) eqn:Hab; auto.
  apply buf_eqb_eq in Hab. contradiction.
Qed.

Lemma store_el_same (h : heap) b k x : store_el h b k x b k = x.
Proof. unfold store_el. now rewrite buf_eqb_refl, Nat.eqb_refl. Qed.

Lemma store_el_other_buf (h : heap) b k x b' :
  b' <> b -> store_el h b k x b' = h b'.
Proof. intros H. unfold store_el. now rewrite (buf_eqb_neq _ _ H). Qed.

Lemma store_el_other (h : heap) b k x k' :
  k' <> k -> store_el h b k x b k' = h b k'.
Proof.
  intros H. unfold store_el. apply Nat.eqb_neq in H. rewrite H.
  now rewrite andb_false_r.
Qed.

Lemma store_block_in (h : heap) b start n f k :
  (start <= k < start + n)%nat -> store_block h b start n f b k = f (k - start)%nat.
Proof.
  intros [H1 H2]. unfold store_block.
  apply Nat.leb_le in H1. apply Nat.ltb_lt in H2.
  now rewrite buf_eqb_refl, H1, H2.
Qed.

Lemma store_block_out (h : heap) b start n f k :
  (k < start \/ start + n <= k)%nat -> store_block h b start n f b k = h b k.
Proof.
  intros H. unfold store_block.
  destruct (Nat.leb start k) eqn:H1, (Nat.ltb k (start + n)) eqn:H2;
    rewrite ?andb_false_r; auto.
  apply Nat.leb_le in H1. apply Nat.ltb_lt in H2. lia.
Qed.

Lemma store_block_other_buf (h : heap) b start n f b' :
  b' <> b -> store_block h b start n f b' = h b'.
Proof. intros H. unfold store_block. now rewrite (buf_eqb_neq _ _ H). Qed.

Lemma sum_ext n (f g : nat -> R) :
  (forall k, (k < n)%nat -> f k = g k) -> sum n f = sum n g.
Proof.
  induction n as [|n IH]; intros H; simpl; auto.
  rewrite IH, H; auto.
Qed.

Lemma sum_zero n (f : nat -> R) :
  (forall k, (k < n)%nat -> f k = 0) -> sum n f = 0.
Proof.
  induction n as [|n IH]; intros H; simpl; auto.
  rewrite IH, H; auto. lra.
Qed.

Lemma sum_scale n (a : R) (f : nat -> R) :
  a * sum n f = sum n (fun k => a * f k).
Proof. induction n as [|n IH]; simpl; [lra|]. rewrite <- IH. lra. Qed.

Lemma sum_scale_r n (a : R) (f : nat -> R) :
  sum n f * a = sum n (fun k => f k * a).
Proof. induction n as [|n IH]; simpl; [lra|]. rewrite <- IH. lra. Qed.

Lemma sum_plus n (f g : nat -> R) :
  sum n (fun k => f k + g k) = sum n f + sum n g.
Proof. induction n as [|n IH]; simpl; [lra|]. rewrite IH. lra. Qed.

(** Two nested sums can be taken in either order. *)
Lemma sum_swap n m (f : nat -> nat -> R) :
  sum n (fun i => sum m (fun j => f i j)) = sum m (fun j => sum n (fun i => f i j)).
Proof.
  induction n as [|n IH]; simpl.
  - symmetry. apply sum_zero. auto.
  - rewrite IH. symmetry. apply sum_plus.
Qed.

(** A sum with a single non-zero term. *)
Lemma sum_single n c (f : nat -> R) :
  (c < n)%nat -> (forall j, (j < n)%nat -> j <> c -> f j = 0) -> sum n f = f c.
Proof.
  induction n as [|n IH]; intros Hc H; [lia|]. simpl.
  destruct (Nat.eq_dec c n) as [->|Hne].
  - rewrite sum_zero; [lra|]. intros k Hk. apply H; lia.
  - rewrite IH; [|lia|intros j Hj Hjc; apply H; lia].
    rewrite (H n); [lra|lia|auto].
Qed.

Lemma Rltb_true x y : x < y -> Rltb x y = true.
Proof. intros H. unfold Rltb. destruct (Rlt_dec x y); [reflexivity|contradiction]. Qed.

Lemma Rltb_false x y : ~ x < y -> Rltb x y = false.
Proof. intros H. unfold Rltb. destruct (Rlt_dec x y); [contradiction|reflexivity]. Qed.

Lemma Rnonzero_true x : x <> 0 -> Rnonzero x = true.
Proof. intros H. unfold Rnonzero. destruct (Req_dec_T x 0); [contradiction|reflexivity]. Qed.

(** A diagonal matrix with no zero on its diagonal has an inverse. *)
Lemma inv_diagmat (v : val) :
  (forall k, (k < rows v)%nat -> get v k 0%nat <> 0) ->
  exists d, inv (diagmat v) = Some d /\ rows d = rows v /\ cols d = rows v /\
            forall r c, get d r c = if Nat.eqb r c then / get v r 0%nat else 0.
Proof.
  intros H. unfold inv.
  assert (Hall : forallb (fun k => Rnonzero (get (diagmat v) k k))
                   (seq 0 (rows (diagmat v))) = true).
  { apply forallb_forall. intros k Hk. apply in_seq in Hk. simpl in *.
    rewrite Nat.eqb_refl. apply Rnonzero_true, H. lia. }
  rewrite Hall. eexists. split; [reflexivity|]. simpl. repeat split; auto.
  intros r c. now rewrite Nat.eqb_refl.
Qed.

(** The generator state after [n] draws, and the value of draw [i], only
    depend on the draws made so far. *)
Lemma rng_after_ext {G : Type} (draw draw' : nat -> G -> R * G) n g :
  (forall j, (j < n)%nat -> draw j = draw' j) ->
  rng_after draw n g = rng_after draw' n g.
Proof.
  induction n as [|n IH]; intros H; simpl; auto.
  rewrite IH, H; auto.
Qed.

Lemma drawn_ext {G : Type} (draw draw' : nat -> G -> R * G) i g :
  (forall j, (j <= i)%nat -> draw j = draw' j) ->
  drawn draw i g = drawn draw' i g.
Proof.
  intros H. unfold drawn. rewrite (rng_after_ext draw draw'), H; auto.
  intros j Hj. apply H. lia.
Qed.

Section Loops.
Context {E : Env}.

(** The invariant rule for counted loops: a body that keeps [I] and never
    fails makes the loop run to its end with [I] at the final index. *)
Lemma for_from_inv {A} (I : nat -> A -> state -> Prop) (body : nat -> A -> M A) n :
  forall i a s,
    I i a s ->
    (forall k a s, (i <= k < i + n)%nat -> I k a s ->
       exists a' s', body k a s = Some (a', s') /\ I (S k) a' s') ->
    exists a' s', for_from i n body a s = Some (a', s') /\ I (i + n)%nat a' s'.
Proof.
  induction n as [|n IH]; intros i a s HI Hbody; simpl.
  - exists a, s. rewrite Nat.add_0_r. now split.
  - destruct (Hbody i a s) as (a1 & s1 & Hb & HI1); [lia|auto|].
    unfold bind. rewrite Hb.
    destruct (IH (S i) a1 s1 HI1) as (a2 & s2 & Hl & HI2).
    { intros k a' s' Hk. apply Hbody. lia. }
    exists a2, s2. split; auto. now replace (i + S n)%nat with (S i + n)%nat by lia.
Qed.

Lemma for_acc_inv {A} (I : nat -> A -> state -> Prop) (body : nat -> A -> M A) n a s :
  I 0%nat a s ->
  (forall k a s, (k < n)%nat -> I k a s ->
     exists a' s', body k a s = Some (a', s') /\ I (S k) a' s') ->
  exists a' s', for_acc n body a s = Some (a', s') /\ I n a' s'.
Proof.
  intros H0 Hbody. unfold for_acc.
  destruct (for_from_inv I body n 0 a s H0) as (a' & s' & H1 & H2).
  - intros k a1 s1 Hk. apply Hbody. lia.
  - exists a', s'. now split.
Qed.

Lemma for_inv (I : nat -> state -> Prop) (body : nat -> M unit) n s :
  I 0%nat s ->
  (forall k s, (k < n)%nat -> I k s -> exists s', body k s = Some (tt, s') /\ I (S k) s') ->
  exists s', for_ n body s = Some (tt, s') /\ I n s'.
Proof.
  intros H0 Hbody. unfold for_.
  destruct (for_acc_inv (fun k _ s => I k s) (fun i _ => body i) n tt s H0)
    as ([] & s' & H1 & H2).
  - intros k [] s1 Hk HI. destruct (Hbody k s1 Hk HI) as (s2 & Hb & HI2).
    exists tt, s2. now split.
  - exists s'. now split.
Qed.

End Loops.

(* ================================================================== *)
(** * Evaluate, and the two gradient phases as one procedure            *)
(* ================================================================== *)

(** C9. [Evaluate] returns 0 for every predictors matrix and every index,
    whatever the parameters and the state of the model are, and changes
    nothing. *)
Theorem Evaluate_zero {E : Env} (p : SpikeSlabRBMPolicy) (predictors : mat)
    (i : nat) (s : state) :
  Evaluate p predictors i s = Some (0, s).
Proof. reflexivity. Qed.

(** C7. [PositivePhase] and [NegativePhase] are one procedure: on the same
    visible vector, the same gradient buffer, the same instance and the same
    state of storage and random generator they fail together or end in the
    same state, gradient buffer included. *)
Theorem PositivePhase_NegativePhase {E : Env} (p : SpikeSlabRBMPolicy)
    (visible gradient : mat) (s : state) :
  PositivePhase p visible gradient s = NegativePhase p visible gradient s.
Proof. reflexivity. Qed.

(* ================================================================== *)
(** * Parameter layout                                                  *)
(* ================================================================== *)

Lemma set_size_spec {E : Env} (m : mat) (r c : nat) (s : state) :
  exists s',
    set_size m r c s =
      Some (Mat r c (base m) (if Nat.eqb (n_elem m) (r * c) then off m else 0%nat), s') /\
    rng_of s' = rng_of s /\
    (forall b, b <> base m -> heap_of s' b = heap_of s b) /\
    (n_elem m = (r * c)%nat -> s' = s) /\
    (n_elem m <> (r * c)%nat -> heap_of s' (base m) = uninit (base m)).
Proof.
  unfold set_size. destruct (Nat.eqb (n_elem m) (r * c)) eqn:Hn.
  - exists s. apply Nat.eqb_eq in Hn. repeat split; auto. intros; contradiction.
  - eexists. split; [reflexivity|]. apply Nat.eqb_neq in Hn. simpl.
    repeat split; auto.
    + intros b Hb. now rewrite (buf_eqb_neq _ _ Hb).
    + intros; contradiction.
    + intros _. now rewrite buf_eqb_refl.
Qed.

(** What the constructor followed by [Reset] builds is well formed. *)
Lemma Construct_Reset_well_formed {E : Env} V H P (arg : mat) (radius : R)
    (s s' : state) (p : SpikeSlabRBMPolicy) :
  Construct V H P arg radius s = Some (p, s') ->
  well_formed (Reset p) /\
  visibleSize p = V /\ hiddenSize p = H /\ poolSize p = P /\
  n_rows arg = P /\ n_cols arg = H.
Proof.
  unfold Construct, bind at 1. unfold modify at 1.
  unfold bind at 1.
  match goal with |- context [set_size ?m ?r ?c ?s] =>
    destruct (set_size_spec m r c s) as (s1 & -> & _) end.
  unfold bind at 1, assert.
  destruct (Nat.eqb (n_rows _) P) eqn:HP; [|discriminate].
  unfold bind at 1, ret at 1.
  destruct (Nat.eqb (n_cols _) H) eqn:HH; [|discriminate].
  unfold bind at 1, ret at 1.
  match goal with |- context [set_size ?m ?r ?c ?s] =>
    destruct (set_size_spec m r c s) as (s2 & -> & _) end.
  unfold bind at 1.
  match goal with |- context [set_size ?m ?r ?c ?s] =>
    destruct (set_size_spec m r c s) as (s3 & -> & _) end.
  unfold bind at 1.
  match goal with |- context [set_size ?m ?r ?c ?s] =>
    destruct (set_size_spec m r c s) as (s4 & -> & _) end.
  unfold ret. intros Hs. inversion Hs; subst; clear Hs.
  apply Nat.eqb_eq in HP. apply Nat.eqb_eq in HH. simpl in HP, HH.
  split; [|auto].
  constructor; unfold Reset, alias, alias_cube, cube_n_elem, n_elem; simpl;
    repeat match goal with |- context [if ?b then _ else _] => destruct b end;
    f_equal; lia.
Qed.

(** The constructor followed by [Reset] builds [demo_policy]. *)
Lemma Construct_Reset_demo {E : Env} V H P (arg : mat) (radius : R)
    (s s' : state) (p : SpikeSlabRBMPolicy) :
  Construct V H P arg radius s = Some (p, s') ->
  Reset p = demo_policy V H P radius.
Proof.
  unfold Construct, bind at 1. unfold modify at 1.
  unfold bind at 1.
  match goal with |- context [set_size ?m ?r ?c ?s] =>
    destruct (set_size_spec m r c s) as (s1 & -> & _) end.
  unfold bind at 1, assert.
  destruct (Nat.eqb (n_rows _) P) eqn:HP; [|discriminate].
  unfold bind at 1, ret at 1.
  destruct (Nat.eqb (n_cols _) H) eqn:HH; [|discriminate].
  unfold bind at 1, ret at 1.
  match goal with |- context [set_size ?m ?r ?c ?s] =>
    destruct (set_size_spec m r c s) as (s2 & -> & _) end.
  unfold bind at 1.
  match goal with |- context [set_size ?m ?r ?c ?s] =>
    destruct (set_size_spec m r c s) as (s3 & -> & _) end.
  unfold bind at 1.
  match goal with |- context [set_size ?m ?r ?c ?s] =>
    destruct (set_size_spec m r c s) as (s4 & -> & _) end.
  unfold ret. intros Hs. inversion Hs; subst; clear Hs.
  apply Nat.eqb_eq in HP. apply Nat.eqb_eq in HH. simpl in HP, HH.
  unfold demo_policy, Reset. simpl. rewrite HP, HH.
  repeat match goal with |- context [if ?b then _ else _] => destruct b end;
    reflexivity.
Qed.

(** C6. After [Reset] the weight, spike-bias and visible-precision views lie
    in the parameter buffer at offsets [0, VPH), [VPH, VPH+H) and
    [VPH+H, VPH+H+V), with shapes V x P x H, H x 1 and V x 1; the gradient
    views of [PositivePhase] and of [NegativePhase] lie in the gradient
    buffer at the same offsets with the same shapes.  (The gradients the two
    phases store through these views are in [PositivePhase_spec] and
    [NegativePhase_spec].) *)
Theorem Reset_layout (p : SpikeSlabRBMPolicy) (gradient : mat) :
  let V := visibleSize p in
  let H := hiddenSize p in
  let P := poolSize p in
  let n := (V * P * H)%nat in
  let q := Reset p in
  let layout (m : mat) (w : cube) (b v : mat) :=
    occupies (c_base w) (c_off w) (cube_n_elem w) m 0 n /\
    (c_rows w, c_cols w, c_slices w) = (V, P, H) /\
    occupies (base b) (off b) (n_elem b) m n (n + H) /\
    (n_rows b, n_cols b) = (H, 1%nat) /\
    occupies (base v) (off v) (n_elem v) m (n + H) (n + H + V) /\
    (n_rows v, n_cols v) = (V, 1%nat) in
  parameter q = parameter p /\
  layout (parameter p) (weight q) (spikeBias q) (visiblePenalty q) /\
  (let '(w, b, v) := PositivePhase_views q gradient in layout gradient w b v) /\
  (let '(w, b, v) := NegativePhase_views q gradient in layout gradient w b v).
Proof.
  unfold occupies, PositivePhase_views, NegativePhase_views, Reset, alias,
    alias_cube, cube_n_elem, n_elem; simpl.
  repeat split; lia.
Qed.

(* ================================================================== *)
(** * The concrete instances                                            *)
(* ================================================================== *)

Lemma demo_well_formed (V H P : nat) (radius : R) :
  well_formed (demo_policy V H P radius).
Proof.
  constructor; unfold demo_policy, Reset, alias, alias_cube, cube_n_elem, n_elem;
    simpl; f_equal; lia.
Qed.

(** Any slab precisions that are all 1 are non-zero. *)
Lemma demo_slab_nonzero (V H P : nat) (radius : R) (parameter arg0 arg1 : list R)
    (ones : list R) :
  (forall k, (k < P * H)%nat -> nth k ones 0 = 1) ->
  slab_nonzero (demo_policy V H P radius) (demo_heap parameter ones arg0 arg1).
Proof.
  intros Hones k i Hk Hi. unfold at_, demo_policy, demo_heap. simpl.
  rewrite Hones; [lra|]. simpl in Hk, Hi. nia.
Qed.

(** The logistic function of the replay instance stays strictly between 0
    and 1. *)
Lemma tape_logistic_range (g x : R) :
  0 < @LogisticFn (tape_env g) x < 1.
Proof.
  simpl. pose proof (exp_pos (- x)) as He.
  split.
  - apply Rdiv_lt_0_compat; lra.
  - apply Rmult_lt_reg_r with (1 + exp (- x)); [lra|].
    unfold Rdiv. rewrite Rmult_assoc, Rinv_l by lra. lra.
Qed.


(* ================================================================== *)
(** * Inference: SpikeMean, SampleSpike, SlabMean                       *)
(* ================================================================== *)

Section MonadSteps.
Context {E : Env}.

Lemma bind_Some {A B} (c : M A) (k : A -> M B) s a s1 :
  c s = Some (a, s1) -> bind c k s = k a s1.
Proof. intros H. unfold bind. now rewrite H. Qed.

Lemma assert_eqb (a b : nat) s : a = b -> assert (Nat.eqb a b) s = Some (tt, s).
Proof. intros ->. now rewrite Nat.eqb_refl. Qed.

Lemma same_except_store_el b lo hi (h h1 : heap) k x :
  same_except b lo hi h h1 -> (lo <= k < hi)%nat ->
  same_except b lo hi h (store_el h1 b k x).
Proof.
  intros [H1 H2] Hk. split.
  - intros b' Hb. rewrite store_el_other_buf; auto.
  - intros k' Hk'. rewrite store_el_other; [auto | lia].
Qed.

Lemma same_except_store_block b lo hi (h h1 : heap) start n f :
  same_except b lo hi h h1 -> (lo <= start)%nat -> (start + n <= hi)%nat ->
  same_except b lo hi h (store_block h1 b start n f).
Proof.
  intros [H1 H2] Hlo Hhi. split.
  - intros b' Hb. rewrite store_block_other_buf; auto.
  - intros k' Hk'. rewrite store_block_out; [auto | lia].
Qed.

End MonadSteps.

Section Inference.
Context {E : Env}.
Variable p : SpikeSlabRBMPolicy.
Hypothesis WF : well_formed p.

(** The spike mean of a unit reads the parameters, the slab precisions and
    the visible vector, and nothing else. *)
Lemma SpikeMean_rhs_frame (visible : mat) (i : nat) (h h' : heap) :
  h' ParameterMem = h ParameterMem ->
  h' SlabPenaltyMem = h SlabPenaltyMem ->
  h' (base visible) = h (base visible) ->
  SpikeMean_rhs p visible i h' = SpikeMean_rhs p visible i h.
Proof.
  intros H1 H2 H3.
  unfold SpikeMean_rhs, inv, diagmat, col, load, at_, slice, el, mul, trans, as_scalar.
  rewrite (wf_slabPenalty p WF), (wf_weight p WF), (wf_spikeBias p WF). simpl.
  now rewrite H1, H2, H3.
Qed.

Lemma slab_nonzero_col (h : heap) (i : nat) :
  slab_nonzero p h -> (i < hiddenSize p)%nat ->
  forall k, (k < rows (col (load h (slabPenalty p)) i))%nat ->
    get (col (load h (slabPenalty p)) i) k 0%nat <> 0.
Proof.
  intros Hnz Hi k Hk. simpl in *. rewrite Nat.add_0_r. apply Hnz; auto.
  now rewrite (wf_slabPenalty p WF) in Hk.
Qed.

Lemma SpikeMean_rhs_defined (visible : mat) (i : nat) (h : heap) :
  slab_nonzero p h -> (i < hiddenSize p)%nat ->
  exists x, SpikeMean_rhs p visible i h = Some x.
Proof.
  intros Hnz Hi. unfold SpikeMean_rhs.
  destruct (inv_diagmat _ (slab_nonzero_col h i Hnz Hi)) as (d & -> & _).
  eexists. reflexivity.
Qed.

Lemma SpikeMean_spec (visible dst : mat) (s : state) :
  n_rows visible = visibleSize p -> n_cols visible = 1%nat ->
  n_rows dst = hiddenSize p -> n_cols dst = 1%nat ->
  base dst <> ParameterMem -> base dst <> SlabPenaltyMem ->
  base dst <> base visible ->
  slab_nonzero p (heap_of s) ->
  exists s',
    SpikeMean p visible dst s = Some (tt, s') /\
    rng_of s' = rng_of s /\
    same_except (base dst) (off dst) (off dst + hiddenSize p) (heap_of s) (heap_of s') /\
    forall i, (i < hiddenSize p)%nat ->
      SpikeMean_rhs p visible i (heap_of s) = Some (el (heap_of s') dst i).
Proof.
  intros Hvr Hvc Hdr Hdc Hb1 Hb2 Hb3 Hnz. unfold SpikeMean.
  repeat (erewrite bind_Some; [|apply assert_eqb; assumption]).
  apply (for_inv (fun k s1 =>
    rng_of s1 = rng_of s /\
    same_except (base dst) (off dst) (off dst + hiddenSize p) (heap_of s) (heap_of s1) /\
    forall i, (i < k)%nat ->
      SpikeMean_rhs p visible i (heap_of s) = Some (el (heap_of s1) dst i))).
  - repeat split; auto. intros i Hi. lia.
  - intros k s1 Hk (Hrng & Hfr & Hval).
    destruct (SpikeMean_rhs_defined visible k (heap_of s) Hnz Hk) as (x & Hx).
    assert (Hx1 : SpikeMean_rhs p visible k (heap_of s1) = Some x).
    { rewrite <- Hx. destruct Hfr as [Hfr _].
      apply SpikeMean_rhs_frame; apply Hfr; auto. }
    eexists. split.
    + unfold bind, eval_opt. rewrite Hx1. reflexivity.
    + simpl. split; [auto|]. split.
      * apply same_except_store_el; auto. lia.
      * intros i Hi. unfold el.
        destruct (Nat.eq_dec i k) as [->|Hne].
        -- now rewrite store_el_same.
        -- rewrite store_el_other by lia. apply Hval. lia.
Qed.

Lemma SampleSpike_spec (src dst : mat) (s : state) :
  n_rows src = hiddenSize p -> n_cols src = 1%nat ->
  n_rows dst = hiddenSize p -> n_cols dst = 1%nat ->
  base dst <> base src ->
  let draw := fun i => RandBernoulli (el (heap_of s) src i) in
  exists s',
    SampleSpike p src dst s = Some (tt, s') /\
    rng_of s' = rng_after draw (hiddenSize p) (rng_of s) /\
    same_except (base dst) (off dst) (off dst + hiddenSize p) (heap_of s) (heap_of s') /\
    forall i, (i < hiddenSize p)%nat -> el (heap_of s') dst i = drawn draw i (rng_of s).
Proof.
  intros Hsr Hsc Hdr Hdc Hb draw. unfold SampleSpike.
  repeat (erewrite bind_Some; [|apply assert_eqb; assumption]).
  apply (for_inv (fun k s1 =>
    rng_of s1 = rng_after draw k (rng_of s) /\
    same_except (base dst) (off dst) (off dst + hiddenSize p) (heap_of s) (heap_of s1) /\
    forall i, (i < k)%nat -> el (heap_of s1) dst i = drawn draw i (rng_of s))).
  - repeat split; auto. intros i Hi. lia.
  - intros k s1 Hk (Hrng & Hfr & Hval).
    assert (Hsrc : el (heap_of s1) src k = el (heap_of s) src k).
    { unfold el. destruct Hfr as [Hfr _]. rewrite Hfr; auto. }
    unfold bind, read, eval, rand_bernoulli, write, modify. rewrite Hsrc, Hrng.
    fold (draw k). destruct (draw k (rng_after draw k (rng_of s))) as [x g] eqn:Hd.
    eexists. split; [reflexivity|]. simpl. split; [|split].
    + now rewrite Hd.
    + apply same_except_store_el; auto. lia.
    + intros i Hi. unfold el.
      destruct (Nat.eq_dec i k) as [->|Hne].
      * rewrite store_el_same. unfold drawn. now rewrite Hd.
      * rewrite store_el_other by lia. apply Hval. lia.
Qed.

(** The slab mean of a unit reads the parameters, the slab precisions, the
    visible vector and the spike vector, and nothing else. *)
Lemma SlabMean_rhs_frame (visible spike : mat) (i : nat) (h h' : heap) :
  h' ParameterMem = h ParameterMem ->
  h' SlabPenaltyMem = h SlabPenaltyMem ->
  h' (base visible) = h (base visible) ->
  h' (base spike) = h (base spike) ->
  SlabMean_rhs p visible spike i h' = SlabMean_rhs p visible spike i h.
Proof.
  intros H1 H2 H3 H4.
  unfold SlabMean_rhs, inv, diagmat, col, load, at_, slice, el, mul, scale, trans.
  rewrite (wf_slabPenalty p WF), (wf_weight p WF). simpl.
  now rewrite H1, H2, H3, H4.
Qed.

(** The closed form of what [SlabMean] stores: entry [c] of column [i] is
    [spike(i) / slabPenalty(c,i) * sum_r weight(r,c,i) * visible(r)]. *)
Lemma SlabMean_rhs_value (visible spike : mat) (i : nat) (h : heap) :
  slab_nonzero p h -> (i < hiddenSize p)%nat ->
  exists e,
    SlabMean_rhs p visible spike i h = Some e /\
    rows e = poolSize p /\
    forall c, (c < poolSize p)%nat ->
      get e c 0%nat = SlabMean_value p h visible spike c i.
Proof.
  intros Hnz Hi. unfold SlabMean_rhs.
  destruct (inv_diagmat _ (slab_nonzero_col h i Hnz Hi)) as (d & -> & Hr & Hc & Hd).
  simpl in Hr, Hc, Hd. rewrite (wf_slabPenalty p WF) in Hr, Hc. simpl in Hr, Hc.
  eexists. split; [reflexivity|]. split; [exact Hr|].
  intros c Hcp. unfold SlabMean_value. simpl.
  rewrite (wf_weight p WF), Hc. simpl.
  rewrite sum_scale. apply sum_ext. intros r Hrv.
  rewrite (sum_single _ c); auto.
  - rewrite Hd, Nat.eqb_refl, Nat.add_0_r. lra.
  - intros j Hj Hne. rewrite Hd. apply Nat.eqb_neq in Hne.
    rewrite Nat.eqb_sym, Hne. lra.
Qed.

Lemma SlabMean_spec (visible spike dst : mat) (s : state) :
  n_rows visible = visibleSize p -> n_cols visible = 1%nat ->
  n_rows spike = hiddenSize p -> n_cols spike = 1%nat ->
  n_rows dst = poolSize p -> n_cols dst = hiddenSize p ->
  base dst <> ParameterMem -> base dst <> SlabPenaltyMem ->
  base dst <> base visible -> base dst <> base spike ->
  slab_nonzero p (heap_of s) ->
  exists s',
    SlabMean p visible spike dst s = Some (tt, s') /\
    rng_of s' = rng_of s /\
    same_except (base dst) (off dst) (off dst + poolSize p * hiddenSize p)
      (heap_of s) (heap_of s') /\
    forall i c, (i < hiddenSize p)%nat -> (c < poolSize p)%nat ->
      at_ (heap_of s') dst c i = SlabMean_value p (heap_of s) visible spike c i.
Proof.
  intros Hvr Hvc Hsr Hsc Hdr Hdc Hb1 Hb2 Hb3 Hb4 Hnz. unfold SlabMean.
  assert (Hw1 : c_rows (weight p) = visibleSize p) by now rewrite (wf_weight p WF).
  assert (Hw2 : c_cols (weight p) = poolSize p) by now rewrite (wf_weight p WF).
  assert (Hp1 : n_rows (slabPenalty p) = poolSize p)
    by now rewrite (wf_slabPenalty p WF).
  assert (Hp2 : n_cols (slabPenalty p) = hiddenSize p)
    by now rewrite (wf_slabPenalty p WF).
  repeat (erewrite bind_Some; [|apply assert_eqb; assumption]).
  apply (for_inv (fun k s1 =>
    rng_of s1 = rng_of s /\
    same_except (base dst) (off dst) (off dst + poolSize p * hiddenSize p)
      (heap_of s) (heap_of s1) /\
    forall i c, (i < k)%nat -> (c < poolSize p)%nat ->
      at_ (heap_of s1) dst c i = SlabMean_value p (heap_of s) visible spike c i)).
  - repeat split; auto. intros i c Hi. lia.
  - intros k s1 Hk (Hrng & Hfr & Hval).
    destruct (SlabMean_rhs_value visible spike k (heap_of s) Hnz Hk)
      as (e & He & Hrows & Hget).
    assert (He1 : SlabMean_rhs p visible spike k (heap_of s1) = Some e).
    { rewrite <- He. destruct Hfr as [Hfr _].
      apply SlabMean_rhs_frame; apply Hfr; auto. }
    eexists. split.
    + unfold bind, eval_opt. rewrite He1. reflexivity.
    + simpl. split; [auto|]. rewrite Hdr.
      assert (Hkp : (k * poolSize p + poolSize p <= poolSize p * hiddenSize p)%nat) by nia.
      split.
      * apply same_except_store_block; auto; lia.
      * intros i c Hi Hc. unfold at_. rewrite Hdr.
        destruct (Nat.eq_dec i k) as [->|Hne].
        -- rewrite store_block_in by lia.
           replace (off dst + (c + k * poolSize p) - (off dst + k * poolSize p))%nat
             with c by lia.
           unfold linear. rewrite Hrows, Nat.mod_small, Nat.div_small by lia.
           now apply Hget.
        -- assert (i * poolSize p + poolSize p <= k * poolSize p)%nat by nia.
           rewrite store_block_out by lia.
           specialize (Hval i c). unfold at_ in Hval. rewrite Hdr in Hval.
           apply Hval; auto. lia.
Qed.

Lemma slab_nonzero_frame (h h' : heap) :
  h' SlabPenaltyMem = h SlabPenaltyMem -> slab_nonzero p h -> slab_nonzero p h'.
Proof.
  intros Hs Hnz k i Hk Hi. specialize (Hnz k i Hk Hi).
  unfold at_ in *. rewrite (wf_slabPenalty p WF) in *. simpl in *. now rewrite Hs.
Qed.

Lemma SlabMean_value_frame (visible spike : mat) (c i : nat) (h h' : heap) :
  h' ParameterMem = h ParameterMem ->
  h' SlabPenaltyMem = h SlabPenaltyMem ->
  h' (base visible) = h (base visible) ->
  h' (base spike) = h (base spike) ->
  SlabMean_value p h' visible spike c i = SlabMean_value p h visible spike c i.
Proof.
  intros H1 H2 H3 H4. unfold SlabMean_value, at_, el, slice.
  rewrite (wf_slabPenalty p WF), (wf_weight p WF). simpl.
  now rewrite H1, H2, H3, H4.
Qed.

End Inference.

(** ** The sparsity of the slab mean *)

(** C8. Whatever the visible vector and the spike vector hold, column [i] of
    the matrix [SlabMean] produces is zero in every entry whenever
    [spike(i)] is 0.  ([SlabMean] runs to its end when the shapes are the
    asserted ones, no slab precision is zero, and the result is stored apart
    from the operands.) *)
Theorem SlabMean_zero_column {E : Env} (p : SpikeSlabRBMPolicy)
    (visible spike slabMean : mat) (s : state) (i : nat) :
  well_formed p ->
  n_rows visible = visibleSize p -> n_cols visible = 1%nat ->
  n_rows spike = hiddenSize p -> n_cols spike = 1%nat ->
  n_rows slabMean = poolSize p -> n_cols slabMean = hiddenSize p ->
  base slabMean <> ParameterMem -> base slabMean <> SlabPenaltyMem ->
  base slabMean <> base visible -> base slabMean <> base spike ->
  slab_nonzero p (heap_of s) ->
  (i < hiddenSize p)%nat ->
  el (heap_of s) spike i = 0 ->
  exists s',
    SlabMean p visible spike slabMean s = Some (tt, s') /\
    forall c, (c < poolSize p)%nat -> at_ (heap_of s') slabMean c i = 0.
Proof.
  intros WF Hvr Hvc Hsr Hsc Hdr Hdc Hb1 Hb2 Hb3 Hb4 Hnz Hi Hz.
  destruct (SlabMean_spec p WF visible spike slabMean s)
    as (s' & Hrun & _ & _ & Hval); auto.
  exists s'. split; [exact Hrun|].
  intros c Hc. rewrite Hval by auto. unfold SlabMean_value. rewrite Hz. lra.
Qed.

Lemma SlabMean_zero_column_witness :
  let E := tape_env 0 in
  let p := demo_policy 2 2 1 10 in
  let visible := Mat 2 1 (CallerMem 0) 0 in
  let spike := Mat 2 1 (CallerMem 1) 0 in
  let s := @State E (demo_heap [3; 4; 5; 6; 0; 0; 1; 1] [1; 1] [7; 8] [0; 1]) [] in
  exists s',
    SlabMean p visible spike (slabMean p) s = Some (tt, s') /\
    forall c, (c < 1)%nat -> at_ (heap_of s') (slabMean p) c 0 = 0.
Proof.
  apply (@SlabMean_zero_column (tape_env 0) (demo_policy 2 2 1 10)
           (Mat 2 1 (CallerMem 0) 0) (Mat 2 1 (CallerMem 1) 0)).
  - apply demo_well_formed.
  - reflexivity.
  - reflexivity.
  - reflexivity.
  - reflexivity.
  - reflexivity.
  - reflexivity.
  - discriminate.
  - discriminate.
  - discriminate.
  - discriminate.
  - apply demo_slab_nonzero. intros k Hk. simpl in Hk.
    destruct k as [|[|k]]; [reflexivity | reflexivity | lia].
  - simpl. lia.
  - reflexivity.
Defined.

(** ** HiddenMean *)

Section Hidden.
Context {E : Env}.
Variable p : SpikeSlabRBMPolicy.
Hypothesis WF : well_formed p.

Lemma HiddenMean_spec (input output : mat) (a b : nat) (s : state) :
  n_rows input = visibleSize p -> n_cols input = 1%nat ->
  caller_mat input a -> caller_mat output b -> a <> b ->
  slab_nonzero p (heap_of s) ->
  let H := hiddenSize p in
  let P := poolSize p in
  exists out s',
    HiddenMean p input output s = Some (out, s') /\
    (n_rows out, n_cols out, base out) = ((H + P * H)%nat, 1%nat, base output) /\
    let h' := heap_of s' in
    let draw := fun i => RandBernoulli (el h' out i) in
    (forall i, (i < H)%nat ->
       SpikeMean_rhs p input i (heap_of s) = Some (el h' out i)) /\
    rng_of s' = rng_after draw H (rng_of s) /\
    (forall i, (i < H)%nat -> el h' (spikeSamples p) i = drawn draw i (rng_of s)) /\
    (forall i c, (i < H)%nat -> (c < P)%nat ->
       el h' out (H + (c + i * P)) =
       SlabMean_value p h' input (spikeSamples p) c i) /\
    (forall b', b' <> SpikeSamplesMem -> b' <> base output -> h' b' = heap_of s b').
Proof.
  intros Hir Hic Ha Hb Hab Hnz H P. unfold caller_mat in Ha, Hb.
  pose proof (wf_spikeSamples p WF) as Ess.
  unfold HiddenMean.
  erewrite bind_Some; [|apply assert_eqb; unfold n_elem; rewrite Hir, Hic; lia].
  destruct (set_size_spec output (hiddenSize p + poolSize p * hiddenSize p) 1 s)
    as (s0 & R0 & G0 & F0 & _).
  rewrite (bind_Some _ _ _ _ _ R0).
  set (out := Mat (hiddenSize p + poolSize p * hiddenSize p) 1 (base output) _) in *.
  assert (Hob : base out = CallerMem b) by exact Hb.
  rewrite Hb in F0.
  assert (Hnz0 : slab_nonzero p (heap_of s0)).
  { apply (slab_nonzero_frame p WF (heap_of s)); auto. apply F0. discriminate. }
  (* SpikeMean into the first H entries *)
  destruct (SpikeMean_spec p WF input (alias out 0 (hiddenSize p) 1) s0)
    as (s1 & R1 & G1 & F1 & V1); auto;
    try (simpl; rewrite Hb; try discriminate; rewrite Ha; congruence).
  rewrite (bind_Some _ _ _ _ _ R1).
  (* SampleSpike into the scratch buffer *)
  destruct (SampleSpike_spec p (alias out 0 (hiddenSize p) 1) (spikeSamples p) s1)
    as (s2 & R2 & G2 & F2 & V2); auto;
    try (rewrite Ess; simpl; try reflexivity; rewrite Hb; discriminate).
  rewrite (bind_Some _ _ _ _ _ R2).
  (* SlabMean into the remaining entries *)
  destruct F1 as [F1 F1']. destruct F2 as [F2 F2'].
  simpl in F1, F1'. rewrite Ess in F2, F2'. simpl in F2, F2'. rewrite Hb in F1.
  assert (Hnz2 : slab_nonzero p (heap_of s2)).
  { apply (slab_nonzero_frame p WF (heap_of s0)); auto.
    rewrite F2, F1; auto; discriminate. }
  destruct (SlabMean_spec p WF input (spikeSamples p)
              (alias out (hiddenSize p) (poolSize p) (hiddenSize p)) s2)
    as (s3 & R3 & G3 & F3 & V3); auto;
    try (rewrite Ess; reflexivity);
    try (simpl; rewrite Hb; try discriminate; rewrite ?Ha, ?Ess; simpl; congruence).
  rewrite (bind_Some _ _ _ _ _ R3). destruct F3 as [F3 F3'].
  simpl in F3, F3'. rewrite Hb in F3.
  exists out, s3. split; [reflexivity|]. split; [reflexivity|]. cbv zeta.
  assert (Hmean : forall i, (i < hiddenSize p)%nat ->
            el (heap_of s3) out i = el (heap_of s1) (alias out 0 (hiddenSize p) 1) i).
  { intros i Hi. unfold el. simpl. rewrite F3' by lia.
    rewrite (F2 (base output)) by (rewrite Hb; discriminate).
    f_equal. lia. }
  assert (FR2 : forall b', b' <> base output -> heap_of s3 b' = heap_of s2 b').
  { intros b' Nb. rewrite Hb in Nb. now apply F3. }
  split; [|split; [|split; [|split]]].
  - intros i Hi. rewrite Hmean by auto. rewrite <- V1 by auto.
    symmetry. apply SpikeMean_rhs_frame; auto; apply F0; rewrite ?Ha;
      try discriminate. congruence.
  - rewrite G3, G2, G1, G0. apply rng_after_ext.
    intros j Hj. now rewrite Hmean.
  - intros i Hi. fold H in Hi.
    rewrite (drawn_ext _ (fun i => RandBernoulli
               (el (heap_of s1) (alias out 0 (hiddenSize p) 1) i))).
    + rewrite <- G0, <- G1, <- V2 by auto. unfold el. rewrite Ess. simpl.
      now rewrite F3 by discriminate.
    + intros j Hj. rewrite Hmean; auto. unfold H in Hi. lia.
  - intros i c Hi Hc.
    rewrite (SlabMean_value_frame p WF input (spikeSamples p) c i (heap_of s2));
      try (apply FR2; rewrite ?Ha, ?Hb, ?Ess; simpl; try discriminate; congruence).
    rewrite <- V3 by auto. unfold el, at_. simpl. f_equal. lia.
  - intros b' N1 N2. rewrite Hb in N2. rewrite F3, F2, F1, F0; auto.
Qed.

End Hidden.

(** C10. The first [hiddenSize] entries of the output of [HiddenMean] are the
    spike means: the values the loop of [SpikeMean] computes from the
    parameters and the input, with no draw involved.  The Bernoulli sample
    drawn from those means is written to the scratch buffer [spikeSamples]
    and to no cell of the output; the remaining entries of the output are
    the slab means given that sample. *)
Theorem HiddenMean_output {E : Env} (p : SpikeSlabRBMPolicy)
    (input output : mat) (a b : nat) (s : state) :
  well_formed p ->
  n_rows input = visibleSize p -> n_cols input = 1%nat ->
  caller_mat input a -> caller_mat output b -> a <> b ->
  slab_nonzero p (heap_of s) ->
  let H := hiddenSize p in
  let P := poolSize p in
  exists out s',
    HiddenMean p input output s = Some (out, s') /\
    (n_rows out, n_cols out, base out) = ((H + P * H)%nat, 1%nat, base output) /\
    let h' := heap_of s' in
    let draw := fun i => RandBernoulli (el h' out i) in
    (forall i, (i < H)%nat ->
       SpikeMean_rhs p input i (heap_of s) = Some (el h' out i)) /\
    (forall i, (i < H)%nat -> el h' (spikeSamples p) i = drawn draw i (rng_of s)) /\
    (forall i c, (i < H)%nat -> (c < P)%nat ->
       el h' out (H + (c + i * P)) =
       SlabMean_value p h' input (spikeSamples p) c i) /\
    (forall b', b' <> SpikeSamplesMem -> b' <> base output -> h' b' = heap_of s b').
Proof.
  intros WF Hir Hic Ha Hb Hab Hnz H P.
  destruct (HiddenMean_spec p WF input output a b s Hir Hic Ha Hb Hab Hnz)
    as (out & s' & Hrun & Hshape & Hm & _ & Hs & Hsl & Hfr).
  exists out, s'. repeat split; auto.
Qed.

Lemma HiddenMean_output_witness :
  let E := tape_env 0 in
  let p := demo_policy 1 1 1 10 in
  let input := Mat 1 1 (CallerMem 0) 0 in
  let output := Mat 0 0 (CallerMem 1) 0 in
  let s := @State E (demo_heap [1; 0; 1] [1] [1] []) [] in
  exists out s',
    HiddenMean p input output s = Some (out, s') /\
    (n_rows out, n_cols out, base out) = (2%nat, 1%nat, CallerMem 1) /\
    let h' := heap_of s' in
    let draw := fun i => RandBernoulli (el h' out i) in
    (forall i, (i < 1)%nat ->
       SpikeMean_rhs p input i (heap_of s) = Some (el h' out i)) /\
    (forall i, (i < 1)%nat -> el h' (spikeSamples p) i = drawn draw i (rng_of s)) /\
    (forall i c, (i < 1)%nat -> (c < 1)%nat ->
       el h' out (1 + (c + i * 1)) =
       SlabMean_value p h' input (spikeSamples p) c i) /\
    (forall b', b' <> SpikeSamplesMem -> b' <> CallerMem 1 -> h' b' = heap_of s b').
Proof.
  apply (@HiddenMean_output (tape_env 0) (demo_policy 1 1 1 10)
           (Mat 1 1 (CallerMem 0) 0) (Mat 0 0 (CallerMem 1) 0) 0%nat 1%nat).
  - apply demo_well_formed.
  - reflexivity.
  - reflexivity.
  - reflexivity.
  - reflexivity.
  - discriminate.
  - apply demo_slab_nonzero. intros k Hk. simpl in Hk.
    destruct k; [reflexivity | lia].
Defined.

(* ================================================================== *)
(** * Gradient engine                                                   *)
(* ================================================================== *)

Section Gradient.
Context {E : Env}.

(** A loop that stores one computed scalar per index. *)
Lemma write_loop_spec (dst : mat) (n : nat) (f : nat -> heap -> R) (s : state) :
  (forall i h h', (forall b, b <> base dst -> h' b = h b) -> f i h' = f i h) ->
  exists s',
    for_ n (fun i => x <- eval (f i) ;; write dst i x) s = Some (tt, s') /\
    rng_of s' = rng_of s /\
    same_except (base dst) (off dst) (off dst + n) (heap_of s) (heap_of s') /\
    forall i, (i < n)%nat -> el (heap_of s') dst i = f i (heap_of s).
Proof.
  intros Hf.
  apply (for_inv (fun k s1 =>
    rng_of s1 = rng_of s /\
    same_except (base dst) (off dst) (off dst + n) (heap_of s) (heap_of s1) /\
    forall i, (i < k)%nat -> el (heap_of s1) dst i = f i (heap_of s))).
  - repeat split; auto. intros i Hi. lia.
  - intros k s1 Hk (Hrng & Hfr & Hval).
    eexists. split; [reflexivity|]. simpl. split; [auto|]. split.
    + apply same_except_store_el; auto. lia.
    + intros i Hi. unfold el.
      destruct (Nat.eq_dec i k) as [->|Hne].
      * rewrite store_el_same. apply Hf. apply Hfr.
      * rewrite store_el_other by lia. apply Hval. lia.
Qed.

(** A loop that stores one computed matrix per slice of a cube. *)
Lemma slice_loop_spec (q : cube) (n : nat) (f : nat -> heap -> val) (s : state) :
  (forall i h h', (forall b, b <> c_base q -> h' b = h b) -> f i h' = f i h) ->
  exists s',
    for_ n (fun i => e <- eval (f i) ;; assign_slice q i e) s = Some (tt, s') /\
    rng_of s' = rng_of s /\
    same_except (c_base q) (c_off q) (c_off q + n * (c_rows q * c_cols q))
      (heap_of s) (heap_of s') /\
    forall i k, (i < n)%nat -> (k < c_rows q * c_cols q)%nat ->
      heap_of s' (c_base q) (c_off q + i * (c_rows q * c_cols q) + k)%nat
      = linear (f i (heap_of s)) k.
Proof.
  intros Hf. set (m := (c_rows q * c_cols q)%nat).
  apply (for_inv (fun j s1 =>
    rng_of s1 = rng_of s /\
    same_except (c_base q) (c_off q) (c_off q + n * m) (heap_of s) (heap_of s1) /\
    forall i k, (i < j)%nat -> (k < m)%nat ->
      heap_of s1 (c_base q) (c_off q + i * m + k)%nat = linear (f i (heap_of s)) k)).
  - repeat split; auto. intros i k Hi. lia.
  - intros j s1 Hj (Hrng & Hfr & Hval).
    eexists. split; [reflexivity|]. simpl. fold m.
    assert (Hjm : (j * m + m <= n * m)%nat) by nia.
    split; [auto|]. split.
    + apply same_except_store_block; auto; lia.
    + intros i k Hi Hk.
      destruct (Nat.eq_dec i j) as [->|Hne].
      * rewrite store_block_in by lia.
        replace (c_off q + j * m + k - (c_off q + j * m))%nat with k by lia.
        f_equal. apply Hf. apply Hfr.
      * assert (i * m + m <= j * m)%nat by nia.
        rewrite store_block_out by lia. apply Hval; auto. lia.
Qed.

Variable p : SpikeSlabRBMPolicy.
Hypothesis WF : well_formed p.

(** What one gradient phase does, step by step: the scratch buffers end up
    holding the spike means, the spike samples drawn from them and the slab
    means given those samples; the gradient buffer ends up holding the three
    gradients at the offsets of the parameter layout. *)
Lemma PositivePhase_spec (input gradient : mat) (a b : nat) (s : state) :
  n_rows input = visibleSize p -> n_cols input = 1%nat ->
  caller_mat input a -> caller_mat gradient b -> a <> b ->
  slab_nonzero p (heap_of s) ->
  let V := visibleSize p in
  let H := hiddenSize p in
  let P := poolSize p in
  let n := (V * P * H)%nat in
  exists s',
    PositivePhase p input gradient s = Some (tt, s') /\
    let h' := heap_of s' in
    let draw := fun i => RandBernoulli (el h' (spikeMean p) i) in
    (forall i, (i < H)%nat ->
       SpikeMean_rhs p input i (heap_of s) = Some (el h' (spikeMean p) i)) /\
    rng_of s' = rng_after draw H (rng_of s) /\
    (forall i, (i < H)%nat -> el h' (spikeSamples p) i = drawn draw i (rng_of s)) /\
    (forall i c, (i < H)%nat -> (c < P)%nat ->
       at_ h' (slabMean p) c i = SlabMean_value p h' input (spikeSamples p) c i) /\
    (forall i r c, (i < H)%nat -> (r < V)%nat -> (c < P)%nat ->
       h' (base gradient) (off gradient + (r + c * V + i * (V * P)))%nat =
       el h' input r * at_ h' (slabMean p) c i * el h' (spikeMean p) i) /\
    (forall i, (i < H)%nat ->
       h' (base gradient) (off gradient + n + i)%nat = el h' (spikeMean p) i) /\
    (forall i, (i < V)%nat ->
       h' (base gradient) (off gradient + n + H + i)%nat =
       - 0.5 * el h' input i * el h' input i) /\
    (forall b', b' <> SpikeMeanMem -> b' <> SpikeSamplesMem -> b' <> SlabMeanMem ->
       b' <> base gradient -> h' b' = heap_of s b').
Proof.
  intros Hir Hic Ha Hb Hab Hnz V H P n.
  unfold caller_mat in Ha, Hb.
  pose proof (wf_spikeMean p WF) as Esm.
  pose proof (wf_spikeSamples p WF) as Ess.
  pose proof (wf_slabMean p WF) as Esl.
  unfold PositivePhase, PositivePhase_views. cbv beta iota zeta.
  (* SpikeMean *)
  destruct (SpikeMean_spec p WF input (spikeMean p) s) as (s1 & R1 & G1 & F1 & V1);
    try (rewrite Esm; simpl; (reflexivity || discriminate)); auto.
  { rewrite Esm, Ha. discriminate. }
  rewrite (bind_Some _ _ _ _ _ R1).
  (* SampleSpike *)
  destruct (SampleSpike_spec p (spikeMean p) (spikeSamples p) s1)
    as (s2 & R2 & G2 & F2 & V2);
    try (rewrite ?Esm, ?Ess; simpl; (reflexivity || discriminate)).
  rewrite (bind_Some _ _ _ _ _ R2).
  (* SlabMean *)
  destruct F1 as [F1 _]. destruct F2 as [F2 _].
  assert (Hnz2 : slab_nonzero p (heap_of s2)).
  { apply (slab_nonzero_frame p WF (heap_of s)); auto.
    rewrite F2, F1; auto; rewrite ?Esm, ?Ess; discriminate. }
  destruct (SlabMean_spec p WF input (spikeSamples p) (slabMean p) s2)
    as (s3 & R3 & G3 & F3 & V3);
    try (rewrite ?Ess, ?Esl; simpl; (reflexivity || discriminate)); auto.
  { rewrite Esl, Ha. discriminate. }
  rewrite (bind_Some _ _ _ _ _ R3). destruct F3 as [F3 _].
  (* weight gradient *)
  match goal with |- context [for_ _ (fun i => e <- eval (@?f i) ;; assign_slice ?q i e)] =>
    destruct (slice_loop_spec q (hiddenSize p) f s3) as (s4 & R4 & G4 & F4 & V4) end.
  { intros i h h' Hh. simpl in Hh.
    unfold vscale, mul, load, trans, col, at_, el. rewrite Esl, Esm. simpl.
    rewrite !Hh; auto; rewrite ?Ha, Hb; try discriminate. congruence. }
  rewrite (bind_Some _ _ _ _ _ R4). destruct F4 as [F4 F4'].
  (* spike bias gradient *)
  match goal with |- context [bind (for_ _ (fun i => m <- read ?src i ;; write ?dst i m))] =>
    destruct (write_loop_spec dst (hiddenSize p) (fun i h => el h src i) s4)
      as (s5 & R5 & G5 & F5 & V5) end.
  { intros i h h' Hh. simpl in Hh. unfold el. rewrite Esm. simpl.
    rewrite Hh; auto. rewrite Hb. discriminate. }
  unfold read at 1. rewrite (bind_Some _ _ _ _ _ R5). destruct F5 as [F5 F5'].
  (* visible precision gradient *)
  match goal with |- context [for_ _ (fun i => x <- read ?src i ;; write ?dst i (@?g x))] =>
    destruct (write_loop_spec dst (visibleSize p) (fun i h => g (el h src i)) s5)
      as (s6 & R6 & G6 & F6 & V6) end.
  { intros i h h' Hh. simpl in Hh. unfold el.
    rewrite Hh; auto. rewrite Ha, Hb. congruence. }
  destruct F6 as [F6 F6'].
  simpl in F4, F4', V4, F5, F5', V5, F6, F6', V6.
  rewrite Esm in F1. rewrite Ess in F2. rewrite Esl in F3. simpl in F1, F2, F3.
  rewrite Hb in F4, F5, F6.
  exists s6. split; [exact R6|]. cbv zeta.
  (* what the later steps leave alone *)
  assert (SM : heap_of s6 SpikeMeanMem = heap_of s1 SpikeMeanMem).
  { rewrite F6, F5, F4, F3, F2; auto; discriminate. }
  assert (SS : heap_of s6 SpikeSamplesMem = heap_of s2 SpikeSamplesMem).
  { rewrite F6, F5, F4, F3; auto; discriminate. }
  assert (SL : heap_of s6 SlabMeanMem = heap_of s3 SlabMeanMem).
  { rewrite F6, F5, F4; auto; discriminate. }
  assert (FR : forall b', b' <> SpikeMeanMem -> b' <> SpikeSamplesMem ->
             b' <> SlabMeanMem -> b' <> base gradient ->
             heap_of s6 b' = heap_of s b').
  { intros b' N1 N2 N3 N4. rewrite Hb in N4.
    rewrite F6, F5, F4, F3, F2, F1; auto. }
  assert (FR2 : forall b', b' <> SpikeMeanMem -> b' <> SpikeSamplesMem ->
             b' <> SlabMeanMem -> b' <> base gradient ->
             heap_of s6 b' = heap_of s2 b').
  { intros b' N1 N2 N3 N4. rewrite Hb in N4.
    rewrite F6, F5, F4, F3; auto. }
  assert (IN : heap_of s6 (base input) = heap_of s (base input)).
  { apply FR; rewrite ?Ha, ?Hb; try discriminate. congruence. }
  assert (Esm6 : forall i, el (heap_of s6) (spikeMean p) i = el (heap_of s1) (spikeMean p) i).
  { intros i. unfold el. rewrite Esm. simpl. now rewrite SM. }
  assert (Hdraw : (fun i => RandBernoulli (el (heap_of s6) (spikeMean p) i)) =
                  (fun i => RandBernoulli (el (heap_of s1) (spikeMean p) i))).
  { unfold el. rewrite Esm. simpl. now rewrite SM. }
  rewrite Hdraw.
  split; [|split; [|split; [|split; [|split; [|split; [|split]]]]]].
  - intros i Hi. rewrite Esm6. now apply V1.
  - now rewrite G6, G5, G4, G3, G2, G1.
  - intros i Hi. rewrite <- G1, <- V2 by auto. unfold el. rewrite Ess. simpl.
    now rewrite SS.
  - intros i c Hi Hc.
    rewrite (SlabMean_value_frame p WF input (spikeSamples p) c i (heap_of s2));
      try (apply FR2; rewrite ?Ha, ?Hb; try discriminate; congruence).
    + rewrite <- V3 by auto. unfold at_. rewrite Esl. simpl. now rewrite SL.
    + rewrite Ess. simpl. now rewrite SS.
  - intros i r c Hi Hr Hc. subst V H P n.
    set (V := visibleSize p) in *. set (P := poolSize p) in *.
    set (H := hiddenSize p) in *.
    assert (Hk : (r + c * V < V * P)%nat) by nia.
    assert (Hik : (i * (V * P) + V * P <= V * P * H)%nat) by nia.
    rewrite F6' by (unfold cube_n_elem, n_elem; simpl; lia).
    rewrite F5' by (unfold cube_n_elem; simpl; lia).
    replace (off gradient + (r + c * V + i * (V * P)))%nat
      with (off gradient + 0 + i * (V * P) + (r + c * V))%nat by lia.
    rewrite V4 by auto.
    rewrite Hir. fold V.
    rewrite Nat.Div0.mod_add, Nat.mod_small by lia.
    rewrite Nat.div_add, Nat.div_small by lia. simpl.
    rewrite Hic. simpl. rewrite Nat.add_0_r.
    unfold at_, el. rewrite Esl, Esm. simpl. rewrite Nat.add_0_r.
    rewrite SM, SL, IN.
    rewrite (F3 SpikeMeanMem), (F2 SpikeMeanMem) by discriminate.
    rewrite (F3 (base input)), (F2 (base input)), (F1 (base input))
      by (rewrite Ha; discriminate).
    lra.
  - intros i Hi. subst V H P n.
    rewrite F6' by (unfold cube_n_elem, n_elem; simpl; lia).
    specialize (V5 i Hi). unfold el in V5. simpl in V5.
    unfold cube_n_elem in V5. simpl in V5.
    rewrite V5. unfold el. rewrite Esm. simpl.
    rewrite SM. rewrite (F4 SpikeMeanMem), (F3 SpikeMeanMem), (F2 SpikeMeanMem)
      by discriminate. reflexivity.
  - intros i Hi. subst V H P n.
    specialize (V6 i Hi). unfold el in V6. simpl in V6.
    unfold cube_n_elem, n_elem in V6. simpl in V6.
    replace (off gradient + visibleSize p * poolSize p * hiddenSize p +
             hiddenSize p + i)%nat
      with (off gradient +
            (visibleSize p * poolSize p * hiddenSize p + hiddenSize p * 1) + i)%nat
      by lia.
    rewrite V6. unfold el. rewrite IN.
    rewrite (F5 (base input)), (F4 (base input)), (F3 (base input)),
      (F2 (base input)), (F1 (base input))
      by (rewrite Ha; try discriminate; congruence).
    reflexivity.
  - exact FR.
Qed.

Lemma NegativePhase_spec (negativeSamples gradient : mat) (a b : nat) (s : state) :
  n_rows negativeSamples = visibleSize p -> n_cols negativeSamples = 1%nat ->
  caller_mat negativeSamples a -> caller_mat gradient b -> a <> b ->
  slab_nonzero p (heap_of s) ->
  let V := visibleSize p in
  let H := hiddenSize p in
  let P := poolSize p in
  let n := (V * P * H)%nat in
  exists s',
    NegativePhase p negativeSamples gradient s = Some (tt, s') /\
    let h' := heap_of s' in
    let draw := fun i => RandBernoulli (el h' (spikeMean p) i) in
    (forall i, (i < H)%nat ->
       SpikeMean_rhs p negativeSamples i (heap_of s) = Some (el h' (spikeMean p) i)) /\
    rng_of s' = rng_after draw H (rng_of s) /\
    (forall i, (i < H)%nat -> el h' (spikeSamples p) i = drawn draw i (rng_of s)) /\
    (forall i c, (i < H)%nat -> (c < P)%nat ->
       at_ h' (slabMean p) c i =
       SlabMean_value p h' negativeSamples (spikeSamples p) c i) /\
    (forall i r c, (i < H)%nat -> (r < V)%nat -> (c < P)%nat ->
       h' (base gradient) (off gradient + (r + c * V + i * (V * P)))%nat =
       el h' negativeSamples r * at_ h' (slabMean p) c i * el h' (spikeMean p) i) /\
    (forall i, (i < H)%nat ->
       h' (base gradient) (off gradient + n + i)%nat = el h' (spikeMean p) i) /\
    (forall i, (i < V)%nat ->
       h' (base gradient) (off gradient + n + H + i)%nat =
       - 0.5 * el h' negativeSamples i * el h' negativeSamples i) /\
    (forall b', b' <> SpikeMeanMem -> b' <> SpikeSamplesMem -> b' <> SlabMeanMem ->
       b' <> base gradient -> h' b' = heap_of s b').
Proof. exact (PositivePhase_spec negativeSamples gradient a b s). Qed.

End Gradient.


(** ** The weight gradient *)

(** C2, as the code has it.  In both phases the gradient cell (r, c) of slice
    [i] is [input(r) * slabMean(c,i) * spikeMean(i)]: the outer product of the
    input and slab-mean column [i], scaled by the spike MEAN of unit [i].
    The slab-mean column is the one computed from the sampled spike, so the
    slice is zero whenever the sampled spike of unit [i] is 0. *)
Theorem weight_gradient_slice {E : Env} (p : SpikeSlabRBMPolicy)
    (input gradient : mat) (a b : nat) (s : state) :
  well_formed p ->
  n_rows input = visibleSize p -> n_cols input = 1%nat ->
  caller_mat input a -> caller_mat gradient b -> a <> b ->
  slab_nonzero p (heap_of s) ->
  let V := visibleSize p in
  let P := poolSize p in
  let claim (phase : SpikeSlabRBMPolicy -> mat -> mat -> M unit) :=
    exists s',
      phase p input gradient s = Some (tt, s') /\
      forall i r c, (i < hiddenSize p)%nat -> (r < V)%nat -> (c < P)%nat ->
        let h' := heap_of s' in
        let cell := h' (base gradient) (off gradient + (r + c * V + i * (V * P)))%nat in
        SpikeMean_rhs p input i (heap_of s) = Some (el h' (spikeMean p) i) /\
        at_ h' (slabMean p) c i = SlabMean_value p h' input (spikeSamples p) c i /\
        cell = el h' input r * at_ h' (slabMean p) c i * el h' (spikeMean p) i /\
        (el h' (spikeSamples p) i = 0 -> cell = 0) in
  claim PositivePhase /\ claim NegativePhase.
Proof.
  intros WF Hr Hc Ha Hb Hab Hnz V P claim.
  assert (Hclaim : forall phase,
    (exists s', phase p input gradient s = Some (tt, s') /\
       (forall i, (i < hiddenSize p)%nat ->
          SpikeMean_rhs p input i (heap_of s) = Some (el (heap_of s') (spikeMean p) i)) /\
       (forall i c, (i < hiddenSize p)%nat -> (c < P)%nat ->
          at_ (heap_of s') (slabMean p) c i =
          SlabMean_value p (heap_of s') input (spikeSamples p) c i) /\
       (forall i r c, (i < hiddenSize p)%nat -> (r < V)%nat -> (c < P)%nat ->
          heap_of s' (base gradient) (off gradient + (r + c * V + i * (V * P)))%nat =
          el (heap_of s') input r * at_ (heap_of s') (slabMean p) c i *
          el (heap_of s') (spikeMean p) i)) ->
    claim phase).
  { intros phase (s' & Hrun & Hm & Hsl & Hg). exists s'. split; [exact Hrun|].
    intros i r c Hi Hrv Hcp. cbv zeta.
    repeat split; auto.
    intros Hz. rewrite Hg, Hsl by auto. unfold SlabMean_value. rewrite Hz. lra. }
  split; apply Hclaim.
  - destruct (PositivePhase_spec p WF input gradient a b s Hr Hc Ha Hb Hab Hnz)
      as (s' & Hrun & Hm & _ & _ & Hsl & Hg & _).
    exists s'. auto.
  - destruct (NegativePhase_spec p WF input gradient a b s Hr Hc Ha Hb Hab Hnz)
      as (s' & Hrun & Hm & _ & _ & Hsl & Hg & _).
    exists s'. auto.
Qed.

Lemma weight_gradient_slice_witness :
  let E := tape_env 0 in
  let p := demo_policy 1 1 1 10 in
  let input := Mat 1 1 (CallerMem 0) 0 in
  let gradient := Mat 3 1 (CallerMem 1) 0 in
  let s := @State E (demo_heap [1; 0; 1] [1] [1] [0; 0; 0]) [] in
  let claim (phase : SpikeSlabRBMPolicy -> mat -> mat -> M unit) :=
    exists s',
      phase p input gradient s = Some (tt, s') /\
      forall i r c, (i < 1)%nat -> (r < 1)%nat -> (c < 1)%nat ->
        let h' := heap_of s' in
        let cell := h' (CallerMem 1) (0 + (r + c * 1 + i * (1 * 1)))%nat in
        SpikeMean_rhs p input i (heap_of s) = Some (el h' (spikeMean p) i) /\
        at_ h' (slabMean p) c i = SlabMean_value p h' input (spikeSamples p) c i /\
        cell = el h' input r * at_ h' (slabMean p) c i * el h' (spikeMean p) i /\
        (el h' (spikeSamples p) i = 0 -> cell = 0) in
  claim PositivePhase /\ claim NegativePhase.
Proof.
  apply (@weight_gradient_slice (tape_env 0) (demo_policy 1 1 1 10)
           (Mat 1 1 (CallerMem 0) 0) (Mat 3 1 (CallerMem 1) 0) 0%nat 1%nat).
  - apply demo_well_formed.
  - reflexivity.
  - reflexivity.
  - reflexivity.
  - reflexivity.
  - discriminate.
  - apply demo_slab_nonzero. intros k Hk. simpl in Hk.
    destruct k; [reflexivity | lia].
Defined.

(** C2, as the claim states it, fails: one visible unit with input 1, one
    hidden unit, pool size 1, weight 1, slab precision 1, and a generator
    whose uniform raw draw is 0, which fires the gate.  The sampled spike is 1 and the slab mean is 1,
    so the claim asks for the gradient cell 1 * 1 * 1 = 1; the code stores
    1 * 1 * spikeMean(0), and the spike mean is below 1. *)
Lemma weight_gradient_not_scaled_by_sample :
  let E := tape_env 0 in
  let p := demo_policy 1 1 1 10 in
  let input := Mat 1 1 (CallerMem 0) 0 in
  let gradient := Mat 3 1 (CallerMem 1) 0 in
  let s := @State E (demo_heap [1; 0; 1] [1] [1] [0; 0; 0]) [0] in
  exists s',
    PositivePhase p input gradient s = Some (tt, s') /\
    el (heap_of s') (spikeSamples p) 0 = 1 /\
    el (heap_of s') gradient 0 <>
    el (heap_of s') input 0 * at_ (heap_of s') (slabMean p) 0 0 *
    el (heap_of s') (spikeSamples p) 0.
Proof.
  intros E p input gradient s. subst E.
  destruct (PositivePhase_spec p (demo_well_formed 1 1 1 10) input gradient
              0%nat 1%nat s) as (s' & Hrun & Hm & _ & Hss & Hsl & Hg & _ & _ & Hfr);
    try reflexivity; try discriminate.
  { apply demo_slab_nonzero. intros k Hk. simpl in Hk.
    destruct k; [reflexivity | lia]. }
  exists s'. split; [exact Hrun|].
  specialize (Hm 0%nat Nat.lt_0_1). specialize (Hss 0%nat Nat.lt_0_1).
  specialize (Hsl 0%nat 0%nat Nat.lt_0_1 Nat.lt_0_1).
  specialize (Hg 0%nat 0%nat 0%nat Nat.lt_0_1 Nat.lt_0_1 Nat.lt_0_1).
  set (m := el (heap_of s') (spikeMean p) 0) in *.
  assert (Hrange : 0 < m < 1).
  { unfold SpikeMean_rhs in Hm. destruct (inv _) as [d|]; [|discriminate].
    injection Hm as Hm. rewrite <- Hm. apply (tape_logistic_range 0). }
  assert (Hone : el (heap_of s') (spikeSamples p) 0 = 1).
  { rewrite Hss. unfold drawn. simpl.
    destruct (Rlt_dec 0 _) as [|Hn]; [reflexivity|].
    exfalso. apply Hn. exact (proj1 Hrange). }
  assert (Hin : el (heap_of s') input 0 = 1).
  { unfold el. rewrite Hfr; try discriminate. reflexivity. }
  assert (Hslab : at_ (heap_of s') (slabMean p) 0 0 = 1).
  { rewrite Hsl. unfold SlabMean_value. rewrite Hone.
    unfold at_, slice. simpl. rewrite !Hfr; try discriminate. simpl. lra. }
  split; [exact Hone|].
  rewrite Hin, Hslab in Hg. rewrite Hin, Hslab, Hone.
  unfold el. simpl. simpl in Hg. rewrite Hg. lra.
Qed.

(* ================================================================== *)
(** * VisibleMean and SampleVisible                                     *)
(* ================================================================== *)

Section Visible.
Context {E : Env}.
Variable p : SpikeSlabRBMPolicy.
Hypothesis WF : well_formed p.

Lemma visible_positive_nonzero (h : heap) :
  visible_positive p h -> visible_nonzero p h.
Proof. intros H i Hi. specialize (H i Hi). lra. Qed.

Lemma visible_positive_frame (h h' : heap) :
  h' ParameterMem = h ParameterMem -> visible_positive p h -> visible_positive p h'.
Proof.
  intros Hs Hp i Hi. specialize (Hp i Hi).
  unfold el in *. rewrite (wf_visiblePenalty p WF) in *. simpl in *. now rewrite Hs.
Qed.

(** A loop that adds one computed column per index to a column vector. *)
Lemma plus_loop_spec (dst : mat) (n : nat) (f : nat -> heap -> val) (s : state) :
  (forall i h h', (forall b, b <> base dst -> h' b = h b) -> f i h' = f i h) ->
  exists s',
    for_ n (fun i => e <- eval (f i) ;; plus_assign dst e) s = Some (tt, s') /\
    rng_of s' = rng_of s /\
    same_except (base dst) (off dst) (off dst + n_elem dst) (heap_of s) (heap_of s') /\
    forall k, (k < n_elem dst)%nat ->
      el (heap_of s') dst k =
      el (heap_of s) dst k + sum n (fun i => linear (f i (heap_of s)) k).
Proof.
  intros Hf.
  apply (for_inv (fun j s1 =>
    rng_of s1 = rng_of s /\
    same_except (base dst) (off dst) (off dst + n_elem dst) (heap_of s) (heap_of s1) /\
    forall k, (k < n_elem dst)%nat ->
      el (heap_of s1) dst k =
      el (heap_of s) dst k + sum j (fun i => linear (f i (heap_of s)) k))).
  - repeat split; auto. intros k Hk. simpl. lra.
  - intros j s1 Hj (Hrng & Hfr & Hval).
    eexists. split; [reflexivity|]. simpl. split; [auto|]. split.
    + apply same_except_store_block; auto; lia.
    + intros k Hk. unfold el at 1. rewrite store_block_in by lia.
      replace (off dst + k - off dst)%nat with k by lia.
      rewrite Hval by auto. rewrite (Hf j (heap_of s) (heap_of s1)) by apply Hfr. lra.
Qed.

(** What [VisibleMean] computes: the inverse precision times the sum of the
    hidden contributions ADDED TO what the output buffer held after
    [set_size] -- its previous contents when it already had [visibleSize]
    elements, uninitialised storage otherwise. *)
Lemma VisibleMean_spec (input output : mat) (a b : nat) (s : state) :
  n_elem input = (hiddenSize p + poolSize p * hiddenSize p)%nat ->
  caller_mat input a -> caller_mat output b -> a <> b ->
  visible_nonzero p (heap_of s) ->
  let resized := Nat.eqb (n_elem output) (visibleSize p * 1) in
  let out := Mat (visibleSize p) 1 (base output)
               (if resized then off output else 0%nat) in
  let prior := fun k =>
    if resized then el (heap_of s) output k else uninit (base output) k in
  exists s',
    VisibleMean p input output s = Some (out, s') /\
    rng_of s' = rng_of s /\
    (forall b', b' <> base output -> heap_of s' b' = heap_of s b') /\
    forall k, (k < visibleSize p)%nat ->
      el (heap_of s') out k =
      / el (heap_of s) (visiblePenalty p) k *
      (prior k + sum (hiddenSize p) (fun i => VisibleMean_term p (heap_of s) input k i)).
Proof.
  intros Hin Ha Hb Hab Hnz resized out prior. unfold caller_mat in Ha, Hb.
  pose proof (wf_visiblePenalty p WF) as Evp.
  pose proof (wf_weight p WF) as Ew.
  unfold VisibleMean.
  erewrite bind_Some; [|apply assert_eqb; exact Hin].
  destruct (set_size_spec output (visibleSize p) 1 s) as (s0 & R0 & G0 & F0 & K0 & U0).
  rewrite (bind_Some _ _ _ _ _ R0). fold resized. fold out.
  assert (Hprior : forall k, el (heap_of s0) out k = prior k).
  { intros k. unfold prior, out, resized, el. simpl.
    destruct (Nat.eqb (n_elem output) (visibleSize p * 1)) eqn:Hn.
    - apply Nat.eqb_eq in Hn. now rewrite (K0 Hn).
    - apply Nat.eqb_neq in Hn. now rewrite (U0 Hn). }
  assert (Hob : base out = base output) by reflexivity.
  assert (Hor : n_rows out = visibleSize p) by reflexivity.
  assert (Hoc : n_cols out = 1%nat) by reflexivity.
  clearbody out. clear R0.
  (* the accumulation loop *)
  match goal with |- context [for_ _ (fun i => e <- eval (@?f i) ;; plus_assign ?d e)] =>
    destruct (plus_loop_spec d (hiddenSize p) f s0) as (s1 & R1 & G1 & F1 & V1) end.
  { intros i h h' Hh. simpl in Hh.
    unfold vscale, mul, slice, col, load, at_, el, alias. rewrite Ew. simpl.
    rewrite !Hh; auto; rewrite ?Ha, Hob, Hb; try discriminate. congruence. }
  rewrite (bind_Some _ _ _ _ _ R1). destruct F1 as [F1 F1'].
  rewrite Hob in F1. rewrite Hb in F0, F1.
  (* the final scaling *)
  assert (Hvp : forall k, el (heap_of s1) (visiblePenalty p) k =
                          el (heap_of s) (visiblePenalty p) k).
  { intros k. unfold el. rewrite Evp. simpl. rewrite F1, F0; auto; discriminate. }
  destruct (inv_diagmat (load (heap_of s1) (visiblePenalty p)))
    as (d & Hd & Hdr & Hdc & Hdv).
  { intros k Hk. simpl in *. rewrite Evp in Hk. simpl in Hk.
    specialize (Hnz k Hk). rewrite <- Hvp in Hnz.
    unfold at_, el in *. rewrite Evp in *. simpl in *.
    now rewrite Nat.add_0_r. }
  eexists. split; [|split; [|split]].
  - unfold bind at 1, eval_opt. rewrite Hd. reflexivity.
  - simpl. now rewrite G1, G0.
  - intros b' Nb. simpl. rewrite Hb in Nb.
    rewrite store_block_other_buf by (rewrite Hob, Hb; auto). rewrite F1, F0; auto.
  - intros k Hk. simpl heap_of. unfold el at 1.
    assert (Hne : n_elem out = visibleSize p) by (unfold n_elem; rewrite Hor, Hoc; lia).
    rewrite store_block_in by (rewrite Hne; lia).
    replace (off out + k - off out)%nat with k by lia.
    unfold linear. simpl rows. rewrite Hdr. simpl rows. rewrite Evp. simpl n_rows.
    rewrite Nat.mod_small, Nat.div_small by lia.
    simpl get. rewrite Hdc. simpl rows. rewrite Evp. simpl n_rows.
    rewrite (sum_single _ k) by
      (auto; intros j Hj Hjk; rewrite Hdv; apply Nat.eqb_neq in Hjk;
       rewrite Nat.eqb_sym, Hjk; lra).
    rewrite Hdv, Nat.eqb_refl. simpl get.
    replace (at_ (heap_of s1) (visiblePenalty p) k 0)
      with (el (heap_of s) (visiblePenalty p) k)
      by (rewrite <- Hvp; unfold at_, el; rewrite Evp; simpl; f_equal; lia).
    f_equal; [now rewrite Evp|].
    replace (at_ (heap_of s1) out k 0) with (el (heap_of s1) out k)
      by (unfold at_, el; simpl; f_equal; lia).
    rewrite V1 by (rewrite Hne; auto). rewrite Hprior. f_equal.
    apply sum_ext. intros i Hi. unfold VisibleMean_term, linear. simpl.
    rewrite Ew. simpl. rewrite Nat.mod_small, Nat.div_small by lia.
    rewrite Nat.add_0_r.
    unfold at_, el, slab_part, spike_part, alias. simpl.
    rewrite !F0; auto; rewrite ?Ha; try discriminate; congruence.
Qed.

End Visible.

(** C1 fails on the code.  One visible unit, one hidden unit, pool size 1,
    weight 1, visible precision 1, hidden vector [spike; slab] = [1; 1]: the
    visible mean of the claim is 1 / 1 * (1 * 1 * 1) = 1.  Called with an
    output buffer that already has one element, holding 5, [VisibleMean]
    adds its sum to the 5 and returns 6. *)
Theorem VisibleMean_adds_to_output :
  let E := tape_env 0 in
  let p := demo_policy 1 1 1 10 in
  let input := Mat 2 1 (CallerMem 0) 0 in
  let output := Mat 1 1 (CallerMem 1) 0 in
  let s := @State E (demo_heap [1; 0; 1] [1] [1; 1] [5]) [] in
  exists out s',
    VisibleMean p input output s = Some (out, s') /\
    VisibleMean_value p (heap_of s) input 0 = 1 /\
    el (heap_of s') out 0 = 6.
Proof.
  intros E p input output s. subst E.
  destruct (VisibleMean_spec p (demo_well_formed 1 1 1 10) input output
              0%nat 1%nat s) as (s' & Hrun & _ & _ & Hval);
    try reflexivity; try discriminate.
  { intros i Hi. simpl in Hi. assert (i = 0%nat) as -> by lia.
    unfold el. simpl. lra. }
  eexists. exists s'. split; [exact Hrun|]. split.
  - unfold VisibleMean_value, VisibleMean_term, el, at_. simpl. field.
  - rewrite (Hval 0%nat) by (simpl; lia).
    unfold VisibleMean_term, el, at_. simpl. field.
Qed.

(** ** The rejection sampler *)

Section Sampler.
Context {E : Env}.
Variable p : SpikeSlabRBMPolicy.
Hypothesis WF : well_formed p.

(** One pass over the visible units: unit [i] is drawn around the value the
    output held for unit [i] when the pass started. *)
Lemma SampleVisible_draw_spec (output : mat) (s : state) :
  base output <> ParameterMem ->
  visible_positive p (heap_of s) ->
  let draw := fun i => RandNormal (el (heap_of s) output i)
                         (1 / el (heap_of s) (visiblePenalty p) i) in
  exists s',
    SampleVisible_draw p output s = Some (tt, s') /\
    rng_of s' = rng_after draw (visibleSize p) (rng_of s) /\
    same_except (base output) (off output) (off output + visibleSize p)
      (heap_of s) (heap_of s') /\
    forall i, (i < visibleSize p)%nat ->
      el (heap_of s') output i = drawn draw i (rng_of s).
Proof.
  intros Hb Hpos draw. unfold SampleVisible_draw.
  pose proof (wf_visiblePenalty p WF) as Evp.
  set (I := fun (k : nat) (s1 : state) =>
    rng_of s1 = rng_after draw k (rng_of s) /\
    same_except (base output) (off output) (off output + visibleSize p)
      (heap_of s) (heap_of s1) /\
    (forall i, (i < k)%nat -> el (heap_of s1) output i = drawn draw i (rng_of s)) /\
    (forall i, (k <= i)%nat -> el (heap_of s1) output i = el (heap_of s) output i)).
  match goal with |- exists s', ?run s = Some (tt, s') /\ _ =>
    assert (Hloop : exists s', run s = Some (tt, s') /\ I (visibleSize p) s') end.
  { apply (for_inv I); unfold I.
    - repeat split; auto. intros i Hi. lia.
    - intros k s1 Hk (Hrng & Hfr & Hval & Hrest).
      assert (Hvp : el (heap_of s1) (visiblePenalty p) k =
                    el (heap_of s) (visiblePenalty p) k).
      { unfold el. rewrite Evp. simpl. destruct Hfr as [Hfr _]. rewrite Hfr; auto. }
      unfold bind, read, eval, assert, rand_normal, write, modify.
      rewrite Hvp, (Rltb_true _ _ (Hpos k Hk)). unfold ret.
      rewrite (Hrest k) by lia. rewrite Hrng. fold (draw k).
      destruct (draw k (rng_after draw k (rng_of s))) as [x g] eqn:Hd.
      eexists. split; [reflexivity|]. simpl. split; [|split; [|split]].
      + now rewrite Hd.
      + apply same_except_store_el; auto. lia.
      + intros i Hi. unfold el.
        destruct (Nat.eq_dec i k) as [->|Hne].
        * rewrite store_el_same. unfold drawn. now rewrite Hd.
        * rewrite store_el_other by lia. apply Hval. lia.
      + intros i Hi. unfold el. rewrite store_el_other by lia. apply Hrest. lia. }
  destruct Hloop as (s' & Hrun & Hrng & Hfr & Hval & _).
  exists s'. repeat split; auto; apply Hfr.
Qed.

Lemma SampleVisible_draw_runs (output : mat) (s : state) :
  base output <> ParameterMem ->
  visible_positive p (heap_of s) ->
  exists s',
    SampleVisible_draw p output s = Some (tt, s') /\
    visible_positive p (heap_of s').
Proof.
  intros Hb Hpos.
  destruct (SampleVisible_draw_spec output s Hb Hpos) as (s' & Hrun & _ & [Hfr _] & _).
  exists s'. split; [exact Hrun|].
  apply (visible_positive_frame p WF (heap_of s)); auto.
Qed.

(** The rejection loop with a budget of [m] trials: it makes [n] passes,
    none of the first [n-1] inside the radius, and stops before the budget
    is used up only on a pass inside the radius. *)
Lemma SampleVisible_trials_spec (output : mat) (m : nat) :
  base output <> ParameterMem ->
  forall s, visible_positive p (heap_of s) ->
  exists n s',
    SampleVisible_trials p output m s = Some (tt, s') /\
    (n <= m)%nat /\ ((0 < m)%nat -> (1 <= n)%nat) /\
    SampleVisible_draws p output n s = Some (tt, s') /\
    (forall j, (1 <= j < n)%nat ->
       exists sj, SampleVisible_draws p output j s = Some (tt, sj) /\
                  ~ norm (load (heap_of sj) output) < radius p) /\
    ((n < m)%nat -> norm (load (heap_of s') output) < radius p).
Proof.
  intros Hb. induction m as [|m IH]; intros s Hpos.
  - exists 0%nat, s. simpl. repeat split; auto; intros; lia.
  - destruct (SampleVisible_draw_runs output s Hb Hpos) as (s1 & Hd & Hpos1).
    simpl SampleVisible_trials. rewrite (bind_Some _ _ _ _ _ Hd).
    unfold bind at 1, eval.
    destruct (Rlt_dec (norm (load (heap_of s1) output)) (radius p)) as [Hlt|Hge].
    + rewrite (Rltb_true _ _ Hlt).
      exists 1%nat, s1.
      split; [reflexivity|]. split; [lia|]. split; [lia|].
      split; [simpl; now rewrite (bind_Some _ _ _ _ _ Hd)|].
      split; [intros j Hj; lia | intros _; exact Hlt].
    + rewrite (Rltb_false _ _ Hge).
      destruct (IH s1 Hpos1) as (n & s' & Hrun & Hn & _ & Hdraws & Hrej & Hstop).
      exists (S n), s'.
      split; [exact Hrun|]. split; [lia|]. split; [lia|].
      split; [simpl; now rewrite (bind_Some _ _ _ _ _ Hd)|].
      split.
      * intros j Hj. destruct j as [|j]; [lia|].
        simpl. rewrite (bind_Some _ _ _ _ _ Hd).
        destruct j as [|j].
        -- exists s1. split; auto.
        -- apply Hrej. lia.
      * intros Hlt. apply Hstop. lia.
Qed.

Lemma SampleVisible_trials_reject (output : mat) (m : nat) (s s1 : state) :
  SampleVisible_draw p output s = Some (tt, s1) ->
  ~ norm (load (heap_of s1) output) < radius p ->
  SampleVisible_trials p output (S m) s = SampleVisible_trials p output m s1.
Proof.
  intros Hd Hge. simpl. rewrite (bind_Some _ _ _ _ _ Hd).
  unfold bind, eval. now rewrite (Rltb_false _ _ Hge).
Qed.

Lemma SampleVisible_trials_accept (output : mat) (m : nat) (s s1 : state) :
  SampleVisible_draw p output s = Some (tt, s1) ->
  norm (load (heap_of s1) output) < radius p ->
  SampleVisible_trials p output (S m) s = Some (tt, s1).
Proof.
  intros Hd Hlt. simpl. rewrite (bind_Some _ _ _ _ _ Hd).
  unfold bind, eval. now rewrite (Rltb_true _ _ Hlt).
Qed.

End Sampler.

(** C4. [SampleVisible] makes [n] full-vector draws with [1 <= n <= 10],
    each starting from the state the previous one left; none of the first
    [n-1] draws has a norm below [radius]; it stops after fewer than 10 draws
    only on a draw whose norm is below [radius]; and it always returns the
    last draw it made, so after 10 draws outside the radius it returns the
    tenth instead of failing. *)
Theorem SampleVisible_bounded_rejection {E : Env} (p : SpikeSlabRBMPolicy)
    (input output : mat) (a b : nat) (s : state) :
  well_formed p ->
  n_elem input = (hiddenSize p + poolSize p * hiddenSize p)%nat ->
  caller_mat input a -> caller_mat output b -> a <> b ->
  visible_positive p (heap_of s) ->
  exists out s1 s' n,
    VisibleMean p input output s = Some (out, s1) /\
    SampleVisible p input output s = Some (out, s') /\
    (1 <= n <= numMaxTrials)%nat /\
    SampleVisible_draws p out n s1 = Some (tt, s') /\
    (forall j, (1 <= j < n)%nat ->
       exists sj, SampleVisible_draws p out j s1 = Some (tt, sj) /\
                  ~ norm (load (heap_of sj) out) < radius p) /\
    ((n < numMaxTrials)%nat -> norm (load (heap_of s') out) < radius p) /\
    (~ norm (load (heap_of s') out) < radius p -> n = numMaxTrials).
Proof.
  intros WF Hin Ha Hb Hab Hpos.
  destruct (VisibleMean_spec p WF input output a b s Hin Ha Hb Hab
              (visible_positive_nonzero p _ Hpos)) as (s1 & Hmean & _ & Hfr & _).
  set (out := Mat (visibleSize p) 1 (base output) _) in *.
  assert (Hob : base out <> ParameterMem).
  { unfold out. simpl. unfold caller_mat in Hb. rewrite Hb. discriminate. }
  assert (Hpos1 : visible_positive p (heap_of s1)).
  { apply (visible_positive_frame p WF (heap_of s)); [|exact Hpos].
    apply Hfr. unfold caller_mat in Hb. rewrite Hb. discriminate. }
  destruct (SampleVisible_trials_spec p WF out numMaxTrials Hob s1 Hpos1)
    as (n & s' & Hrun & Hn & Hn1 & Hdraws & Hrej & Hstop).
  exists out, s1, s', n. split; [exact Hmean|]. split.
  { unfold SampleVisible. rewrite (bind_Some _ _ _ _ _ Hmean).
    now rewrite (bind_Some _ _ _ _ _ Hrun). }
  split. { split; [apply Hn1; unfold numMaxTrials; lia | exact Hn]. }
  split; [exact Hdraws|]. split; [exact Hrej|]. split; [exact Hstop|].
  intros Hout. destruct (Nat.eq_dec n numMaxTrials) as [|Hne]; auto.
  exfalso. apply Hout, Hstop. lia.
Qed.

Lemma SampleVisible_bounded_rejection_witness :
  let E := tape_env 0 in
  let p := demo_policy 1 1 1 3 in
  let input := Mat 2 1 (CallerMem 0) 0 in
  let output := Mat 1 1 (CallerMem 1) 0 in
  let s := @State E (demo_heap [1; 0; 1] [1] [1; 0] [0]) [5; -4] in
  exists out s1 s' n,
    VisibleMean p input output s = Some (out, s1) /\
    SampleVisible p input output s = Some (out, s') /\
    (1 <= n <= numMaxTrials)%nat /\
    SampleVisible_draws p out n s1 = Some (tt, s') /\
    (forall j, (1 <= j < n)%nat ->
       exists sj, SampleVisible_draws p out j s1 = Some (tt, sj) /\
                  ~ norm (load (heap_of sj) out) < radius p) /\
    ((n < numMaxTrials)%nat -> norm (load (heap_of s') out) < radius p) /\
    (~ norm (load (heap_of s') out) < radius p -> n = numMaxTrials).
Proof.
  apply (@SampleVisible_bounded_rejection (tape_env 0) (demo_policy 1 1 1 3)
           (Mat 2 1 (CallerMem 0) 0) (Mat 1 1 (CallerMem 1) 0) 0%nat 1%nat).
  - apply demo_well_formed.
  - reflexivity.
  - reflexivity.
  - reflexivity.
  - discriminate.
  - intros i Hi. simpl in Hi. assert (i = 0%nat) as -> by lia.
    unfold el. simpl. lra.
Defined.

(** C3 fails on the code.  One visible unit with precision 1; the hidden
    vector makes the visible mean 0; the radius is 3; the generator's raw
    normal draws are 5, then -4.  The first trial draws 0 + 1 * 5 = 5, which
    is outside the radius.  The second trial does not draw around the visible
    mean (that would give 0 + 1 * (-4) = -4): it draws around the 5 the first
    trial left in the output, gets 5 + 1 * (-4) = 1, and returns it. *)
Theorem SampleVisible_redraws_around_last_draw :
  let E := tape_env 0 in
  let p := demo_policy 1 1 1 3 in
  let input := Mat 2 1 (CallerMem 0) 0 in
  let output := Mat 1 1 (CallerMem 1) 0 in
  let s := @State E (demo_heap [1; 0; 1] [1] [1; 0] [0]) [5; -4] in
  exists out s1 s',
    VisibleMean p input output s = Some (out, s1) /\
    el (heap_of s1) out 0 = 0 /\
    el (heap_of s1) (visiblePenalty p) 0 = 1 /\
    SampleVisible p input output s = Some (out, s') /\
    rng_of s' = [] /\
    el (heap_of s') out 0 = 1 /\
    fst (RandNormal (el (heap_of s1) out 0)
           (1 / el (heap_of s1) (visiblePenalty p) 0) [-4]) = -4.
Proof.
  intros E p input output s. subst E.
  pose proof (demo_well_formed 1 1 1 3) as WF. fold p in WF.
  assert (Hpos : visible_positive p (heap_of s)).
  { intros i Hi. simpl in Hi. assert (i = 0%nat) as -> by lia.
    unfold el. simpl. lra. }
  destruct (VisibleMean_spec p WF input output 0%nat 1%nat s)
    as (s1 & Hmean & G1 & F1 & V1);
    try reflexivity; try discriminate.
  { now apply visible_positive_nonzero. }
  simpl in F1. specialize (V1 0%nat Nat.lt_0_1).
  set (out := Mat 1 1 (CallerMem 1) 0).
  change (VisibleMean p input output s = Some (out, s1)) in Hmean.
  assert (Hm : el (heap_of s1) out 0 = 0).
  { etransitivity; [exact V1|]. unfold VisibleMean_term, el, at_. simpl. field. }
  assert (Hvp1 : el (heap_of s1) (visiblePenalty p) 0 = 1).
  { unfold el. simpl. rewrite F1 by discriminate. reflexivity. }
  assert (Hpos1 : visible_positive p (heap_of s1)).
  { apply (visible_positive_frame p WF (heap_of s)); auto.
    apply F1. discriminate. }
  (* first trial *)
  destruct (SampleVisible_draw_spec p WF out s1) as (s2 & D2 & G2 & [F2 _] & V2);
    try discriminate; auto.
  specialize (V2 0%nat Nat.lt_0_1). simpl in F2.
  unfold drawn in V2. simpl rng_after in V2, G2.
  rewrite G1 in V2, G2. rewrite Hm, Hvp1 in V2. simpl in V2, G2.
  assert (Hsd : sqrt (1 / 1) = 1).
  { replace (1 / 1) with 1 by field. apply sqrt_1. }
  assert (H2 : el (heap_of s2) out 0 = 5) by (rewrite V2, Hsd; field).
  assert (Hvp2 : el (heap_of s2) (visiblePenalty p) 0 = 1).
  { rewrite <- Hvp1. unfold el. simpl. rewrite F2 by discriminate. reflexivity. }
  assert (N2 : ~ norm (load (heap_of s2) out) < radius p).
  { unfold norm, linear. simpl.
    change (at_ (heap_of s2) out 0 0) with (el (heap_of s2) out 0). rewrite H2.
    rewrite Rplus_0_l, sqrt_square by lra. lra. }
  (* second trial *)
  destruct (SampleVisible_draw_spec p WF out s2) as (s3 & D3 & G3 & _ & V3);
    try discriminate.
  { apply (visible_positive_frame p WF (heap_of s1)); auto.
    apply F2. discriminate. }
  specialize (V3 0%nat Nat.lt_0_1).
  unfold drawn in V3. simpl rng_after in V3, G3.
  rewrite G2 in V3, G3. rewrite H2, Hvp2 in V3. simpl in V3, G3.
  assert (H3 : el (heap_of s3) out 0 = 1) by (rewrite V3, Hsd; field).
  assert (N3 : norm (load (heap_of s3) out) < radius p).
  { unfold norm, linear. simpl.
    change (at_ (heap_of s3) out 0 0) with (el (heap_of s3) out 0). rewrite H3.
    rewrite Rplus_0_l, sqrt_square by lra. lra. }
  exists out, s1, s3.
  split; [exact Hmean|]. split; [exact Hm|]. split; [exact Hvp1|].
  split.
  { unfold SampleVisible. rewrite (bind_Some _ _ _ _ _ Hmean).
    unfold numMaxTrials.
    assert (Hrun : SampleVisible_trials p out 10 s1 = Some (tt, s3)).
    { rewrite (SampleVisible_trials_reject p out 9 s1 s2 D2 N2).
      exact (SampleVisible_trials_accept p out 8 s2 s3 D3 N3). }
    now rewrite (bind_Some _ _ _ _ _ Hrun). }
  split; [exact G3|]. split; [exact H3|].
  rewrite Hm, Hvp1. simpl. rewrite Hsd. field.
Qed.

(* ================================================================== *)
(** * Free energy                                                       *)
(* ================================================================== *)

(** C5. With V = 3, H = 1, P = 1, slab precision [[1]] and radius 10, after
    [Reset] and whatever the parameter buffer holds, [FreeEnergy] of the
    visible vector [0, 0, 0] is [-0.5 * ln(2 pi) - softplus(spikeBias(0))].
    ([demo_policy 3 1 1 10] is the instance the constructor and [Reset] build
    for these sizes, see [Construct_Reset_demo].) *)
Theorem FreeEnergy_zero_visible {E : Env} (input : mat) (s : state) :
  let p := demo_policy 3 1 1 10 in
  n_rows input = 3%nat -> n_cols input = 1%nat ->
  (forall i, (i < 3)%nat -> el (heap_of s) input i = 0) ->
  at_ (heap_of s) (slabPenalty p) 0 0 = 1 ->
  FreeEnergy p input s =
  Some (- 0.5 * ln (2 * PI) - SoftplusFn (el (heap_of s) (spikeBias p) 0), s).
Proof.
  intros p Hr Hc Hz Hs. destruct input as [r c b o]. simpl in Hr, Hc. subst r c.
  pose proof (Hz 0%nat) as Z0. pose proof (Hz 1%nat) as Z1. pose proof (Hz 2%nat) as Z2.
  unfold el in Z0, Z1, Z2. simpl in Z0, Z1, Z2.
  unfold at_ in Hs. simpl in Hs.
  cbv [FreeEnergy for_acc for_from bind assert ret eval read Nat.eqb
       n_rows n_cols visibleSize hiddenSize poolSize demo_policy Reset p].
  unfold as_scalar, mul, trans, diagmat, load, col, slice, at_, el. simpl.
  rewrite Z0, Z1, Z2, Hs by lia.
  do 2 f_equal.
  replace (2 * PI / 1) with (2 * PI) by field.
  set (b0 := heap_of s ParameterMem 3%nat).
  match goal with |- _ - SoftplusFn ?x = _ =>
    replace x with b0 by (unfold b0; field) end.
  lra.
Qed.

Lemma FreeEnergy_zero_visible_witness :
  let E := tape_env 0 in
  let p := demo_policy 3 1 1 10 in
  let input := Mat 3 1 (CallerMem 0) 0 in
  let s := @State E (demo_heap [2; -3; 4; 7; 1; 2; 3] [1] [0; 0; 0] []) [] in
  FreeEnergy p input s = Some (- 0.5 * ln (2 * PI) - SoftplusFn 7, s).
Proof.
  apply (@FreeEnergy_zero_visible (tape_env 0) (Mat 3 1 (CallerMem 0) 0)
           (@State (tape_env 0)
              (demo_heap [2; -3; 4; 7; 1; 2; 3] [1] [0; 0; 0] []) [])).
  - reflexivity.
  - reflexivity.
  - intros i Hi. destruct i as [|[|[|i]]]; try reflexivity. lia.
  - reflexivity.
Defined.

(* ================================================================== *)
(** * Further properties: construction and Reset                        *)
(* ================================================================== *)

Section ConstructRuns.
Context {E : Env}.

Lemma bind_None_r {A B} (c : M A) (k : A -> M B) (s : state) :
  (forall a s1, k a s1 = None) -> bind c k s = None.
Proof. intros H. unfold bind. destruct (c s) as [[a s1]|]; auto. Qed.

Lemma bind_None_l {A B} (c : M A) (k : A -> M B) (s : state) :
  c s = None -> bind c k s = None.
Proof. intros H. unfold bind. now rewrite H. Qed.

Lemma assert_false_fails (b : bool) (s : state) : b = false -> assert b s = None.
Proof. intros ->. reflexivity. Qed.

(** What a successful run of the constructor leaves behind. *)
Lemma Construct_runs V H P (arg : mat) (radius : R) (s : state) :
  n_rows arg = P -> n_cols arg = H ->
  exists s',
    Construct V H P arg radius s = Some (fresh_policy V H P radius, s') /\
    rng_of s' = rng_of s /\
    (forall k, (k < P * H)%nat ->
       heap_of s' SlabPenaltyMem k = el (heap_of s) arg k) /\
    (forall k, heap_of s' (CallerMem k) = heap_of s (CallerMem k)).
Proof.
  intros HP HH. unfold Construct, bind at 1. unfold modify at 1.
  match goal with |- context [set_size ?m ?r ?c] =>
    destruct (set_size_spec m r c
                (State (store_block (heap_of s) SlabPenaltyMem 0 (n_elem arg)
                          (fun k => el (heap_of s) arg k)) (rng_of s)))
      as (s1 & R1 & G1 & F1 & _) end.
  rewrite (bind_Some _ _ _ _ _ R1). simpl in F1, G1.
  erewrite bind_Some; [|apply assert_eqb; exact HP].
  erewrite bind_Some; [|apply assert_eqb; exact HH].
  match goal with |- context [set_size ?m ?r ?c] =>
    destruct (set_size_spec m r c s1) as (s2 & R2 & G2 & F2 & _) end.
  rewrite (bind_Some _ _ _ _ _ R2). simpl in F2.
  match goal with |- context [set_size ?m ?r ?c] =>
    destruct (set_size_spec m r c s2) as (s3 & R3 & G3 & F3 & _) end.
  rewrite (bind_Some _ _ _ _ _ R3). simpl in F3.
  match goal with |- context [set_size ?m ?r ?c] =>
    destruct (set_size_spec m r c s3) as (s4 & R4 & G4 & F4 & _) end.
  rewrite (bind_Some _ _ _ _ _ R4). simpl in F4.
  exists s4. split; [|split; [|split]].
  - unfold ret, fresh_policy. rewrite HP, HH. simpl.
    repeat match goal with |- context [if ?b then _ else _] => destruct b end;
      reflexivity.
  - now rewrite G4, G3, G2, G1.
  - intros k Hk. rewrite F4, F3, F2, F1 by discriminate.
    rewrite store_block_in by (unfold n_elem; rewrite HP, HH; lia).
    f_equal. lia.
  - intros k. rewrite F4, F3, F2, F1 by discriminate.
    now rewrite store_block_other_buf by discriminate.
Qed.

Lemma Construct_rejects V H P (arg : mat) (radius : R) (s : state) :
  ~ (n_rows arg = P /\ n_cols arg = H) ->
  Construct V H P arg radius s = None.
Proof.
  intros Hbad. unfold Construct, bind at 1. unfold modify at 1.
  match goal with |- context [set_size ?m ?r ?c] =>
    destruct (set_size_spec m r c
                (State (store_block (heap_of s) SlabPenaltyMem 0 (n_elem arg)
                          (fun k => el (heap_of s) arg k)) (rng_of s)))
      as (s1 & R1 & _) end.
  rewrite (bind_Some _ _ _ _ _ R1).
  destruct (Nat.eqb (n_rows arg) P) eqn:HP.
  - destruct (Nat.eqb (n_cols arg) H) eqn:HH.
    + apply Nat.eqb_eq in HP. apply Nat.eqb_eq in HH. tauto.
    + erewrite bind_Some; [|apply assert_eqb; apply Nat.eqb_eq; exact HP].
      apply bind_None_l. apply assert_false_fails. exact HH.
  - apply bind_None_l. apply assert_false_fails. exact HP.
Qed.

End ConstructRuns.

(** X1. The constructor stops on its assertions exactly when the slab
    precision matrix it is given is not [poolSize] x [hiddenSize]. *)
Theorem Construct_fails_iff {E : Env} V H P (arg : mat) (radius : R) (s : state) :
  Construct V H P arg radius s = None <-> ~ (n_rows arg = P /\ n_cols arg = H).
Proof.
  split.
  - intros Hnone [HP HH].
    destruct (Construct_runs V H P arg radius s HP HH) as (s' & Hrun & _).
    rewrite Hrun in Hnone. discriminate.
  - apply Construct_rejects.
Qed.

(** X2. Given a [poolSize] x [hiddenSize] slab precision matrix, the
    constructor succeeds without using the random generator.  The instance
    owns a copy of the slab precisions, a parameter buffer of
    [V*H*P + V + H] elements and scratch buffers of shapes H x 1, H x 1 and
    P x H; the caller's storage is left as it was.  After [Reset] the three
    views follow one another without gap or overlap and end exactly where
    the parameter buffer ends. *)
Theorem Construct_then_Reset {E : Env} V H P (arg : mat) (radius : R) (s : state) :
  n_rows arg = P -> n_cols arg = H ->
  exists p s',
    Construct V H P arg radius s = Some (p, s') /\
    rng_of s' = rng_of s /\
    (visibleSize p, hiddenSize p, poolSize p) = (V, H, P) /\
    (forall k i, (k < P)%nat -> (i < H)%nat ->
       at_ (heap_of s') (slabPenalty p) k i = at_ (heap_of s) arg k i) /\
    (forall k, heap_of s' (CallerMem k) = heap_of s (CallerMem k)) /\
    (n_rows (parameter p), n_cols (parameter p)) = ((V * H * P + V + H)%nat, 1%nat) /\
    (n_rows (spikeMean p), n_cols (spikeMean p)) = (H, 1%nat) /\
    (n_rows (spikeSamples p), n_cols (spikeSamples p)) = (H, 1%nat) /\
    (n_rows (slabMean p), n_cols (slabMean p)) = (P, H) /\
    let q := Reset p in
    well_formed q /\
    c_off (weight q) = off (parameter p) /\
    off (spikeBias q) = (c_off (weight q) + cube_n_elem (weight q))%nat /\
    off (visiblePenalty q) = (off (spikeBias q) + n_elem (spikeBias q))%nat /\
    (off (visiblePenalty q) + n_elem (visiblePenalty q))%nat =
    (off (parameter p) + n_elem (parameter p))%nat.
Proof.
  intros HP HH.
  destruct (Construct_runs V H P arg radius s HP HH) as (s' & Hrun & Hrng & Hcopy & Hcaller).
  exists (fresh_policy V H P radius), s'.
  split; [exact Hrun|]. split; [exact Hrng|]. split; [reflexivity|].
  split.
  { intros k i Hk Hi. unfold at_. simpl.
    rewrite Hcopy by nia. unfold el. rewrite HP. reflexivity. }
  split; [exact Hcaller|].
  repeat (split; [reflexivity|]).
  cbv zeta. split; [apply (demo_well_formed V H P radius)|].
  unfold Reset, fresh_policy, alias, alias_cube, cube_n_elem, n_elem. simpl.
  repeat split; lia.
Qed.

Lemma Construct_then_Reset_witness :
  let E := tape_env 0 in
  let arg := Mat 1 2 (CallerMem 0) 0 in
  let s := @State E (demo_heap [] [] [3; 4] []) [] in
  exists p s',
    Construct 2 2 1 arg 10 s = Some (p, s') /\
    rng_of s' = rng_of s /\
    (visibleSize p, hiddenSize p, poolSize p) = (2%nat, 2%nat, 1%nat) /\
    (forall k i, (k < 1)%nat -> (i < 2)%nat ->
       at_ (heap_of s') (slabPenalty p) k i = at_ (heap_of s) arg k i) /\
    (forall k, heap_of s' (CallerMem k) = heap_of s (CallerMem k)) /\
    (n_rows (parameter p), n_cols (parameter p)) = (8%nat, 1%nat) /\
    (n_rows (spikeMean p), n_cols (spikeMean p)) = (2%nat, 1%nat) /\
    (n_rows (spikeSamples p), n_cols (spikeSamples p)) = (2%nat, 1%nat) /\
    (n_rows (slabMean p), n_cols (slabMean p)) = (1%nat, 2%nat) /\
    let q := Reset p in
    well_formed q /\
    c_off (weight q) = off (parameter p) /\
    off (spikeBias q) = (c_off (weight q) + cube_n_elem (weight q))%nat /\
    off (visiblePenalty q) = (off (spikeBias q) + n_elem (spikeBias q))%nat /\
    (off (visiblePenalty q) + n_elem (visiblePenalty q))%nat =
    (off (parameter p) + n_elem (parameter p))%nat.
Proof.
  apply (@Construct_then_Reset (tape_env 0) 2 2 1 (Mat 1 2 (CallerMem 0) 0) 10).
  - reflexivity.
  - reflexivity.
Defined.

Section NeedsReset.
Context {E : Env}.

Lemma bind_assert {A} (b : bool) (k : unit -> M A) (s : state) :
  bind (assert b) k s = if b then k tt s else None.
Proof. destruct b; reflexivity. Qed.

Lemma SlabMean_unset_weight (p : SpikeSlabRBMPolicy) (visible spike slabMean : mat)
    (s : state) :
  c_rows (weight p) <> visibleSize p \/ c_cols (weight p) <> poolSize p ->
  SlabMean p visible spike slabMean s = None.
Proof.
  intros Hbad. unfold SlabMean. rewrite !bind_assert.
  repeat match goal with
         | |- (if ?b then _ else _) = None => destruct b eqn:?; [|reflexivity]
         end.
  exfalso. destruct Hbad as [Hbad|Hbad]; apply Hbad; apply Nat.eqb_eq; assumption.
Qed.

End NeedsReset.

(** X3. [Reset] is not optional.  On the instance the constructor leaves
    (the views still empty) with at least one visible unit or a non-empty
    pool, [SlabMean] stops on its assertion about the shape of [weight], and
    so does every operation that calls it: both gradient phases,
    [HiddenMean] and [SampleHidden]. *)
Theorem Reset_is_required {E : Env} V H P (radius : R) :
  (0 < V)%nat \/ (0 < P)%nat ->
  let p := fresh_policy V H P radius in
  forall (a b c : mat) (s : state),
    SlabMean p a b c s = None /\
    PositivePhase p a b s = None /\
    NegativePhase p a b s = None /\
    HiddenMean p a b s = None /\
    SampleHidden p a b s = None.
Proof.
  intros Hpos p a b c s.
  assert (Hbad : c_rows (weight p) <> visibleSize p \/
                 c_cols (weight p) <> poolSize p).
  { simpl. lia. }
  split; [now apply SlabMean_unset_weight|].
  split; [|split; [|split]].
  - unfold PositivePhase, PositivePhase_views. cbv zeta iota beta.
    apply bind_None_r. intros _ s1. apply bind_None_r. intros _ s2.
    apply bind_None_l. now apply SlabMean_unset_weight.
  - unfold NegativePhase, NegativePhase_views. cbv zeta iota beta.
    apply bind_None_r. intros _ s1. apply bind_None_r. intros _ s2.
    apply bind_None_l. now apply SlabMean_unset_weight.
  - unfold HiddenMean.
    apply bind_None_r. intros _ s0. apply bind_None_r. intros out s1.
    apply bind_None_r. intros _ s2. apply bind_None_r. intros _ s3.
    apply bind_None_l. now apply SlabMean_unset_weight.
  - unfold SampleHidden.
    apply bind_None_r. intros _ s0. apply bind_None_r. intros out s1.
    apply bind_None_r. intros _ s2. apply bind_None_r. intros _ s3.
    apply bind_None_l. now apply SlabMean_unset_weight.
Qed.

Lemma Reset_is_required_witness :
  let E := tape_env 0 in
  let p := fresh_policy 1 1 1 10 in
  let a := Mat 1 1 (CallerMem 0) 0 in
  let b := Mat 1 1 (CallerMem 1) 0 in
  let c := Mat 1 1 (CallerMem 2) 0 in
  let s := @State E (demo_heap [1; 0; 1] [1] [1] [0]) [] in
  SlabMean p a b c s = None /\
  PositivePhase p a b s = None /\
  NegativePhase p a b s = None /\
  HiddenMean p a b s = None /\
  SampleHidden p a b s = None.
Proof.
  apply (@Reset_is_required (tape_env 0) 1 1 1 10 (or_introl (Nat.lt_0_1))
           (Mat 1 1 (CallerMem 0) 0) (Mat 1 1 (CallerMem 1) 0)
           (Mat 1 1 (CallerMem 2) 0)
           (@State (tape_env 0) (demo_heap [1; 0; 1] [1] [1] [0]) [])).
Defined.

(* ================================================================== *)
(** * Further properties: loops that stop on an assertion               *)
(* ================================================================== *)

Section LoopsMore.
Context {E : Env}.

(** A loop fails when one of its iterations fails in every state that the
    earlier iterations can leave. *)
Lemma for_from_fails {A} (I : state -> Prop) (body : nat -> A -> M A) (j n : nat) :
  (forall k a s a' s', body k a s = Some (a', s') -> I s -> I s') ->
  (forall a s, I s -> body j a s = None) ->
  forall i a s, (i <= j < i + n)%nat -> I s -> for_from i n body a s = None.
Proof.
  intros Hkeep Hfail. induction n as [|n IH]; intros i a s Hj HI; [lia|].
  simpl. unfold bind. destruct (body i a s) as [[a' s']|] eqn:Hb; [|reflexivity].
  destruct (Nat.eq_dec i j) as [->|Hne].
  - rewrite (Hfail a s HI) in Hb. discriminate.
  - apply IH; [lia|]. eapply Hkeep; eauto.
Qed.

Lemma for_fails (I : state -> Prop) (body : nat -> M unit) (j n : nat) (s : state) :
  (forall k s s', body k s = Some (tt, s') -> I s -> I s') ->
  (forall s, I s -> body j s = None) ->
  (j < n)%nat -> I s -> for_ n body s = None.
Proof.
  intros Hkeep Hfail Hj HI. unfold for_, for_acc.
  apply (for_from_fails I (fun i _ => body i) j n); auto; try lia.
  intros k [] s0 [] s' Hb. now apply (Hkeep k).
Qed.

(** A loop keeps what each of its iterations keeps. *)
Lemma for_from_keeps {A} (I : state -> Prop) (body : nat -> A -> M A) (n : nat) :
  (forall k a s a' s', body k a s = Some (a', s') -> I s -> I s') ->
  forall i a s a' s', for_from i n body a s = Some (a', s') -> I s -> I s'.
Proof.
  intros Hkeep. induction n as [|n IH]; intros i a s a' s' Hrun HI; simpl in Hrun.
  - unfold ret in Hrun. now inversion Hrun; subst.
  - unfold bind in Hrun. destruct (body i a s) as [[a1 s1]|] eqn:Hb; [|discriminate].
    eapply IH; eauto.
Qed.

Lemma for_keeps (I : state -> Prop) (body : nat -> M unit) (n : nat) (s s' : state) :
  (forall k s s', body k s = Some (tt, s') -> I s -> I s') ->
  for_ n body s = Some (tt, s') -> I s -> I s'.
Proof.
  intros Hkeep Hrun HI. unfold for_, for_acc in Hrun.
  apply (for_from_keeps I (fun i _ => body i) n) with (i := 0%nat) (a := tt) (s := s)
    (a' := tt); auto.
  intros k [] s0 [] s1 Hb. now apply (Hkeep k).
Qed.

End LoopsMore.

(* ================================================================== *)
(** * Further properties: inference                                     *)
(* ================================================================== *)

Section InferenceMore.
Context {E : Env}.
Variable p : SpikeSlabRBMPolicy.
Hypothesis WF : well_formed p.

(** The matrix product in [SpikeMean] written out: half of
    [visible^T W D^-1 W^T visible] is the sum over the pool of the squared
    projections over twice the slab precision. *)
Lemma SpikeMean_rhs_value (visible : mat) (i : nat) (h : heap) :
  n_rows visible = visibleSize p ->
  slab_nonzero p h -> (i < hiddenSize p)%nat ->
  SpikeMean_rhs p visible i h = Some (LogisticFn (activation p h visible i)).
Proof.
  intros Hvr Hnz Hi. unfold SpikeMean_rhs.
  destruct (inv_diagmat _ (slab_nonzero_col p WF h i Hnz Hi)) as (d & -> & Hr & Hc & Hd).
  simpl in Hr, Hc, Hd. rewrite (wf_slabPenalty p WF) in Hr, Hc. simpl in Hr, Hc.
  do 2 f_equal. unfold activation. rewrite Rplus_comm. f_equal.
  unfold as_scalar. simpl. rewrite (wf_weight p WF), Hc, Hvr. simpl.
  pose (W := fun r c => h ParameterMem
               (r + c * visibleSize p + i * (visibleSize p * poolSize p))%nat).
  pose (a := fun k => projection p h visible i k).
  assert (Ha : forall k, sum (visibleSize p) (fun r => at_ h visible r 0 * W r k) = a k).
  { intros k. unfold a, W, projection, slice. rewrite (wf_weight p WF). reflexivity. }
  unfold W in Ha.
  pose (g := fun c => a c * / at_ h (slabPenalty p) c i).
  transitivity (0.5 * sum (poolSize p) (fun c => g c * a c)).
  - f_equal.
    transitivity (sum (visibleSize p) (fun r =>
                    sum (poolSize p) (fun c => g c * W r c * at_ h visible r 0))).
    + apply sum_ext. intros r Hr'. rewrite sum_scale_r.
      apply sum_ext. intros c Hc'. unfold W. f_equal. f_equal.
      rewrite (sum_single _ c); auto.
      * rewrite Ha, Hd, Nat.eqb_refl, Nat.add_0_r. reflexivity.
      * intros j Hj Hne. rewrite Hd. apply Nat.eqb_neq in Hne. rewrite Hne. lra.
    + rewrite sum_swap. apply sum_ext. intros c Hc'.
      rewrite <- Ha, sum_scale. apply sum_ext. intros r Hr'. unfold W. lra.
  - rewrite sum_scale. apply sum_ext. intros c Hc'.
    unfold g, a.
    specialize (Hnz c i Hc' Hi). replace 0.5 with (/ 2) by lra. field. exact Hnz.
Qed.

(** What [SpikeMean] stores, in closed form. *)
Lemma SpikeMean_value (visible dst : mat) (s : state) :
  n_rows visible = visibleSize p -> n_cols visible = 1%nat ->
  n_rows dst = hiddenSize p -> n_cols dst = 1%nat ->
  base dst <> ParameterMem -> base dst <> SlabPenaltyMem ->
  base dst <> base visible ->
  slab_nonzero p (heap_of s) ->
  exists s',
    SpikeMean p visible dst s = Some (tt, s') /\
    rng_of s' = rng_of s /\
    same_except (base dst) (off dst) (off dst + hiddenSize p) (heap_of s) (heap_of s') /\
    forall i, (i < hiddenSize p)%nat ->
      el (heap_of s') dst i = LogisticFn (activation p (heap_of s) visible i).
Proof.
  intros Hvr Hvc Hdr Hdc Hb1 Hb2 Hb3 Hnz.
  destruct (SpikeMean_spec p WF visible dst s) as (s' & Hrun & Hrng & Hfr & Hval); auto.
  exists s'. repeat split; auto; try apply Hfr.
  intros i Hi. specialize (Hval i Hi).
  rewrite (SpikeMean_rhs_value visible i (heap_of s) Hvr Hnz Hi) in Hval.
  now injection Hval.
Qed.


Lemma store_el_read (h : heap) b k x b' k' :
  b' <> b \/ k' <> k -> store_el h b k x b' k' = h b' k'.
Proof.
  intros [Hb|Hk]; unfold store_el.
  - now rewrite (buf_eqb_neq _ _ Hb).
  - apply Nat.eqb_neq in Hk. rewrite Hk. now rewrite andb_false_r.
Qed.

(** A later cell of the source survives a store into an earlier cell of the
    destination. *)
Lemma elementwise_safe_read (src dst : mat) (h : heap) (k i : nat) (x : R) :
  elementwise_safe src dst -> i <> k ->
  el (store_el h (base dst) (off dst + k) x) src i = el h src i.
Proof.
  intros [Hb|Ho] Hik; unfold el; apply store_el_read.
  - left. auto.
  - right. lia.
Qed.

(** [SampleSpike], also when it samples in place. *)
Lemma SampleSpike_spec_gen (src dst : mat) (s : state) :
  n_rows src = hiddenSize p -> n_cols src = 1%nat ->
  n_rows dst = hiddenSize p -> n_cols dst = 1%nat ->
  elementwise_safe src dst ->
  let draw := fun i => RandBernoulli (el (heap_of s) src i) in
  exists s',
    SampleSpike p src dst s = Some (tt, s') /\
    rng_of s' = rng_after draw (hiddenSize p) (rng_of s) /\
    same_except (base dst) (off dst) (off dst + hiddenSize p) (heap_of s) (heap_of s') /\
    forall i, (i < hiddenSize p)%nat -> el (heap_of s') dst i = drawn draw i (rng_of s).
Proof.
  intros Hsr Hsc Hdr Hdc Hsafe draw. unfold SampleSpike.
  repeat (erewrite bind_Some; [|apply assert_eqb; assumption]).
  set (I := fun (k : nat) (s1 : state) =>
    rng_of s1 = rng_after draw k (rng_of s) /\
    same_except (base dst) (off dst) (off dst + hiddenSize p) (heap_of s) (heap_of s1) /\
    (forall i, (i < k)%nat -> el (heap_of s1) dst i = drawn draw i (rng_of s)) /\
    (forall i, (k <= i)%nat -> el (heap_of s1) src i = el (heap_of s) src i)).
  match goal with |- exists s', ?run s = Some (tt, s') /\ _ =>
    assert (Hloop : exists s', run s = Some (tt, s') /\ I (hiddenSize p) s') end.
  { apply (for_inv I); unfold I.
    - repeat split; auto. intros i Hi. lia.
    - intros k s1 Hk (Hrng & Hfr & Hval & Hrest).
      unfold bind, read, eval, rand_bernoulli, write, modify.
      rewrite (Hrest k) by lia. rewrite Hrng. fold (draw k).
      destruct (draw k (rng_after draw k (rng_of s))) as [x g] eqn:Hd.
      eexists. split; [reflexivity|]. simpl. split; [|split; [|split]].
      + now rewrite Hd.
      + apply same_except_store_el; auto. lia.
      + intros i Hi. unfold el.
        destruct (Nat.eq_dec i k) as [->|Hne].
        * rewrite store_el_same. unfold drawn. now rewrite Hd.
        * rewrite store_el_other by lia. apply Hval. lia.
      + intros i Hi. rewrite elementwise_safe_read by (auto; lia).
        apply Hrest. lia. }
  destruct Hloop as (s' & Hrun & Hrng & Hfr & Hval & _).
  exists s'. repeat split; auto; apply Hfr.
Qed.

Lemma same_except_el (b : buf) (lo hi : nat) (h h1 : heap) (m : mat) (i : nat) :
  same_except b lo hi h h1 ->
  base m <> b \/ (off m + i < lo)%nat \/ (hi <= off m + i)%nat ->
  el h1 m i = el h m i.
Proof.
  intros [F1 F2] Hm. unfold el.
  destruct (buf_eqb (base m) b) eqn:Hb.
  - apply buf_eqb_eq in Hb. destruct Hm as [Hm|Hm]; [contradiction|].
    rewrite Hb. apply F2. lia.
  - rewrite F1; auto. intros Heq. rewrite Heq, buf_eqb_refl in Hb. discriminate.
Qed.

Lemma SlabMean_rhs_frame_cell (visible spike : mat) (i : nat) (h h' : heap) :
  h' ParameterMem = h ParameterMem ->
  h' SlabPenaltyMem = h SlabPenaltyMem ->
  h' (base visible) = h (base visible) ->
  el h' spike i = el h spike i ->
  SlabMean_rhs p visible spike i h' = SlabMean_rhs p visible spike i h.
Proof.
  intros H1 H2 H3 H4.
  unfold SlabMean_rhs, inv, diagmat, col, load, at_, slice, mul, scale, trans.
  rewrite (wf_slabPenalty p WF), (wf_weight p WF). simpl.
  now rewrite H1, H2, H3, H4.
Qed.

Lemma SlabMean_rhs_frame_cell_value (visible spike : mat) (c i : nat) (h h' : heap) :
  h' ParameterMem = h ParameterMem ->
  h' SlabPenaltyMem = h SlabPenaltyMem ->
  h' (base visible) = h (base visible) ->
  el h' spike i = el h spike i ->
  SlabMean_value p h' visible spike c i = SlabMean_value p h visible spike c i.
Proof.
  intros H1 H2 H3 H4. unfold SlabMean_value. rewrite H4.
  unfold at_, slice. rewrite (wf_slabPenalty p WF), (wf_weight p WF). simpl.
  now rewrite H1, H2, H3.
Qed.

(** [SlabMean], also when the spike vector shares the allocation of the
    result without overlapping it. *)
Lemma SlabMean_spec_gen (visible spike dst : mat) (s : state) :
  n_rows visible = visibleSize p -> n_cols visible = 1%nat ->
  n_rows spike = hiddenSize p -> n_cols spike = 1%nat ->
  n_rows dst = poolSize p -> n_cols dst = hiddenSize p ->
  base dst <> ParameterMem -> base dst <> SlabPenaltyMem ->
  base dst <> base visible ->
  (base spike <> base dst \/
   (off spike + hiddenSize p <= off dst)%nat \/
   (off dst + poolSize p * hiddenSize p <= off spike)%nat) ->
  slab_nonzero p (heap_of s) ->
  exists s',
    SlabMean p visible spike dst s = Some (tt, s') /\
    rng_of s' = rng_of s /\
    same_except (base dst) (off dst) (off dst + poolSize p * hiddenSize p)
      (heap_of s) (heap_of s') /\
    forall i c, (i < hiddenSize p)%nat -> (c < poolSize p)%nat ->
      at_ (heap_of s') dst c i = SlabMean_value p (heap_of s) visible spike c i.
Proof.
  intros Hvr Hvc Hsr Hsc Hdr Hdc Hb1 Hb2 Hb3 Hb4 Hnz. unfold SlabMean.
  assert (Hw1 : c_rows (weight p) = visibleSize p) by now rewrite (wf_weight p WF).
  assert (Hw2 : c_cols (weight p) = poolSize p) by now rewrite (wf_weight p WF).
  assert (Hp1 : n_rows (slabPenalty p) = poolSize p)
    by now rewrite (wf_slabPenalty p WF).
  assert (Hp2 : n_cols (slabPenalty p) = hiddenSize p)
    by now rewrite (wf_slabPenalty p WF).
  repeat (erewrite bind_Some; [|apply assert_eqb; assumption]).
  apply (for_inv (fun k s1 =>
    rng_of s1 = rng_of s /\
    same_except (base dst) (off dst) (off dst + poolSize p * hiddenSize p)
      (heap_of s) (heap_of s1) /\
    forall i c, (i < k)%nat -> (c < poolSize p)%nat ->
      at_ (heap_of s1) dst c i = SlabMean_value p (heap_of s) visible spike c i)).
  - repeat split; auto. intros i c Hi. lia.
  - intros k s1 Hk (Hrng & Hfr & Hval).
    destruct (SlabMean_rhs_value p WF visible spike k (heap_of s) Hnz Hk)
      as (e & He & Hrows & Hget).
    assert (He1 : SlabMean_rhs p visible spike k (heap_of s1) = Some e).
    { rewrite <- He. apply SlabMean_rhs_frame_cell; try (apply Hfr; auto).
      apply (same_except_el _ _ _ _ _ _ _ Hfr).
      destruct Hb4 as [Hb4|[Hb4|Hb4]]; [left; exact Hb4 | right; left; lia
                                       | right; right; lia]. }
    eexists. split.
    + unfold bind, eval_opt. rewrite He1. reflexivity.
    + simpl. split; [auto|]. rewrite Hdr.
      assert (Hkp : (k * poolSize p + poolSize p <= poolSize p * hiddenSize p)%nat) by nia.
      split.
      * apply same_except_store_block; auto; lia.
      * intros i c Hi Hc. unfold at_. rewrite Hdr.
        destruct (Nat.eq_dec i k) as [->|Hne].
        -- rewrite store_block_in by lia.
           replace (off dst + (c + k * poolSize p) - (off dst + k * poolSize p))%nat
             with c by lia.
           unfold linear. rewrite Hrows, Nat.mod_small, Nat.div_small by lia.
           now apply Hget.
        -- assert (i * poolSize p + poolSize p <= k * poolSize p)%nat by nia.
           rewrite store_block_out by lia.
           specialize (Hval i c). unfold at_ in Hval. rewrite Hdr in Hval.
           apply Hval; auto. lia.
Qed.

Lemma slab_positive_nonzero (h : heap) : slab_positive p h -> slab_nonzero p h.
Proof. intros H k i Hk Hi. specialize (H k i Hk Hi). lra. Qed.

(** [SampleSlab] visits the cells in storage order; cell [k] is drawn around
    the value the mean matrix held in cell [k] when the call started, also
    when it samples in place. *)
Lemma SampleSlab_spec (src dst : mat) (s : state) :
  n_rows src = poolSize p -> n_cols src = hiddenSize p ->
  n_rows dst = poolSize p -> n_cols dst = hiddenSize p ->
  base dst <> SlabPenaltyMem ->
  elementwise_safe src dst ->
  slab_positive p (heap_of s) ->
  let draw := fun k => RandNormal (el (heap_of s) src k)
                         (1 / el (heap_of s) (slabPenalty p) k) in
  exists s',
    SampleSlab p src dst s = Some (tt, s') /\
    rng_of s' = rng_after draw (poolSize p * hiddenSize p) (rng_of s) /\
    same_except (base dst) (off dst) (off dst + poolSize p * hiddenSize p)
      (heap_of s) (heap_of s') /\
    forall k, (k < poolSize p * hiddenSize p)%nat ->
      el (heap_of s') dst k = drawn draw k (rng_of s).
Proof.
  intros Hsr Hsc Hdr Hdc Hb Hsafe Hpos draw. unfold SampleSlab.
  pose proof (wf_slabPenalty p WF) as Esp.
  assert (Hp1 : n_rows (slabPenalty p) = poolSize p) by now rewrite Esp.
  assert (Hp2 : n_cols (slabPenalty p) = hiddenSize p) by now rewrite Esp.
  repeat (erewrite bind_Some; [|apply assert_eqb; assumption]).
  set (P := poolSize p) in *. set (H := hiddenSize p) in *.
  set (K := fun (n : nat) (s1 : state) =>
    rng_of s1 = rng_after draw n (rng_of s) /\
    same_except (base dst) (off dst) (off dst + P * H) (heap_of s) (heap_of s1) /\
    (forall k, (k < n)%nat -> el (heap_of s1) dst k = drawn draw k (rng_of s)) /\
    (forall k, (n <= k)%nat -> el (heap_of s1) src k = el (heap_of s) src k)).
  match goal with |- exists s', ?run s = Some (tt, s') /\ _ =>
    assert (Hloop : exists s', run s = Some (tt, s') /\ K (H * P)%nat s') end.
  { apply (for_inv (fun i s1 => K (i * P)%nat s1)).
    - unfold K. simpl. repeat split; auto. intros k Hk. lia.
    - intros i s1 Hi HK.
      assert (Hinner : exists s2,
        for_ P (fun j =>
          sp <- read_at (slabPenalty p) j i ;;
          assert (Rltb 0 sp) ;;;
          m <- read_at src j i ;;
          x <- rand_normal m (1 / sp) ;;
          write_at dst j i x) s1 = Some (tt, s2) /\ K (i * P + P)%nat s2).
      { apply (for_inv (fun j s2 => K (i * P + j)%nat s2)).
        - now rewrite Nat.add_0_r.
        - intros j s2 Hj (Hrng & Hfr & Hval & Hrest).
          assert (Hn : (i * P + j < P * H)%nat) by nia.
          unfold bind, read_at, eval, assert, rand_normal, write_at, modify.
          unfold at_. rewrite Hp1, Hsr, Hdr.
          replace (j + i * P)%nat with (i * P + j)%nat by lia.
          remember (i * P + j)%nat as n eqn:En.
          change (heap_of s2 (base (slabPenalty p)) (off (slabPenalty p) + n)%nat)
            with (el (heap_of s2) (slabPenalty p) n).
          assert (Hsp : el (heap_of s2) (slabPenalty p) n =
                        el (heap_of s) (slabPenalty p) n).
          { apply (same_except_el _ _ _ _ _ _ _ Hfr). left. rewrite Esp. simpl. auto. }
          assert (Hsp0 : 0 < el (heap_of s) (slabPenalty p) n).
          { specialize (Hpos j i Hj Hi). unfold at_ in Hpos. rewrite Hp1 in Hpos.
            unfold el. rewrite En. now replace (i * P + j)%nat with (j + i * P)%nat by lia. }
          rewrite Hsp, (Rltb_true _ _ Hsp0). unfold ret.
          pose proof (Hrest n (le_n n)) as Hr0. unfold el in Hr0. rewrite Hr0.
          change (heap_of s (base src) (off src + n)%nat) with (el (heap_of s) src n).
          rewrite Hrng. fold (draw n).
          destruct (draw n (rng_after draw n (rng_of s))) as [x g] eqn:Hd.
          eexists. split; [reflexivity|]. simpl.
          replace (i * P + S j)%nat with (S n) by lia.
          split; [|split; [|split]].
          + simpl. now rewrite Hd.
          + apply same_except_store_el; auto. lia.
          + intros k Hk. unfold el. simpl heap_of.
            destruct (Nat.eq_dec k n) as [->|Hne].
            * rewrite store_el_same. unfold drawn. now rewrite Hd.
            * rewrite store_el_other by lia. apply Hval. lia.
          + intros k Hk. simpl heap_of.
            rewrite elementwise_safe_read by (auto; lia).
            apply Hrest. lia. }
      destruct Hinner as (s2 & Hrun & HK2).
      exists s2. split; [exact Hrun|].
      now replace (S i * P)%nat with (i * P + P)%nat by lia. }
  destruct Hloop as (s' & Hrun & Hrng & Hfr & Hval & _).
  replace (H * P)%nat with (P * H)%nat in * by lia.
  exists s'. repeat split; auto; apply Hfr.
Qed.

Lemma activation_frame (visible : mat) (i : nat) (h h' : heap) :
  h' ParameterMem = h ParameterMem ->
  h' SlabPenaltyMem = h SlabPenaltyMem ->
  h' (base visible) = h (base visible) ->
  activation p h' visible i = activation p h visible i.
Proof.
  intros H1 H2 H3. unfold activation, projection, slice, at_, el.
  rewrite (wf_slabPenalty p WF), (wf_weight p WF), (wf_spikeBias p WF). simpl.
  now rewrite H1, H2, H3.
Qed.

Lemma slab_positive_frame (h h' : heap) :
  h' SlabPenaltyMem = h SlabPenaltyMem -> slab_positive p h -> slab_positive p h'.
Proof.
  intros Hs Hnz k i Hk Hi. specialize (Hnz k i Hk Hi).
  unfold at_ in *. rewrite (wf_slabPenalty p WF) in *. simpl in *. now rewrite Hs.
Qed.

(** [SampleHidden], step by step. *)
Lemma SampleHidden_spec (input output : mat) (a b : nat) (s : state) :
  n_rows input = visibleSize p -> n_cols input = 1%nat ->
  caller_mat input a -> caller_mat output b -> a <> b ->
  slab_positive p (heap_of s) ->
  let H := hiddenSize p in
  let P := poolSize p in
  exists out s',
    SampleHidden p input output s = Some (out, s') /\
    (n_rows out, n_cols out, base out) = ((H + P * H)%nat, 1%nat, base output) /\
    let h' := heap_of s' in
    let bern := fun i => RandBernoulli (LogisticFn (activation p (heap_of s) input i)) in
    let normal := fun k =>
      RandNormal (SlabMean_value p h' input (spike_part p out) (k mod P) (k / P))
                 (1 / el (heap_of s) (slabPenalty p) k) in
    (forall i, (i < H)%nat -> el h' out i = drawn bern i (rng_of s)) /\
    (forall k, (k < P * H)%nat ->
       el h' out (H + k) = drawn normal k (rng_after bern H (rng_of s))) /\
    rng_of s' = rng_after normal (P * H) (rng_after bern H (rng_of s)) /\
    (forall b', b' <> base output -> h' b' = heap_of s b').
Proof.
  intros Hir Hic Ha Hb Hab Hpos H P. unfold caller_mat in Ha, Hb.
  pose proof (wf_slabPenalty p WF) as Esp.
  unfold SampleHidden.
  erewrite bind_Some; [|apply assert_eqb; unfold n_elem; rewrite Hir, Hic; lia].
  destruct (set_size_spec output (hiddenSize p + poolSize p * hiddenSize p) 1 s)
    as (s0 & R0 & G0 & F0 & _).
  rewrite (bind_Some _ _ _ _ _ R0).
  set (out := Mat (hiddenSize p + poolSize p * hiddenSize p) 1 (base output) _) in *.
  assert (Hob : base out = base output) by reflexivity.
  assert (Hor : n_rows out = (H + P * H)%nat) by reflexivity.
  assert (Hoc : n_cols out = 1%nat) by reflexivity.
  clearbody out. clear R0. rewrite Hb in F0.
  set (spike := alias out 0 (hiddenSize p) 1).
  set (slab := alias out (hiddenSize p) (poolSize p) (hiddenSize p)).
  assert (Hsb : base spike = CallerMem b) by (unfold spike; simpl; congruence).
  assert (Hlb : base slab = CallerMem b) by (unfold slab; simpl; congruence).
  assert (Hpos0 : slab_positive p (heap_of s0)).
  { apply (slab_positive_frame (heap_of s)); auto. apply F0. discriminate. }
  (* SpikeMean *)
  destruct (SpikeMean_value input spike s0) as (s1 & R1 & G1 & F1 & V1); auto;
    try (rewrite Hsb; try discriminate; rewrite Ha; congruence).
  { now apply slab_positive_nonzero. }
  rewrite (bind_Some _ _ _ _ _ R1).
  (* SampleSpike, in place *)
  destruct (SampleSpike_spec_gen spike spike s1) as (s2 & R2 & G2 & F2 & V2); auto.
  { right. reflexivity. }
  rewrite (bind_Some _ _ _ _ _ R2).
  (* SlabMean *)
  assert (B1 : forall b', b' <> CallerMem b -> heap_of s1 b' = heap_of s0 b').
  { intros b' Nb. apply F1. now rewrite Hsb. }
  assert (B2 : forall b', b' <> CallerMem b -> heap_of s2 b' = heap_of s1 b').
  { intros b' Nb. apply F2. now rewrite Hsb. }
  assert (Hpos2 : slab_positive p (heap_of s2)).
  { apply (slab_positive_frame (heap_of s0)); auto.
    rewrite B2, B1; auto; discriminate. }
  destruct (SlabMean_spec_gen input spike slab s2) as (s3 & R3 & G3 & F3 & V3); auto;
    try (rewrite Hlb; try discriminate; rewrite Ha; congruence).
  { right. left. unfold spike, slab. simpl. lia. }
  { now apply slab_positive_nonzero. }
  rewrite (bind_Some _ _ _ _ _ R3).
  assert (B3 : forall b', b' <> CallerMem b -> heap_of s3 b' = heap_of s2 b').
  { intros b' Nb. apply F3. now rewrite Hlb. }
  (* SampleSlab, in place *)
  destruct (SampleSlab_spec slab slab s3) as (s4 & R4 & G4 & F4 & V4); auto.
  { rewrite Hlb. discriminate. }
  { right. reflexivity. }
  { apply (slab_positive_frame (heap_of s2)); auto. apply B3. discriminate. }
  rewrite (bind_Some _ _ _ _ _ R4).
  assert (B4 : forall b', b' <> CallerMem b -> heap_of s4 b' = heap_of s3 b').
  { intros b' Nb. apply F4. now rewrite Hlb. }
  exists out, s4. split; [reflexivity|].
  split; [now rewrite Hor, Hoc, Hob|]. cbv zeta.
  (* the spike cells after the in-place sampling *)
  assert (Hspike4 : forall i, (i < hiddenSize p)%nat ->
            el (heap_of s4) spike i = el (heap_of s2) spike i).
  { intros i Hi.
    rewrite (same_except_el _ _ _ _ _ spike i F4)
      by (right; left; unfold spike, slab; simpl; lia).
    apply (same_except_el _ _ _ _ _ spike i F3).
    right; left; unfold spike, slab; simpl; lia. }
  assert (Hmean : forall i, (i < hiddenSize p)%nat ->
            el (heap_of s1) spike i = LogisticFn (activation p (heap_of s) input i)).
  { intros i Hi. rewrite V1 by auto. f_equal.
    apply activation_frame; apply F0; rewrite ?Ha; try discriminate. congruence. }
  assert (Hbern : forall i, (i < hiddenSize p)%nat ->
            el (heap_of s2) spike i =
            drawn (fun i => RandBernoulli (LogisticFn (activation p (heap_of s) input i)))
              i (rng_of s)).
  { intros i Hi. rewrite V2 by auto. rewrite G1, G0.
    apply drawn_ext. intros j Hj. rewrite Hmean; auto. lia. }
  assert (Hrng2 : rng_of s2 =
            rng_after (fun i => RandBernoulli (LogisticFn (activation p (heap_of s) input i)))
              (hiddenSize p) (rng_of s)).
  { rewrite G2, G1, G0. apply rng_after_ext. intros j Hj. now rewrite Hmean. }
  assert (Hnormal : forall j, (j < poolSize p * hiddenSize p)%nat ->
    RandNormal (el (heap_of s3) slab j) (1 / el (heap_of s3) (slabPenalty p) j) =
    RandNormal (SlabMean_value p (heap_of s4) input (spike_part p out)
                  (j mod poolSize p) (j / poolSize p))
               (1 / el (heap_of s) (slabPenalty p) j)).
  { intros j Hj.
    assert (HP0 : (0 < poolSize p)%nat) by (destruct (poolSize p); simpl in Hj; lia).
    assert (Hdiv : (j / poolSize p < hiddenSize p)%nat).
    { apply Nat.Div0.div_lt_upper_bound. lia. }
    assert (Hmod : (j mod poolSize p < poolSize p)%nat) by (apply Nat.mod_upper_bound; lia).
    f_equal.
    - transitivity (at_ (heap_of s3) slab (j mod poolSize p) (j / poolSize p)).
      { unfold el, at_. simpl. do 2 f_equal.
        rewrite (Nat.div_mod_eq j (poolSize p)) at 1. lia. }
      rewrite V3 by auto.
      symmetry.
      apply (SlabMean_rhs_frame_cell_value input spike _ _ (heap_of s2) (heap_of s4));
        [ rewrite B4, B3; auto; discriminate
        | rewrite B4, B3; auto; discriminate
        | rewrite B4, B3; auto; rewrite Ha; congruence
        | now apply Hspike4 ].
    - f_equal. unfold el. rewrite Esp. simpl.
      rewrite B3, B2, B1, F0; auto; discriminate. }
  split; [|split; [|split]].
  - intros i Hi.
    replace (el (heap_of s4) out i) with (el (heap_of s4) spike i)
      by (unfold el, spike; simpl; f_equal; lia).
    rewrite Hspike4 by auto. now apply Hbern.
  - intros k Hk.
    replace (el (heap_of s4) out (H + k)) with (el (heap_of s4) slab k)
      by (unfold el, slab; simpl; f_equal; lia).
    rewrite V4 by auto. rewrite G3, Hrng2.
    apply drawn_ext. intros j Hj. apply Hnormal. unfold P, H in Hk. lia.
  - rewrite G4, G3, Hrng2. apply rng_after_ext. intros j Hj. now apply Hnormal.
  - intros b' Nb. rewrite Hb in Nb. rewrite B4, B3, B2, B1, F0; auto.
Qed.

End InferenceMore.

Section Rejections.
Context {E : Env}.
Variable p : SpikeSlabRBMPolicy.
Hypothesis WF : well_formed p.

Lemma SampleSlab_cell_keeps (slabMean slab : mat) (i j : nat) (s s' : state) :
  base slab <> SlabPenaltyMem ->
  (sp <- read_at (slabPenalty p) j i ;;
   assert (Rltb 0 sp) ;;;
   m <- read_at slabMean j i ;;
   x <- rand_normal m (1 / sp) ;;
   write_at slab j i x) s = Some (tt, s') ->
  heap_of s' SlabPenaltyMem = heap_of s SlabPenaltyMem.
Proof.
  intros Hb. unfold bind, read_at, eval, assert, rand_normal, write_at, modify.
  destruct (Rltb 0 _); simpl; [|discriminate].
  destruct (RandNormal _ _ _) as [x g]. intros Hs. inversion Hs. simpl.
  rewrite store_el_other_buf; auto.
Qed.

Lemma SampleSlab_rejects (slabMean slab : mat) (s : state) (j0 i0 : nat) :
  base slab <> SlabPenaltyMem ->
  (j0 < poolSize p)%nat -> (i0 < hiddenSize p)%nat ->
  ~ 0 < at_ (heap_of s) (slabPenalty p) j0 i0 ->
  SampleSlab p slabMean slab s = None.
Proof.
  intros Hb Hj Hi Hbad. unfold SampleSlab. rewrite !bind_assert.
  repeat match goal with
         | |- (if ?b then _ else _) = None => destruct b eqn:?; [|reflexivity]
         end.
  set (I := fun s1 : state => heap_of s1 SlabPenaltyMem = heap_of s SlabPenaltyMem).
  assert (Hcell : forall i k s1 s2,
    (sp <- read_at (slabPenalty p) k i ;;
     assert (Rltb 0 sp) ;;;
     m <- read_at slabMean k i ;;
     x <- rand_normal m (1 / sp) ;;
     write_at slab k i x) s1 = Some (tt, s2) -> I s1 -> I s2).
  { intros i k s1 s2 Hrun HI. unfold I in *.
    now rewrite (SampleSlab_cell_keeps slabMean slab i k s1 s2 Hb Hrun). }
  apply (for_fails I _ i0); auto; [| |reflexivity].
  - intros i s1 s2 Hrun HI. revert Hrun HI. apply for_keeps.
    intros k s3 s4. apply Hcell.
  - intros s1 HI. apply (for_fails I _ j0); auto.
    + intros k s3 s4. apply Hcell.
    + intros s2 HI2. unfold bind at 1, read_at at 1, eval.
      replace (at_ (heap_of s2) (slabPenalty p) j0 i0)
        with (at_ (heap_of s) (slabPenalty p) j0 i0)
        by (unfold at_; rewrite (wf_slabPenalty p WF); simpl; now rewrite HI2).
      rewrite (Rltb_false _ _ Hbad). reflexivity.
Qed.

Lemma SampleVisible_draw_rejects (output : mat) (s : state) (i0 : nat) :
  base output <> ParameterMem ->
  (i0 < visibleSize p)%nat ->
  ~ 0 < el (heap_of s) (visiblePenalty p) i0 ->
  SampleVisible_draw p output s = None.
Proof.
  intros Hb Hi Hbad. unfold SampleVisible_draw.
  set (I := fun s1 : state => heap_of s1 ParameterMem = heap_of s ParameterMem).
  apply (for_fails I _ i0); auto; [| |reflexivity].
  - intros k s1 s2. unfold I, bind, read, eval, assert, rand_normal, write, modify.
    destruct (Rltb 0 _); simpl; [|discriminate].
    destruct (RandNormal _ _ _) as [x g]. intros Hs HI. inversion Hs. simpl.
    rewrite store_el_other_buf; auto.
  - intros s1 HI. unfold bind at 1, read at 1, eval.
    replace (el (heap_of s1) (visiblePenalty p) i0)
      with (el (heap_of s) (visiblePenalty p) i0)
      by (unfold el; rewrite (wf_visiblePenalty p WF); simpl; now rewrite HI).
    rewrite (Rltb_false _ _ Hbad). reflexivity.
Qed.

End Rejections.

(** ** SpikeMean, SampleSpike, SlabMean *)

(** X4. [SpikeMean] stores, for every hidden unit [i], the logistic function
    of [spikeBias(i) + sum_k (visible^T weight[i][:,k])^2 / (2 slabPenalty(k,i))]
    -- the very quantity whose softplus [FreeEnergy] subtracts.  It writes
    the [hiddenSize] cells of its result and nothing else, and makes no
    draw. *)
Theorem SpikeMean_closed_form {E : Env} (p : SpikeSlabRBMPolicy)
    (visible spikeMean : mat) (s : state) :
  well_formed p ->
  n_rows visible = visibleSize p -> n_cols visible = 1%nat ->
  n_rows spikeMean = hiddenSize p -> n_cols spikeMean = 1%nat ->
  base spikeMean <> ParameterMem -> base spikeMean <> SlabPenaltyMem ->
  base spikeMean <> base visible ->
  slab_nonzero p (heap_of s) ->
  exists s',
    SpikeMean p visible spikeMean s = Some (tt, s') /\
    rng_of s' = rng_of s /\
    same_except (base spikeMean) (off spikeMean) (off spikeMean + hiddenSize p)
      (heap_of s) (heap_of s') /\
    forall i, (i < hiddenSize p)%nat ->
      el (heap_of s') spikeMean i = LogisticFn (activation p (heap_of s) visible i).
Proof. intros WF. apply (SpikeMean_value p WF). Qed.

Lemma SpikeMean_closed_form_witness :
  let E := tape_env 0 in
  let p := demo_policy 2 2 1 10 in
  let visible := Mat 2 1 (CallerMem 0) 0 in
  let s := @State E (demo_heap [3; 4; 5; 6; 0; 0; 1; 1] [1; 2] [7; 8] []) [] in
  exists s',
    SpikeMean p visible (spikeMean p) s = Some (tt, s') /\
    rng_of s' = rng_of s /\
    same_except SpikeMeanMem 0 (0 + 2) (heap_of s) (heap_of s') /\
    forall i, (i < 2)%nat ->
      el (heap_of s') (spikeMean p) i = LogisticFn (activation p (heap_of s) visible i).
Proof.
  apply (@SpikeMean_closed_form (tape_env 0) (demo_policy 2 2 1 10)
           (Mat 2 1 (CallerMem 0) 0) (spikeMean (demo_policy 2 2 1 10))).
  - apply demo_well_formed.
  - reflexivity.
  - reflexivity.
  - reflexivity.
  - reflexivity.
  - discriminate.
  - discriminate.
  - discriminate.
  - intros k i Hk Hi. simpl in Hk, Hi. unfold at_. simpl.
    destruct k as [|k]; [|lia]. destruct i as [|[|i]]; simpl; try lra. lia.
Defined.

(** X5. [SampleSpike] makes exactly one Bernoulli draw per hidden unit, in
    index order, unit [i] with success probability [spikeMean(i)].  It writes
    the [hiddenSize] cells of its result and nothing else.  This also holds
    when it samples in place (the same matrix as mean and as result), as
    [SampleHidden] calls it. *)
Theorem SampleSpike_draws {E : Env} (p : SpikeSlabRBMPolicy)
    (spikeMean spike : mat) (s : state) :
  n_rows spikeMean = hiddenSize p -> n_cols spikeMean = 1%nat ->
  n_rows spike = hiddenSize p -> n_cols spike = 1%nat ->
  elementwise_safe spikeMean spike ->
  let draw := fun i => RandBernoulli (el (heap_of s) spikeMean i) in
  exists s',
    SampleSpike p spikeMean spike s = Some (tt, s') /\
    rng_of s' = rng_after draw (hiddenSize p) (rng_of s) /\
    same_except (base spike) (off spike) (off spike + hiddenSize p)
      (heap_of s) (heap_of s') /\
    forall i, (i < hiddenSize p)%nat -> el (heap_of s') spike i = drawn draw i (rng_of s).
Proof. apply SampleSpike_spec_gen. Qed.

Lemma SampleSpike_draws_witness :
  let E := tape_env 0 in
  let p := demo_policy 1 2 1 10 in
  let spike := Mat 2 1 (CallerMem 0) 0 in
  let s := @State E (demo_heap [] [] [0.25; 0.75] []) [0.5; 0.5] in
  let draw := fun i => RandBernoulli (el (heap_of s) spike i) in
  exists s',
    SampleSpike p spike spike s = Some (tt, s') /\
    rng_of s' = rng_after draw 2 (rng_of s) /\
    same_except (CallerMem 0) 0 (0 + 2) (heap_of s) (heap_of s') /\
    forall i, (i < 2)%nat -> el (heap_of s') spike i = drawn draw i (rng_of s).
Proof.
  apply (@SampleSpike_draws (tape_env 0) (demo_policy 1 2 1 10)
           (Mat 2 1 (CallerMem 0) 0) (Mat 2 1 (CallerMem 0) 0)).
  - reflexivity.
  - reflexivity.
  - reflexivity.
  - reflexivity.
  - right. reflexivity.
Defined.

(** X6. [SlabMean] stores in cell (c, i) of its result
    [spike(i) / slabPenalty(c,i) * sum_r weight(r,c,i) * visible(r)].  It
    writes the [poolSize * hiddenSize] cells of the result and nothing else,
    and makes no draw.  This also holds when the spike vector and the result
    are two parts of one buffer, as in [SampleHidden]. *)
Theorem SlabMean_closed_form {E : Env} (p : SpikeSlabRBMPolicy)
    (visible spike slabMean : mat) (s : state) :
  well_formed p ->
  n_rows visible = visibleSize p -> n_cols visible = 1%nat ->
  n_rows spike = hiddenSize p -> n_cols spike = 1%nat ->
  n_rows slabMean = poolSize p -> n_cols slabMean = hiddenSize p ->
  base slabMean <> ParameterMem -> base slabMean <> SlabPenaltyMem ->
  base slabMean <> base visible ->
  (base spike <> base slabMean \/
   (off spike + hiddenSize p <= off slabMean)%nat \/
   (off slabMean + poolSize p * hiddenSize p <= off spike)%nat) ->
  slab_nonzero p (heap_of s) ->
  exists s',
    SlabMean p visible spike slabMean s = Some (tt, s') /\
    rng_of s' = rng_of s /\
    same_except (base slabMean) (off slabMean)
      (off slabMean + poolSize p * hiddenSize p) (heap_of s) (heap_of s') /\
    forall i c, (i < hiddenSize p)%nat -> (c < poolSize p)%nat ->
      at_ (heap_of s') slabMean c i =
      el (heap_of s) spike i * / at_ (heap_of s) (slabPenalty p) c i *
      sum (visibleSize p) (fun r =>
        get (slice (heap_of s) (weight p) i) r c * at_ (heap_of s) visible r 0).
Proof. intros WF. apply (SlabMean_spec_gen p WF). Qed.

Lemma SlabMean_closed_form_witness :
  let E := tape_env 0 in
  let p := demo_policy 2 2 1 10 in
  let visible := Mat 2 1 (CallerMem 0) 0 in
  let spike := Mat 2 1 (CallerMem 1) 0 in
  let slab := Mat 1 2 (CallerMem 1) 2 in
  let s := @State E (demo_heap [3; 4; 5; 6; 0; 0; 1; 1] [1; 2] [7; 8] [0; 1; 0; 0]) [] in
  exists s',
    SlabMean p visible spike slab s = Some (tt, s') /\
    rng_of s' = rng_of s /\
    same_except (CallerMem 1) 2 (2 + 1 * 2) (heap_of s) (heap_of s') /\
    forall i c, (i < 2)%nat -> (c < 1)%nat ->
      at_ (heap_of s') slab c i =
      el (heap_of s) spike i * / at_ (heap_of s) (slabPenalty p) c i *
      sum 2 (fun r =>
        get (slice (heap_of s) (weight p) i) r c * at_ (heap_of s) visible r 0).
Proof.
  apply (@SlabMean_closed_form (tape_env 0) (demo_policy 2 2 1 10)
           (Mat 2 1 (CallerMem 0) 0) (Mat 2 1 (CallerMem 1) 0)
           (Mat 1 2 (CallerMem 1) 2)).
  - apply demo_well_formed.
  - reflexivity.
  - reflexivity.
  - reflexivity.
  - reflexivity.
  - reflexivity.
  - reflexivity.
  - discriminate.
  - discriminate.
  - discriminate.
  - right. left. simpl. lia.
  - intros k i Hk Hi. simpl in Hk, Hi. unfold at_. simpl.
    destruct k as [|k]; [|lia]. destruct i as [|[|i]]; simpl; try lra. lia.
Defined.

(** ** SampleSlab and SampleHidden *)

(** X7. [SampleSlab] makes exactly one normal draw per cell, in storage
    order (pool member by pool member within a hidden unit, unit after
    unit); cell [k] is drawn with mean [slabMean[k]] and second argument
    [1 / slabPenalty[k]].  It writes the [poolSize * hiddenSize] cells of its
    result and nothing else, also when it samples in place. *)
Theorem SampleSlab_draws {E : Env} (p : SpikeSlabRBMPolicy)
    (slabMean slab : mat) (s : state) :
  well_formed p ->
  n_rows slabMean = poolSize p -> n_cols slabMean = hiddenSize p ->
  n_rows slab = poolSize p -> n_cols slab = hiddenSize p ->
  base slab <> SlabPenaltyMem ->
  elementwise_safe slabMean slab ->
  slab_positive p (heap_of s) ->
  let draw := fun k => RandNormal (el (heap_of s) slabMean k)
                         (1 / el (heap_of s) (slabPenalty p) k) in
  exists s',
    SampleSlab p slabMean slab s = Some (tt, s') /\
    rng_of s' = rng_after draw (poolSize p * hiddenSize p) (rng_of s) /\
    same_except (base slab) (off slab) (off slab + poolSize p * hiddenSize p)
      (heap_of s) (heap_of s') /\
    forall k, (k < poolSize p * hiddenSize p)%nat ->
      el (heap_of s') slab k = drawn draw k (rng_of s).
Proof. intros WF. apply (SampleSlab_spec p WF). Qed.

Lemma SampleSlab_draws_witness :
  let E := tape_env 0 in
  let p := demo_policy 1 2 2 10 in
  let slab := Mat 2 2 (CallerMem 0) 0 in
  let s := @State E (demo_heap [] [1; 2; 3; 4] [5; 6; 7; 8] []) [1; -1; 2; -2] in
  let draw := fun k => RandNormal (el (heap_of s) slab k)
                         (1 / el (heap_of s) (slabPenalty p) k) in
  exists s',
    SampleSlab p slab slab s = Some (tt, s') /\
    rng_of s' = rng_after draw (2 * 2) (rng_of s) /\
    same_except (CallerMem 0) 0 (0 + 2 * 2) (heap_of s) (heap_of s') /\
    forall k, (k < 2 * 2)%nat -> el (heap_of s') slab k = drawn draw k (rng_of s).
Proof.
  apply (@SampleSlab_draws (tape_env 0) (demo_policy 1 2 2 10)
           (Mat 2 2 (CallerMem 0) 0) (Mat 2 2 (CallerMem 0) 0)).
  - apply demo_well_formed.
  - reflexivity.
  - reflexivity.
  - reflexivity.
  - reflexivity.
  - discriminate.
  - right. reflexivity.
  - intros k i Hk Hi. simpl in Hk, Hi. unfold at_. simpl.
    destruct k as [|[|k]]; destruct i as [|[|i]]; simpl; try lra; lia.
Defined.

(** X8. [SampleSlab] stops on its assertion as soon as one slab precision is
    not strictly positive -- also a negative one, which [SlabMean] and
    [SpikeMean] accept. *)
Theorem SampleSlab_needs_positive_precision {E : Env} (p : SpikeSlabRBMPolicy)
    (slabMean slab : mat) (s : state) (j i : nat) :
  well_formed p ->
  base slab <> SlabPenaltyMem ->
  (j < poolSize p)%nat -> (i < hiddenSize p)%nat ->
  at_ (heap_of s) (slabPenalty p) j i <= 0 ->
  SampleSlab p slabMean slab s = None.
Proof.
  intros WF Hb Hj Hi Hbad. apply (SampleSlab_rejects p WF slabMean slab s j i); auto.
  lra.
Qed.

Lemma SampleSlab_needs_positive_precision_witness :
  let E := tape_env 0 in
  let p := demo_policy 1 2 2 10 in
  let slab := Mat 2 2 (CallerMem 0) 0 in
  let s := @State E (demo_heap [] [1; 2; -3; 4] [5; 6; 7; 8] []) [1; -1; 2; -2] in
  SampleSlab p slab slab s = None.
Proof.
  apply (@SampleSlab_needs_positive_precision (tape_env 0) (demo_policy 1 2 2 10)
           (Mat 2 2 (CallerMem 0) 0) (Mat 2 2 (CallerMem 0) 0) _ 0%nat 1%nat).
  - apply demo_well_formed.
  - discriminate.
  - simpl. lia.
  - simpl. lia.
  - unfold at_. simpl. lra.
Defined.

(** X9. [SampleHidden] returns [H + P*H] entries.  The first [H] are the
    spike SAMPLES (not the means, which [HiddenMean] returns there): one
    Bernoulli draw per unit, in order, with the spike mean of the unit as
    success probability.  The other [P*H] are one normal draw per slab cell,
    in storage order, around the slab mean computed from those samples, with
    second argument [1 / slabPenalty].  A hidden unit whose sample is 0 has
    slab mean 0, so its slab values are drawn around 0; they are not set to
    0.  Nothing but the output buffer changes: the scratch buffers of the
    instance are not used. *)
Theorem SampleHidden_output {E : Env} (p : SpikeSlabRBMPolicy)
    (input output : mat) (a b : nat) (s : state) :
  well_formed p ->
  n_rows input = visibleSize p -> n_cols input = 1%nat ->
  caller_mat input a -> caller_mat output b -> a <> b ->
  slab_positive p (heap_of s) ->
  let H := hiddenSize p in
  let P := poolSize p in
  exists out s',
    SampleHidden p input output s = Some (out, s') /\
    (n_rows out, n_cols out, base out) = ((H + P * H)%nat, 1%nat, base output) /\
    let h' := heap_of s' in
    let bern := fun i => RandBernoulli (LogisticFn (activation p (heap_of s) input i)) in
    let normal := fun k =>
      RandNormal (SlabMean_value p h' input (spike_part p out) (k mod P) (k / P))
                 (1 / el (heap_of s) (slabPenalty p) k) in
    (forall i, (i < H)%nat -> el h' out i = drawn bern i (rng_of s)) /\
    (forall k, (k < P * H)%nat ->
       el h' out (H + k) = drawn normal k (rng_after bern H (rng_of s))) /\
    rng_of s' = rng_after normal (P * H) (rng_after bern H (rng_of s)) /\
    (forall i c, (i < H)%nat -> el h' out i = 0 ->
       SlabMean_value p h' input (spike_part p out) c i = 0) /\
    (forall b', b' <> base output -> h' b' = heap_of s b').
Proof.
  intros WF Hir Hic Ha Hb Hab Hpos H P.
  destruct (SampleHidden_spec p WF input output a b s Hir Hic Ha Hb Hab Hpos)
    as (out & s' & Hrun & Hshape & Hspike & Hslab & Hrng & Hfr).
  exists out, s'. split; [exact Hrun|]. split; [exact Hshape|]. cbv zeta.
  split; [exact Hspike|]. split; [exact Hslab|]. split; [exact Hrng|].
  split; [|exact Hfr].
  intros i c Hi Hz. unfold SlabMean_value.
  replace (el (heap_of s') (spike_part p out) i) with (el (heap_of s') out i)
    by (unfold el, spike_part; simpl; f_equal; lia).
  rewrite Hz. lra.
Qed.

Lemma SampleHidden_output_witness :
  let E := tape_env 0 in
  let p := demo_policy 1 1 1 10 in
  let input := Mat 1 1 (CallerMem 0) 0 in
  let output := Mat 0 0 (CallerMem 1) 0 in
  let s := @State E (demo_heap [1; 0; 1] [1] [1] []) [0; 3] in
  exists out s',
    SampleHidden p input output s = Some (out, s') /\
    (n_rows out, n_cols out, base out) = (2%nat, 1%nat, CallerMem 1) /\
    let h' := heap_of s' in
    let bern := fun i => RandBernoulli (LogisticFn (activation p (heap_of s) input i)) in
    let normal := fun k =>
      RandNormal (SlabMean_value p h' input (spike_part p out) (k mod 1) (k / 1))
                 (1 / el (heap_of s) (slabPenalty p) k) in
    (forall i, (i < 1)%nat -> el h' out i = drawn bern i (rng_of s)) /\
    (forall k, (k < 1 * 1)%nat ->
       el h' out (1 + k) = drawn normal k (rng_after bern 1 (rng_of s))) /\
    rng_of s' = rng_after normal (1 * 1) (rng_after bern 1 (rng_of s)) /\
    (forall i c, (i < 1)%nat -> el h' out i = 0 ->
       SlabMean_value p h' input (spike_part p out) c i = 0) /\
    (forall b', b' <> CallerMem 1 -> h' b' = heap_of s b').
Proof.
  apply (@SampleHidden_output (tape_env 0) (demo_policy 1 1 1 10)
           (Mat 1 1 (CallerMem 0) 0) (Mat 0 0 (CallerMem 1) 0) 0%nat 1%nat).
  - apply demo_well_formed.
  - reflexivity.
  - reflexivity.
  - reflexivity.
  - reflexivity.
  - discriminate.
  - intros k i Hk Hi. simpl in Hk, Hi. unfold at_. simpl.
    destruct k as [|k]; destruct i as [|i]; simpl; try lra; lia.
Defined.

Section ShapeChecks.
Context {E : Env}.

Lemma SpikeMean_rejects_shape (p : SpikeSlabRBMPolicy) (visible spikeMean : mat)
    (s : state) :
  ~ (n_rows visible = visibleSize p /\ n_cols visible = 1%nat) ->
  SpikeMean p visible spikeMean s = None.
Proof.
  intros Hbad. unfold SpikeMean. rewrite !bind_assert.
  destruct (Nat.eqb (n_rows visible) (visibleSize p)) eqn:H1; [|reflexivity].
  destruct (Nat.eqb (n_cols visible) 1) eqn:H2; [|reflexivity].
  apply Nat.eqb_eq in H1. apply Nat.eqb_eq in H2. tauto.
Qed.

End ShapeChecks.

(** X10. The shape checks of [HiddenMean] and [SampleHidden] are weaker than
    those of the operations they call: an input with [visibleSize] elements
    that is not a [visibleSize] x 1 column (a row vector, say) passes their
    own assertion and then stops both on the assertion of [SpikeMean]. *)
Theorem hidden_input_must_be_column {E : Env} (p : SpikeSlabRBMPolicy)
    (input output : mat) (s : state) :
  n_elem input = visibleSize p ->
  ~ (n_rows input = visibleSize p /\ n_cols input = 1%nat) ->
  assert (Nat.eqb (n_elem input) (visibleSize p)) s = Some (tt, s) /\
  HiddenMean p input output s = None /\
  SampleHidden p input output s = None.
Proof.
  intros Hn Hbad. split; [now apply assert_eqb|]. split.
  - unfold HiddenMean. erewrite bind_Some; [|now apply assert_eqb].
    apply bind_None_r. intros out s1. apply bind_None_l.
    now apply SpikeMean_rejects_shape.
  - unfold SampleHidden. erewrite bind_Some; [|now apply assert_eqb].
    apply bind_None_r. intros out s1. apply bind_None_l.
    now apply SpikeMean_rejects_shape.
Qed.

Lemma hidden_input_must_be_column_witness :
  let E := tape_env 0 in
  let p := demo_policy 2 1 1 10 in
  let input := Mat 1 2 (CallerMem 0) 0 in
  let output := Mat 0 0 (CallerMem 1) 0 in
  let s := @State E (demo_heap [1; 1; 0; 1; 1] [1] [1; 1] []) [] in
  assert (Nat.eqb (n_elem input) (visibleSize p)) s = Some (tt, s) /\
  HiddenMean p input output s = None /\
  SampleHidden p input output s = None.
Proof.
  apply (@hidden_input_must_be_column (tape_env 0) (demo_policy 2 1 1 10)
           (Mat 1 2 (CallerMem 0) 0) (Mat 0 0 (CallerMem 1) 0)).
  - reflexivity.
  - simpl. intros [H1 H2]. discriminate.
Defined.

(* ================================================================== *)
(** * Further properties: gradient phases, VisibleMean, SampleVisible   *)
(* ================================================================== *)

Section PhaseFrame.
Context {E : Env}.
Variable p : SpikeSlabRBMPolicy.
Hypothesis WF : well_formed p.

(** A phase writes no gradient cell outside the
    [V*P*H + H + V] cells of the three gradient views. *)
Lemma PositivePhase_gradient_frame (input gradient : mat) (a b : nat) (s : state) :
  n_rows input = visibleSize p -> n_cols input = 1%nat ->
  caller_mat input a -> caller_mat gradient b -> a <> b ->
  slab_nonzero p (heap_of s) ->
  exists s',
    PositivePhase p input gradient s = Some (tt, s') /\
    forall k,
      (k < off gradient \/
       off gradient + visibleSize p * poolSize p * hiddenSize p
         + hiddenSize p + visibleSize p <= k)%nat ->
      heap_of s' (base gradient) k = heap_of s (base gradient) k.
Proof.
  intros Hir Hic Ha Hb Hab Hnz. unfold caller_mat in Ha, Hb.
  pose proof (wf_spikeMean p WF) as Esm.
  pose proof (wf_spikeSamples p WF) as Ess.
  pose proof (wf_slabMean p WF) as Esl.
  unfold PositivePhase, PositivePhase_views. cbv beta iota zeta.
  destruct (SpikeMean_spec p WF input (spikeMean p) s) as (s1 & R1 & G1 & F1 & V1);
    try (rewrite Esm; simpl; (reflexivity || discriminate)); auto.
  { rewrite Esm, Ha. discriminate. }
  rewrite (bind_Some _ _ _ _ _ R1).
  destruct (SampleSpike_spec p (spikeMean p) (spikeSamples p) s1)
    as (s2 & R2 & G2 & F2 & V2);
    try (rewrite ?Esm, ?Ess; simpl; (reflexivity || discriminate)).
  rewrite (bind_Some _ _ _ _ _ R2).
  destruct F1 as [F1 _]. destruct F2 as [F2 _].
  assert (Hnz2 : slab_nonzero p (heap_of s2)).
  { apply (slab_nonzero_frame p WF (heap_of s)); auto.
    rewrite F2, F1; auto; rewrite ?Esm, ?Ess; discriminate. }
  destruct (SlabMean_spec p WF input (spikeSamples p) (slabMean p) s2)
    as (s3 & R3 & G3 & F3 & V3);
    try (rewrite ?Ess, ?Esl; simpl; (reflexivity || discriminate)); auto.
  { rewrite Esl, Ha. discriminate. }
  rewrite (bind_Some _ _ _ _ _ R3). destruct F3 as [F3 _].
  match goal with |- context [for_ _ (fun i => e <- eval (@?f i) ;; assign_slice ?q i e)] =>
    destruct (slice_loop_spec q (hiddenSize p) f s3) as (s4 & R4 & G4 & F4 & V4) end.
  { intros i h h' Hh. simpl in Hh.
    unfold vscale, mul, load, trans, col, at_, el. rewrite Esl, Esm. simpl.
    rewrite !Hh; auto; rewrite ?Ha, Hb; try discriminate. congruence. }
  rewrite (bind_Some _ _ _ _ _ R4). destruct F4 as [_ F4'].
  match goal with |- context [bind (for_ _ (fun i => m <- read ?src i ;; write ?dst i m))] =>
    destruct (write_loop_spec dst (hiddenSize p) (fun i h => el h src i) s4)
      as (s5 & R5 & G5 & F5 & V5) end.
  { intros i h h' Hh. simpl in Hh. unfold el. rewrite Esm. simpl.
    rewrite Hh; auto. rewrite Hb. discriminate. }
  unfold read at 1. rewrite (bind_Some _ _ _ _ _ R5). destruct F5 as [_ F5'].
  match goal with |- context [for_ _ (fun i => x <- read ?src i ;; write ?dst i (@?g x))] =>
    destruct (write_loop_spec dst (visibleSize p) (fun i h => g (el h src i)) s5)
      as (s6 & R6 & G6 & F6 & V6) end.
  { intros i h h' Hh. simpl in Hh. unfold el.
    rewrite Hh; auto. rewrite Ha, Hb. congruence. }
  destruct F6 as [_ F6'].
  simpl in F4', F5', F6'. unfold cube_n_elem, n_elem in F5', F6'. simpl in F5', F6'.
  rewrite Esm in F1. rewrite Ess in F2. rewrite Esl in F3. simpl in F1, F2, F3.
  exists s6. split; [exact R6|].
  intros k Hk.
  assert (Hk2 : (hiddenSize p * (visibleSize p * poolSize p) =
                 visibleSize p * poolSize p * hiddenSize p)%nat) by lia.
  rewrite F6', F5', F4' by lia.
  rewrite Hb. rewrite F3, F2, F1 by discriminate. reflexivity.
Qed.

End PhaseFrame.

(** X11. In both phases the gradient buffer receives, after the
    [V*P*H] weight cells, the spike MEAN of each hidden unit as spike-bias
    gradient (the logistic function of the unit's activation, no sample
    involved) and [-0.5 * input(i)^2] as visible-precision gradient.  No
    gradient cell outside these [V*P*H + H + V] cells is written, and the
    parameters, the slab precisions and the input are left as they were. *)
Theorem phase_bias_and_precision_gradients {E : Env} (p : SpikeSlabRBMPolicy)
    (input gradient : mat) (a b : nat) (s : state) :
  well_formed p ->
  n_rows input = visibleSize p -> n_cols input = 1%nat ->
  caller_mat input a -> caller_mat gradient b -> a <> b ->
  slab_nonzero p (heap_of s) ->
  let V := visibleSize p in
  let H := hiddenSize p in
  let n := (V * poolSize p * H)%nat in
  let claim (phase : SpikeSlabRBMPolicy -> mat -> mat -> M unit) :=
    exists s',
      phase p input gradient s = Some (tt, s') /\
      let h' := heap_of s' in
      (forall i, (i < H)%nat ->
         h' (base gradient) (off gradient + n + i)%nat =
         LogisticFn (activation p (heap_of s) input i)) /\
      (forall i, (i < V)%nat ->
         h' (base gradient) (off gradient + n + H + i)%nat =
         - 0.5 * el (heap_of s) input i * el (heap_of s) input i) /\
      (forall k, (k < off gradient \/ off gradient + n + H + V <= k)%nat ->
         h' (base gradient) k = heap_of s (base gradient) k) /\
      h' ParameterMem = heap_of s ParameterMem /\
      h' SlabPenaltyMem = heap_of s SlabPenaltyMem /\
      h' (base input) = heap_of s (base input) in
  claim PositivePhase /\ claim NegativePhase.
Proof.
  intros WF Hr Hc Ha Hb Hab Hnz V H n claim.
  assert (Hclaim : claim PositivePhase).
  { destruct (PositivePhase_spec p WF input gradient a b s Hr Hc Ha Hb Hab Hnz)
      as (s' & Hrun & Hm & _ & _ & _ & _ & Hbias & Hprec & Hfr).
    destruct (PositivePhase_gradient_frame p WF input gradient a b s Hr Hc Ha Hb Hab Hnz)
      as (s2 & Hrun2 & Hout).
    rewrite Hrun in Hrun2. inversion Hrun2; subst s2.
    unfold caller_mat in Ha, Hb.
    assert (Hin : heap_of s' (base input) = heap_of s (base input)).
    { apply Hfr; rewrite ?Ha, ?Hb; try discriminate. congruence. }
    exists s'. split; [exact Hrun|]. cbv zeta.
    split; [|split; [|split; [|split; [|split]]]].
    - intros i Hi. rewrite Hbias by auto.
      specialize (Hm i Hi).
      rewrite (SpikeMean_rhs_value p WF input i (heap_of s) Hr Hnz Hi) in Hm.
      now injection Hm.
    - intros i Hi. rewrite Hprec by auto. unfold el. now rewrite Hin.
    - exact Hout.
    - apply Hfr; try discriminate. rewrite Hb. discriminate.
    - apply Hfr; try discriminate. rewrite Hb. discriminate.
    - exact Hin. }
  split; [exact Hclaim|]. exact Hclaim.
Qed.

Lemma phase_bias_and_precision_gradients_witness :
  let E := tape_env 0 in
  let p := demo_policy 1 1 1 10 in
  let input := Mat 1 1 (CallerMem 0) 0 in
  let gradient := Mat 3 1 (CallerMem 1) 0 in
  let s := @State E (demo_heap [1; 0; 1] [1] [1] [0; 0; 0]) [] in
  let claim (phase : SpikeSlabRBMPolicy -> mat -> mat -> M unit) :=
    exists s',
      phase p input gradient s = Some (tt, s') /\
      let h' := heap_of s' in
      (forall i, (i < 1)%nat ->
         h' (CallerMem 1) (0 + 1 * 1 * 1 + i)%nat =
         LogisticFn (activation p (heap_of s) input i)) /\
      (forall i, (i < 1)%nat ->
         h' (CallerMem 1) (0 + 1 * 1 * 1 + 1 + i)%nat =
         - 0.5 * el (heap_of s) input i * el (heap_of s) input i) /\
      (forall k, (k < 0 \/ 0 + 1 * 1 * 1 + 1 + 1 <= k)%nat ->
         h' (CallerMem 1) k = heap_of s (CallerMem 1) k) /\
      h' ParameterMem = heap_of s ParameterMem /\
      h' SlabPenaltyMem = heap_of s SlabPenaltyMem /\
      h' (CallerMem 0) = heap_of s (CallerMem 0) in
  claim PositivePhase /\ claim NegativePhase.
Proof.
  apply (@phase_bias_and_precision_gradients (tape_env 0) (demo_policy 1 1 1 10)
           (Mat 1 1 (CallerMem 0) 0) (Mat 3 1 (CallerMem 1) 0) 0%nat 1%nat).
  - apply demo_well_formed.
  - reflexivity.
  - reflexivity.
  - reflexivity.
  - reflexivity.
  - discriminate.
  - apply demo_slab_nonzero. intros k Hk. simpl in Hk.
    destruct k; [reflexivity | lia].
Defined.

(* ================================================================== *)
(** * Further properties of VisibleMean and SampleVisible               *)
(* ================================================================== *)

(** X12. Called with an output that already has [V] elements, all zero,
    [VisibleMean] returns
    [diag(visiblePenalty)^-1 * sum_i weight[i] * slab[:,i] * spike[i]]
    in that same storage; it draws nothing and writes no other buffer. *)
Theorem VisibleMean_on_zeroed_output {E : Env} (p : SpikeSlabRBMPolicy)
    (input output : mat) (a b : nat) (s : state) :
  well_formed p ->
  n_elem input = (hiddenSize p + poolSize p * hiddenSize p)%nat ->
  caller_mat input a -> caller_mat output b -> a <> b ->
  visible_nonzero p (heap_of s) ->
  n_elem output = visibleSize p ->
  (forall k, (k < visibleSize p)%nat -> el (heap_of s) output k = 0) ->
  exists out s',
    VisibleMean p input output s = Some (out, s') /\
    (n_rows out, n_cols out, base out, off out) =
      (visibleSize p, 1%nat, base output, off output) /\
    rng_of s' = rng_of s /\
    (forall b', b' <> base output -> heap_of s' b' = heap_of s b') /\
    forall k, (k < visibleSize p)%nat ->
      el (heap_of s') out k = VisibleMean_value p (heap_of s) input k.
Proof.
  intros WF Hin Ha Hb Hab Hnz Hn Hz.
  destruct (VisibleMean_spec p WF input output a b s Hin Ha Hb Hab Hnz)
    as (s' & Hrun & Hrng & Hfr & Hval).
  assert (Hres : Nat.eqb (n_elem output) (visibleSize p * 1) = true).
  { apply Nat.eqb_eq. lia. }
  rewrite Hres in Hrun, Hval.
  eexists. exists s'. split; [exact Hrun|]. split; [reflexivity|].
  split; [exact Hrng|]. split; [exact Hfr|].
  intros k Hk. rewrite (Hval k Hk), (Hz k Hk). unfold VisibleMean_value.
  now rewrite Rplus_0_l.
Qed.

Lemma VisibleMean_on_zeroed_output_witness :
  let E := tape_env 0 in
  let p := demo_policy 1 1 1 10 in
  let input := Mat 2 1 (CallerMem 0) 0 in
  let output := Mat 1 1 (CallerMem 1) 0 in
  let s := @State E (demo_heap [1; 0; 2] [1] [1; 1] [0]) [] in
  exists out s',
    VisibleMean p input output s = Some (out, s') /\
    (n_rows out, n_cols out, base out, off out) =
      (1%nat, 1%nat, CallerMem 1, 0%nat) /\
    rng_of s' = rng_of s /\
    (forall b', b' <> CallerMem 1 -> heap_of s' b' = heap_of s b') /\
    forall k, (k < 1)%nat ->
      el (heap_of s') out k = VisibleMean_value p (heap_of s) input k.
Proof.
  apply (@VisibleMean_on_zeroed_output (tape_env 0) (demo_policy 1 1 1 10)
           (Mat 2 1 (CallerMem 0) 0) (Mat 1 1 (CallerMem 1) 0) 0%nat 1%nat).
  - apply demo_well_formed.
  - reflexivity.
  - reflexivity.
  - reflexivity.
  - discriminate.
  - intros i Hi. simpl in Hi. assert (i = 0%nat) as -> by lia.
    unfold el. simpl. lra.
  - reflexivity.
  - intros k Hk. simpl in Hk. assert (k = 0%nat) as -> by lia. reflexivity.
Defined.

(** X13. [VisibleMean] needs the visible precisions only to be non-zero,
    [SampleVisible] needs them positive: with a negative visible precision
    [VisibleMean] still returns, but [SampleVisible] stops at its assertion
    in the first pass. *)
Theorem SampleVisible_needs_positive_precision {E : Env} (p : SpikeSlabRBMPolicy)
    (input output : mat) (a b : nat) (s : state) (i0 : nat) :
  well_formed p ->
  n_elem input = (hiddenSize p + poolSize p * hiddenSize p)%nat ->
  caller_mat input a -> caller_mat output b -> a <> b ->
  visible_nonzero p (heap_of s) ->
  (i0 < visibleSize p)%nat ->
  el (heap_of s) (visiblePenalty p) i0 < 0 ->
  (exists out s1, VisibleMean p input output s = Some (out, s1)) /\
  SampleVisible p input output s = None.
Proof.
  intros WF Hin Ha Hb Hab Hnz Hi0 Hneg.
  destruct (VisibleMean_spec p WF input output a b s Hin Ha Hb Hab Hnz)
    as (s1 & Hmean & _ & Hfr & _).
  set (out := Mat (visibleSize p) 1 (base output) _) in *.
  unfold caller_mat in Hb.
  assert (Hob : base out <> ParameterMem).
  { unfold out. simpl. rewrite Hb. discriminate. }
  assert (Hpar : heap_of s1 ParameterMem = heap_of s ParameterMem).
  { apply Hfr. rewrite Hb. discriminate. }
  split; [exists out, s1; exact Hmean|].
  unfold SampleVisible. rewrite (bind_Some _ _ _ _ _ Hmean).
  apply bind_None_l. unfold numMaxTrials. simpl SampleVisible_trials.
  apply bind_None_l.
  apply (SampleVisible_draw_rejects p WF out s1 i0 Hob Hi0).
  unfold el in *. rewrite (wf_visiblePenalty p WF) in *. simpl in *.
  rewrite Hpar. lra.
Qed.

Lemma SampleVisible_needs_positive_precision_witness :
  let E := tape_env 0 in
  let p := demo_policy 1 1 1 10 in
  let input := Mat 2 1 (CallerMem 0) 0 in
  let output := Mat 1 1 (CallerMem 1) 0 in
  let s := @State E (demo_heap [1; 0; -1] [1] [1; 1] [0]) [] in
  (exists out s1, VisibleMean p input output s = Some (out, s1)) /\
  SampleVisible p input output s = None.
Proof.
  apply (@SampleVisible_needs_positive_precision (tape_env 0) (demo_policy 1 1 1 10)
           (Mat 2 1 (CallerMem 0) 0) (Mat 1 1 (CallerMem 1) 0) 0%nat 1%nat
           (@State (tape_env 0) (demo_heap [1; 0; -1] [1] [1; 1] [0]) []) 0%nat).
  - apply demo_well_formed.
  - reflexivity.
  - reflexivity.
  - reflexivity.
  - discriminate.
  - intros i Hi. simpl in Hi. assert (i = 0%nat) as -> by lia.
    unfold el. simpl. lra.
  - simpl. lia.
  - unfold el. simpl. lra.
Defined.

Section NormSign.

Lemma norm_nonneg (v : val) : 0 <= norm v.
Proof. unfold norm. apply sqrt_pos. Qed.

End NormSign.

(** X14. With a radius that is not positive no draw is ever accepted:
    [SampleVisible] makes all 10 passes, one after the other, and returns
    the tenth draw. *)
Theorem SampleVisible_nonpositive_radius {E : Env} (p : SpikeSlabRBMPolicy)
    (input output : mat) (a b : nat) (s : state) :
  well_formed p ->
  n_elem input = (hiddenSize p + poolSize p * hiddenSize p)%nat ->
  caller_mat input a -> caller_mat output b -> a <> b ->
  visible_positive p (heap_of s) ->
  radius p <= 0 ->
  exists out s1 s',
    VisibleMean p input output s = Some (out, s1) /\
    SampleVisible p input output s = Some (out, s') /\
    SampleVisible_draws p out numMaxTrials s1 = Some (tt, s').
Proof.
  intros WF Hin Ha Hb Hab Hpos Hrad.
  destruct (VisibleMean_spec p WF input output a b s Hin Ha Hb Hab
              (visible_positive_nonzero p _ Hpos)) as (s1 & Hmean & _ & Hfr & _).
  set (out := Mat (visibleSize p) 1 (base output) _) in *.
  unfold caller_mat in Hb.
  assert (Hob : base out <> ParameterMem).
  { unfold out. simpl. rewrite Hb. discriminate. }
  assert (Hpos1 : visible_positive p (heap_of s1)).
  { apply (visible_positive_frame p WF (heap_of s)); [|exact Hpos].
    apply Hfr. rewrite Hb. discriminate. }
  destruct (SampleVisible_trials_spec p WF out numMaxTrials Hob s1 Hpos1)
    as (n & s' & Hrun & Hn & _ & Hdraws & _ & Hstop).
  exists out, s1, s'. split; [exact Hmean|]. split.
  { unfold SampleVisible. rewrite (bind_Some _ _ _ _ _ Hmean).
    now rewrite (bind_Some _ _ _ _ _ Hrun). }
  destruct (Nat.eq_dec n numMaxTrials) as [<-|Hne]; [exact Hdraws|].
  exfalso. assert (Hlt : (n < numMaxTrials)%nat) by lia.
  specialize (Hstop Hlt).
  pose proof (norm_nonneg (load (heap_of s') out)). lra.
Qed.

Lemma SampleVisible_nonpositive_radius_witness :
  let E := tape_env 0 in
  let p := demo_policy 1 1 1 0 in
  let input := Mat 2 1 (CallerMem 0) 0 in
  let output := Mat 1 1 (CallerMem 1) 0 in
  let s := @State E (demo_heap [1; 0; 1] [1] [1; 0] [0]) [] in
  exists out s1 s',
    VisibleMean p input output s = Some (out, s1) /\
    SampleVisible p input output s = Some (out, s') /\
    SampleVisible_draws p out numMaxTrials s1 = Some (tt, s').
Proof.
  apply (@SampleVisible_nonpositive_radius (tape_env 0) (demo_policy 1 1 1 0)
           (Mat 2 1 (CallerMem 0) 0) (Mat 1 1 (CallerMem 1) 0) 0%nat 1%nat).
  - apply demo_well_formed.
  - reflexivity.
  - reflexivity.
  - reflexivity.
  - discriminate.
  - intros i Hi. simpl in Hi. assert (i = 0%nat) as -> by lia.
    unfold el. simpl. lra.
  - simpl. lra.
Defined.

(** X15. One pass of the inner loop of [SampleVisible] makes exactly [V]
    normal draws, in index order: unit [i] is drawn around the value
    [output(i)] held when the pass began, with second argument
    [1 / visiblePenalty[i]], and the draw replaces that value.  No cell
    outside the [V] output cells is written. *)
Theorem SampleVisible_pass {E : Env} (p : SpikeSlabRBMPolicy)
    (output : mat) (b : nat) (s : state) :
  well_formed p ->
  caller_mat output b ->
  visible_positive p (heap_of s) ->
  let draw := fun i => RandNormal (el (heap_of s) output i)
                         (1 / el (heap_of s) (visiblePenalty p) i) in
  exists s',
    SampleVisible_draw p output s = Some (tt, s') /\
    rng_of s' = rng_after draw (visibleSize p) (rng_of s) /\
    (forall i, (i < visibleSize p)%nat ->
       el (heap_of s') output i = drawn draw i (rng_of s)) /\
    same_except (base output) (off output) (off output + visibleSize p)
      (heap_of s) (heap_of s').
Proof.
  intros WF Hb Hpos draw. unfold caller_mat in Hb.
  assert (Hob : base output <> ParameterMem) by (rewrite Hb; discriminate).
  destruct (SampleVisible_draw_spec p WF output s Hob Hpos)
    as (s' & Hrun & Hrng & Hfr & Hval).
  exists s'. split; [exact Hrun|]. split; [exact Hrng|].
  split; [exact Hval|exact Hfr].
Qed.

Lemma SampleVisible_pass_witness :
  let E := tape_env 0 in
  let p := demo_policy 2 1 1 10 in
  let output := Mat 2 1 (CallerMem 1) 0 in
  let s := @State E (demo_heap [1; 1; 0; 1; 4] [1] [] [3; 5]) [2; -2] in
  let draw := fun i => RandNormal (el (heap_of s) output i)
                         (1 / el (heap_of s) (visiblePenalty p) i) in
  exists s',
    SampleVisible_draw p output s = Some (tt, s') /\
    rng_of s' = rng_after draw 2 (rng_of s) /\
    (forall i, (i < 2)%nat ->
       el (heap_of s') output i = drawn draw i (rng_of s)) /\
    same_except (CallerMem 1) 0 (0 + 2) (heap_of s) (heap_of s').
Proof.
  apply (@SampleVisible_pass (tape_env 0) (demo_policy 2 1 1 10)
           (Mat 2 1 (CallerMem 1) 0) 1%nat
           (@State (tape_env 0) (demo_heap [1; 1; 0; 1; 4] [1] [] [3; 5]) [2; -2])).
  - apply demo_well_formed.
  - reflexivity.
  - intros i Hi. simpl in Hi. unfold el. simpl.
    destruct i as [|[|i]]; simpl; try lra. lia.
Defined.

(* ================================================================== *)
(** * Further properties of FreeEnergy                                  *)
(* ================================================================== *)

Section FreeEnergyRuns.
Context {E : Env}.

Lemma sum_opp n (f : nat -> R) : sum n (fun k => - f k) = - sum n f.
Proof. induction n as [|n IH]; simpl; [lra|]. rewrite IH. lra. Qed.

Lemma bind_eval {A B} (f : heap -> A) (k : A -> M B) (s : state) :
  bind (eval f) k s = k (f (heap_of s)) s.
Proof. reflexivity. Qed.

(** An accumulating loop whose body adds a term computed from the heap
    returns the start value plus the sum of the terms and leaves the state
    as it was. *)
Lemma for_acc_sum (n : nat) (t : nat -> heap -> R) (body : nat -> R -> M R)
    (a : R) (s : state) :
  (forall k acc, (k < n)%nat -> body k acc s = Some (acc + t k (heap_of s), s)) ->
  for_acc n body a s = Some (a + sum n (fun k => t k (heap_of s)), s).
Proof.
  intros Hbody.
  destruct (for_acc_inv
              (fun k acc s' => s' = s /\ acc = a + sum k (fun j => t j (heap_of s)))
              body n a s) as (a' & s' & Hrun & Hs & Ha).
  - split; [reflexivity | simpl; lra].
  - intros k acc s1 Hk [Hs Ha]. subst s1 acc.
    eexists. exists s. split; [apply Hbody; exact Hk|].
    split; [reflexivity | simpl; lra].
  - subst s' a'. exact Hrun.
Qed.

Variable p : SpikeSlabRBMPolicy.

(** The value [FreeEnergy] returns, as the code computes it. *)
Lemma FreeEnergy_runs (input : mat) (s : state) :
  n_rows input = visibleSize p -> n_cols input = 1%nat ->
  let h := heap_of s in
  FreeEnergy p input s =
  Some (0.5 * as_scalar (trans (load h input) ** diagmat (load h (visiblePenalty p))
                           ** load h input)
        + sum (hiddenSize p) (fun i =>
            sum (poolSize p) (fun k =>
              - (0.5 * ln (2 * PI / at_ h (slabPenalty p) k i))))
        + sum (hiddenSize p) (fun i =>
            - SoftplusFn (el h (spikeBias p) i +
                sum (poolSize p) (fun k =>
                  as_scalar (trans (load h input) ** col (slice h (weight p) i) k) *
                  as_scalar (trans (load h input) ** col (slice h (weight p) i) k) /
                  (2 * at_ h (slabPenalty p) k i)))), s).
Proof.
  intros Hr Hc h. unfold FreeEnergy.
  rewrite !bind_assert, Hr, Hc, !Nat.eqb_refl, bind_eval.
  match goal with |- bind (for_acc _ ?body ?a0) _ _ = _ =>
    assert (H1 : for_acc (hiddenSize p) body a0 s =
                 Some (a0 + sum (hiddenSize p) (fun i =>
                         sum (poolSize p) (fun k =>
                           - (0.5 * ln (2 * PI / at_ (heap_of s) (slabPenalty p) k i)))), s))
  end.
  { apply (for_acc_sum (hiddenSize p)
             (fun i h => sum (poolSize p) (fun k =>
                - (0.5 * ln (2 * PI / at_ h (slabPenalty p) k i))))).
    intros i acc Hi.
    apply (for_acc_sum (poolSize p)
             (fun k h => - (0.5 * ln (2 * PI / at_ h (slabPenalty p) k i)))).
    intros k acc' Hk. rewrite bind_eval. unfold ret. do 2 f_equal. }
  rewrite (bind_Some _ _ _ _ _ H1).
  apply (for_acc_sum (hiddenSize p)
           (fun i h =>
              - SoftplusFn (el h (spikeBias p) i +
                  sum (poolSize p) (fun k =>
                    as_scalar (trans (load h input) ** col (slice h (weight p) i) k) *
                    as_scalar (trans (load h input) ** col (slice h (weight p) i) k) /
                    (2 * at_ h (slabPenalty p) k i))))).
  intros i acc Hi.
  match goal with |- bind (for_acc _ ?body ?a0) _ _ = _ =>
    assert (H2 : for_acc (poolSize p) body a0 s =
                 Some (0 + sum (poolSize p) (fun k =>
                   as_scalar (trans (load (heap_of s) input) **
                              col (slice (heap_of s) (weight p) i) k) *
                   as_scalar (trans (load (heap_of s) input) **
                              col (slice (heap_of s) (weight p) i) k) /
                   (2 * at_ (heap_of s) (slabPenalty p) k i)), s))
  end.
  { apply (for_acc_sum (poolSize p)
             (fun k h =>
                as_scalar (trans (load h input) ** col (slice h (weight p) i) k) *
                as_scalar (trans (load h input) ** col (slice h (weight p) i) k) /
                (2 * at_ h (slabPenalty p) k i))).
    intros k acc' Hk. rewrite bind_eval. reflexivity. }
  rewrite (bind_Some _ _ _ _ _ H2). unfold read. rewrite bind_eval. unfold ret.
  do 2 f_equal. rewrite Rplus_0_l. reflexivity.
Qed.


Hypothesis WF : well_formed p.

(** [input^T * diagmat(visiblePenalty) * input] written out. *)
Lemma quadratic_form (input : mat) (h : heap) :
  n_rows input = visibleSize p ->
  as_scalar (trans (load h input) ** diagmat (load h (visiblePenalty p))
               ** load h input) =
  sum (visibleSize p) (fun r =>
    at_ h input r 0 * el h (visiblePenalty p) r * at_ h input r 0).
Proof.
  intros Hr. unfold as_scalar, mul, trans, diagmat, load. simpl.
  rewrite (wf_visiblePenalty p WF). simpl. rewrite Hr.
  apply sum_ext. intros k Hk. f_equal.
  rewrite (sum_single (visibleSize p) k); auto.
  - rewrite Nat.eqb_refl. f_equal. unfold at_, el. simpl. f_equal. lia.
  - intros j Hj Hne. apply Nat.eqb_neq in Hne. rewrite Hne. lra.
Qed.

(** [input^T * weight[i].col(k)] written out. *)
Lemma projection_value (input : mat) (h : heap) (i k : nat) :
  n_rows input = visibleSize p ->
  as_scalar (trans (load h input) ** col (slice h (weight p) i) k) =
  projection p h input i k.
Proof.
  intros Hr. unfold as_scalar, mul, trans, col, load, projection. simpl.
  rewrite Hr. apply sum_ext. intros r Hrk. now rewrite Nat.add_0_r.
Qed.

Lemma FreeEnergy_spec (input : mat) (s : state) :
  n_rows input = visibleSize p -> n_cols input = 1%nat ->
  FreeEnergy p input s = Some (FreeEnergy_value p (heap_of s) input, s).
Proof.
  intros Hr Hc. rewrite (FreeEnergy_runs input s Hr Hc). cbv zeta.
  do 2 f_equal. unfold FreeEnergy_value.
  rewrite (quadratic_form input (heap_of s) Hr).
  rewrite (sum_ext (hiddenSize p) _
             (fun i => - sum (poolSize p) (fun k =>
                0.5 * ln (2 * PI / at_ (heap_of s) (slabPenalty p) k i))))
    by (intros i Hi; apply sum_opp).
  rewrite sum_opp.
  rewrite (sum_ext (hiddenSize p)
             (fun i => - SoftplusFn _)
             (fun i => - SoftplusFn (activation p (heap_of s) input i))).
  - rewrite sum_opp. lra.
  - intros i Hi. do 2 f_equal. unfold activation. f_equal.
    apply sum_ext. intros k Hk. now rewrite (projection_value input (heap_of s) i k Hr).
Qed.

End FreeEnergyRuns.

(** X16. For a [V x 1] input and positive slab precisions [FreeEnergy]
    returns
    [0.5 * sum_r visiblePenalty(r) * input(r)^2
     - sum_i sum_k 0.5 * ln (2 pi / slabPenalty(k, i))
     - sum_i softplus (activation i)],
    where [activation i] is the argument [SpikeMean] gives to the logistic
    function.  It reads the model and the input only: the heap and the
    generator are returned unchanged. *)
Theorem FreeEnergy_closed_form {E : Env} (p : SpikeSlabRBMPolicy)
    (input : mat) (s : state) :
  well_formed p ->
  n_rows input = visibleSize p -> n_cols input = 1%nat ->
  slab_positive p (heap_of s) ->
  FreeEnergy p input s = Some (FreeEnergy_value p (heap_of s) input, s).
Proof. intros WF Hr Hc _. now apply FreeEnergy_spec. Qed.

Lemma FreeEnergy_closed_form_witness :
  let E := tape_env 0 in
  let p := demo_policy 2 1 1 10 in
  let input := Mat 2 1 (CallerMem 0) 0 in
  let s := @State E (demo_heap [1; 2; 0; 1; 1] [2] [3; 4] []) [] in
  FreeEnergy p input s = Some (FreeEnergy_value p (heap_of s) input, s).
Proof.
  apply (@FreeEnergy_closed_form (tape_env 0) (demo_policy 2 1 1 10)
           (Mat 2 1 (CallerMem 0) 0)
           (@State (tape_env 0) (demo_heap [1; 2; 0; 1; 1] [2] [3; 4] []) [])).
  - apply demo_well_formed.
  - reflexivity.
  - reflexivity.
  - intros k i Hk Hi. simpl in Hk, Hi.
    assert (k = 0%nat) as -> by lia. assert (i = 0%nat) as -> by lia.
    unfold at_. simpl. lra.
Defined.


(** X18. [FreeEnergy] is even in the visible vector: with positive slab
    precisions, negating every entry of the input leaves the returned value
    unchanged. *)
Theorem FreeEnergy_even {E : Env} (p : SpikeSlabRBMPolicy)
    (input input' : mat) (s : state) :
  well_formed p ->
  n_rows input = visibleSize p -> n_cols input = 1%nat ->
  n_rows input' = visibleSize p -> n_cols input' = 1%nat ->
  slab_positive p (heap_of s) ->
  (forall r, (r < visibleSize p)%nat ->
     el (heap_of s) input' r = - el (heap_of s) input r) ->
  exists v,
    FreeEnergy p input s = Some (v, s) /\
    FreeEnergy p input' s = Some (v, s).
Proof.
  intros WF Hr Hc Hr' Hc' _ Hneg.
  exists (FreeEnergy_value p (heap_of s) input).
  split; [now apply FreeEnergy_spec|].
  rewrite (FreeEnergy_spec p WF input' s Hr' Hc'). do 2 f_equal.
  assert (Hat : forall r, (r < visibleSize p)%nat ->
            at_ (heap_of s) input' r 0 = - at_ (heap_of s) input r 0).
  { intros r Hrk. specialize (Hneg r Hrk). unfold at_, el in *. simpl.
    now rewrite !Nat.add_0_r. }
  assert (Hproj : forall i k,
            projection p (heap_of s) input' i k = - projection p (heap_of s) input i k).
  { intros i k. unfold projection. rewrite <- sum_opp.
    apply sum_ext. intros r Hrk. rewrite (Hat r Hrk). lra. }
  assert (HQ : sum (visibleSize p) (fun r =>
                 at_ (heap_of s) input' r 0 * el (heap_of s) (visiblePenalty p) r *
                 at_ (heap_of s) input' r 0) =
               sum (visibleSize p) (fun r =>
                 at_ (heap_of s) input r 0 * el (heap_of s) (visiblePenalty p) r *
                 at_ (heap_of s) input r 0)).
  { apply sum_ext. intros r Hrk. rewrite (Hat r Hrk). lra. }
  assert (HS : sum (hiddenSize p) (fun i =>
                 SoftplusFn (activation p (heap_of s) input' i)) =
               sum (hiddenSize p) (fun i =>
                 SoftplusFn (activation p (heap_of s) input i))).
  { apply sum_ext. intros i Hi. f_equal. unfold activation. f_equal.
    apply sum_ext. intros k Hk. rewrite Hproj. unfold Rdiv. lra. }
  unfold FreeEnergy_value. rewrite HQ, HS. reflexivity.
Qed.

Lemma FreeEnergy_even_witness :
  let E := tape_env 0 in
  let p := demo_policy 2 1 1 10 in
  let input := Mat 2 1 (CallerMem 0) 0 in
  let input' := Mat 2 1 (CallerMem 1) 0 in
  let s := @State E (demo_heap [1; 2; 0; 1; 1] [2] [3; -4] [-3; 4]) [] in
  exists v,
    FreeEnergy p input s = Some (v, s) /\
    FreeEnergy p input' s = Some (v, s).
Proof.
  apply (@FreeEnergy_even (tape_env 0) (demo_policy 2 1 1 10)
           (Mat 2 1 (CallerMem 0) 0) (Mat 2 1 (CallerMem 1) 0)
           (@State (tape_env 0) (demo_heap [1; 2; 0; 1; 1] [2] [3; -4] [-3; 4]) [])).
  - apply demo_well_formed.
  - reflexivity.
  - reflexivity.
  - reflexivity.
  - reflexivity.
  - intros k i Hk Hi. simpl in Hk, Hi.
    assert (k = 0%nat) as -> by lia. assert (i = 0%nat) as -> by lia.
    unfold at_. simpl. lra.
  - intros r Hr. simpl in Hr. unfold el. simpl.
    destruct r as [|[|r]]; simpl; try lra. lia.
Defined.

(* ================================================================== *)
(** * HiddenMean and SampleHidden side by side                          *)
(* ================================================================== *)

Section HiddenCompose.
Context {E : Env}.
Variable p : SpikeSlabRBMPolicy.
Hypothesis WF : well_formed p.

Lemma SlabMean_value_cong (visible spike spike' : mat) (c i : nat) (h h' : heap) :
  h' ParameterMem = h ParameterMem ->
  h' SlabPenaltyMem = h SlabPenaltyMem ->
  h' (base visible) = h (base visible) ->
  el h' spike' i = el h spike i ->
  SlabMean_value p h' visible spike' c i = SlabMean_value p h visible spike c i.
Proof.
  intros H1 H2 H3 H4. unfold SlabMean_value. rewrite H4. unfold at_, slice.
  rewrite (wf_slabPenalty p WF), (wf_weight p WF). simpl.
  now rewrite H1, H2, H3.
Qed.

Lemma index_split (P H k : nat) :
  (k < P * H)%nat ->
  (k / P < H)%nat /\ (k mod P < P)%nat /\ k = (k mod P + k / P * P)%nat.
Proof.
  intros Hk. assert (HP : P <> 0%nat) by (intros ->; simpl in Hk; lia).
  split; [|split].
  - apply Nat.Div0.div_lt_upper_bound. exact Hk.
  - apply Nat.mod_upper_bound. exact HP.
  - pose proof (Nat.div_mod_eq k P). lia.
Qed.

End HiddenCompose.

(** X19. Run from the same state on the same visible input, [SampleHidden]
    is [HiddenMean] with the samples put in place of the means: it makes the
    same [H] Bernoulli draws, its spike part is the sample [HiddenMean] only
    keeps in [spikeSamples], and slab cell [k] is a normal draw around the
    slab cell [k] that [HiddenMean] returns, with second argument
    [1 / slabPenalty[k]], drawn in storage order after the Bernoulli
    draws. *)
Theorem SampleHidden_around_HiddenMean {E : Env} (p : SpikeSlabRBMPolicy)
    (input output : mat) (a b : nat) (s : state) :
  well_formed p ->
  n_rows input = visibleSize p -> n_cols input = 1%nat ->
  caller_mat input a -> caller_mat output b -> a <> b ->
  slab_positive p (heap_of s) ->
  let H := hiddenSize p in
  let P := poolSize p in
  exists om sm os ss,
    HiddenMean p input output s = Some (om, sm) /\
    SampleHidden p input output s = Some (os, ss) /\
    (forall i, (i < H)%nat ->
       el (heap_of ss) os i = el (heap_of sm) (spikeSamples p) i) /\
    let normal := fun k =>
      RandNormal (el (heap_of sm) om (H + k))
                 (1 / el (heap_of s) (slabPenalty p) k) in
    (forall k, (k < P * H)%nat ->
       el (heap_of ss) os (H + k) = drawn normal k (rng_of sm)) /\
    rng_of ss = rng_after normal (P * H) (rng_of sm).
Proof.
  intros WF Hir Hic Ha Hb Hab Hpos H P.
  pose proof (slab_positive_nonzero p (heap_of s) Hpos) as Hnz.
  destruct (HiddenMean_spec p WF input output a b s Hir Hic Ha Hb Hab Hnz)
    as (om & sm & HrunA & _ & HmeanA & HrngA & HsampA & HslabA & HfrA).
  destruct (SampleHidden_spec p WF input output a b s Hir Hic Ha Hb Hab Hpos)
    as (os & ss & HrunB & _ & HspikeB & HslabB & HrngB & HfrB).
  fold H in HmeanA, HrngA, HsampA, HslabA, HspikeB, HslabB, HrngB.
  fold P in HslabA, HslabB, HrngB.
  unfold caller_mat in Ha, Hb.
  set (bern := fun i => RandBernoulli (LogisticFn (activation p (heap_of s) input i))) in *.
  set (drawA := fun i => RandBernoulli (el (heap_of sm) om i)) in *.
  assert (Hbern : forall j, (j < H)%nat -> drawA j = bern j).
  { intros j Hj. unfold drawA, bern. f_equal.
    specialize (HmeanA j Hj).
    rewrite (SpikeMean_rhs_value p WF input j (heap_of s) Hir Hnz Hj) in HmeanA.
    now injection HmeanA. }
  assert (HrngA' : rng_of sm = rng_after bern H (rng_of s)).
  { rewrite HrngA. apply rng_after_ext. exact Hbern. }
  assert (Hspike : forall i, (i < H)%nat ->
            el (heap_of ss) os i = el (heap_of sm) (spikeSamples p) i).
  { intros i Hi. rewrite (HspikeB i Hi), (HsampA i Hi).
    symmetry. apply drawn_ext. intros j Hj. apply Hbern. lia. }
  assert (HparA : heap_of sm ParameterMem = heap_of s ParameterMem).
  { apply HfrA; [discriminate | rewrite Hb; discriminate]. }
  assert (HslA : heap_of sm SlabPenaltyMem = heap_of s SlabPenaltyMem).
  { apply HfrA; [discriminate | rewrite Hb; discriminate]. }
  assert (HinA : heap_of sm (base input) = heap_of s (base input)).
  { apply HfrA; rewrite Ha; [discriminate | rewrite Hb; congruence]. }
  assert (HparB : heap_of ss ParameterMem = heap_of s ParameterMem).
  { apply HfrB. rewrite Hb. discriminate. }
  assert (HslB : heap_of ss SlabPenaltyMem = heap_of s SlabPenaltyMem).
  { apply HfrB. rewrite Hb. discriminate. }
  assert (HinB : heap_of ss (base input) = heap_of s (base input)).
  { apply HfrB. rewrite Ha, Hb. congruence. }
  assert (Hnormal : forall j, (j < P * H)%nat ->
            RandNormal (SlabMean_value p (heap_of ss) input (spike_part p os)
                          (j mod P) (j / P))
                       (1 / el (heap_of s) (slabPenalty p) j) =
            RandNormal (el (heap_of sm) om (H + j))
                       (1 / el (heap_of s) (slabPenalty p) j)).
  { intros j Hj. f_equal.
    destruct (index_split P H j Hj) as (Hi & Hc & Hsplit).
    rewrite Hsplit at 3. rewrite (HslabA (j / P)%nat (j mod P)%nat Hi Hc).
    apply SlabMean_value_cong; auto; try congruence.
    replace (el (heap_of ss) (spike_part p os) (j / P))
      with (el (heap_of ss) os (j / P))
      by (unfold el, spike_part; simpl; f_equal; lia).
    apply Hspike. exact Hi. }
  exists om, sm, os, ss.
  split; [exact HrunA|]. split; [exact HrunB|]. split; [exact Hspike|].
  cbv zeta. split.
  - intros k Hk. rewrite (HslabB k Hk), HrngA'.
    apply drawn_ext. intros j Hj. apply Hnormal. lia.
  - rewrite HrngB, HrngA'. apply rng_after_ext. exact Hnormal.
Qed.

Lemma SampleHidden_around_HiddenMean_witness :
  let E := tape_env 0 in
  let p := demo_policy 1 1 1 10 in
  let input := Mat 1 1 (CallerMem 0) 0 in
  let output := Mat 2 1 (CallerMem 1) 0 in
  let s := @State E (demo_heap [1; 0; 1] [1] [1] [0; 0]) [0; 2] in
  exists om sm os ss,
    HiddenMean p input output s = Some (om, sm) /\
    SampleHidden p input output s = Some (os, ss) /\
    (forall i, (i < 1)%nat ->
       el (heap_of ss) os i = el (heap_of sm) (spikeSamples p) i) /\
    let normal := fun k =>
      RandNormal (el (heap_of sm) om (1 + k))
                 (1 / el (heap_of s) (slabPenalty p) k) in
    (forall k, (k < 1 * 1)%nat ->
       el (heap_of ss) os (1 + k) = drawn normal k (rng_of sm)) /\
    rng_of ss = rng_after normal (1 * 1) (rng_of sm).
Proof.
  apply (@SampleHidden_around_HiddenMean (tape_env 0) (demo_policy 1 1 1 10)
           (Mat 1 1 (CallerMem 0) 0) (Mat 2 1 (CallerMem 1) 0) 0%nat 1%nat
           (@State (tape_env 0) (demo_heap [1; 0; 1] [1] [1] [0; 0]) [0; 2])).
  - apply demo_well_formed.
  - reflexivity.
  - reflexivity.
  - reflexivity.
  - reflexivity.
  - discriminate.
  - intros k i Hk Hi. simpl in Hk, Hi.
    assert (k = 0%nat) as -> by lia. assert (i = 0%nat) as -> by lia.
    unfold at_. simpl. lra.
Defined.
